(** * TRICAL: tri-axial sensor calibration -- verification of the matrix
      kernel (3dmath.h) and of the public instance API (TRICAL.c)

    The C code computes on [float].  The embedding is written once over an
    interface of the numeric primitives the code uses ([FloatOps]) and is
    read at two instances:

    - [R_ops]: real arithmetic, for the algebraic statements;
    - [b32_ops]: IEEE-754 binary32 with round-to-nearest-even, built on the
      standard library's [SpecFloat], for statements about concrete floats.

    Float memory is a flat store of [float] cells addressed by natural
    numbers; a C pointer to [float] is an address and [NULL] is address 0,
    so that aliased arguments are two equal addresses.

    Array indices, which the C code keeps in [unsigned int], are natural
    numbers: every index the code forms is at most [dim * dim], so no
    [unsigned] wrap-around happens while [dim * dim < 2^32].  The one
    [unsigned] that can really wrap, [measurement_count], is a [Z] with the
    wrap-around written out. *)

From Stdlib Require Import Arith ZArith Bool List Lia.
From Stdlib Require Import Reals Lra Psatz.
From Stdlib Require Import QArith.
From Stdlib Require Import Floats.SpecFloat.
Import ListNotations.

Close Scope Q_scope.
Close Scope R_scope.
Open Scope nat_scope.

Set Implicit Arguments.

(** ** Numeric primitives *)

(** What the code needs from [float]: the literals it writes, the four
    operations, [sqrt] with the result converted back to [float], [fabs],
    and the two comparisons. *)
Class FloatOps (F : Type) : Type := {
  fzero : F;                 (* 0.0f; also the all-zero bit pattern of memset *)
  fone : F;                  (* 1.0f *)
  lit_1em6 : F;              (* 1e-6f *)
  lit_1em2 : F;              (* 1e-2f *)
  FLT_EPSILON : F;           (* <float.h>: 2^-23 *)
  fadd : F -> F -> F;
  fsub : F -> F -> F;
  fmul : F -> F -> F;
  fdiv : F -> F -> F;
  fsqrt_f : F -> F;          (* (float)sqrt(x) *)
  fabs : F -> F;
  fltb : F -> F -> bool;     (* x < y *)
  fleb : F -> F -> bool      (* x <= y *)
}.

(** The defaults written by [TRICAL_init] compare as positive. *)
Class FloatLaws (F : Type) {ops : FloatOps F} : Prop := {
  fone_pos : fltb fzero fone = true;
  lit_1em6_pos : fltb fzero lit_1em6 = true;
  lit_1em2_pos : fltb fzero lit_1em2 = true
}.

Arguments FloatLaws F {ops}.

Section Macros.
Context {F : Type} {ops : FloatOps F}.

(** The non-TI branch of 3dmath.h:
    [#define recip(a) (1.0f / (a))], [#define divide(a, b) ((a) / (b))],
    [#define fsqrt(a) (float)sqrt((a))],
    [#define sqrt_inv(x) (1.0f / (float)sqrt((x)))]. *)
Definition recip (a : F) : F := fdiv fone a.
Definition divide (a b : F) : F := fdiv a b.
Definition fsqrt (a : F) : F := fsqrt_f a.
Definition sqrt_inv (x : F) : F := fdiv fone (fsqrt_f x).
End Macros.

(** *** Real arithmetic *)

Definition Rltb (x y : R) : bool := if Rlt_dec x y then true else false.
Definition Rleb (x y : R) : bool := if Rle_dec x y then true else false.

#[export] Instance R_ops : FloatOps R := {|
  fzero := 0%R;
  fone := 1%R;
  lit_1em6 := (/ 1000000)%R;
  lit_1em2 := (/ 100)%R;
  FLT_EPSILON := (/ 8388608)%R;
  fadd := Rplus;
  fsub := Rminus;
  fmul := Rmult;
  fdiv := Rdiv;
  fsqrt_f := sqrt;
  fabs := Rabs;
  fltb := Rltb;
  fleb := Rleb
|}.

(** *** IEEE-754 binary32 *)

Module B32.
Definition prec : Z := 24.
Definition emax : Z := 128.

Definition of_Z (z : Z) : spec_float := binary_normalize prec emax z 0 false.

(** [(float)x] for a [double] x: the finite values are rounded to
    binary32, the others are kept. *)
Definition of_double (x : spec_float) : spec_float :=
  match x with
  | S754_finite s m e => binary_round prec emax s m e
  | _ => x
  end.

(** [(float)sqrt(x)]: the argument is promoted to [double] (exactly),
    [sqrt] is the binary64 square root, the result is converted back. *)
Definition sqrt_f (x : spec_float) : spec_float :=
  of_double (SFsqrt 53 1024 x).

(** The exact value of a finite float, as a rational. *)
Definition to_Q (x : spec_float) : option Q :=
  match x with
  | S754_zero _ => Some 0%Q
  | S754_finite s m e =>
      let mag := match e with
                 | Z0 => inject_Z (Zpos m)
                 | Zpos p => inject_Z (Zpos m * 2 ^ Zpos p)
                 | Zneg p => Qmake (Zpos m) (2 ^ p)
                 end in
      Some (if s then Qopp mag else mag)
  | _ => None
  end.
End B32.

#[export] Instance b32_ops : FloatOps spec_float := {|
  fzero := S754_zero false;
  fone := B32.of_Z 1;
  lit_1em6 := SFdiv B32.prec B32.emax (B32.of_Z 1) (B32.of_Z 1000000);
  lit_1em2 := SFdiv B32.prec B32.emax (B32.of_Z 1) (B32.of_Z 100);
  FLT_EPSILON := SFldexp B32.prec B32.emax (B32.of_Z 1) (-23);
  fadd := SFadd B32.prec B32.emax;
  fsub := SFsub B32.prec B32.emax;
  fmul := SFmul B32.prec B32.emax;
  fdiv := SFdiv B32.prec B32.emax;
  fsqrt_f := B32.sqrt_f;
  fabs := SFabs;
  fltb := SFltb;
  fleb := SFleb
|}.

(** ** Loops *)

(** [for (i = lo; i < hi; i += step) s = body i s;]
    The recursion is on a fuel that is never the reason to stop when
    [step > 0] (lemma [for_step_fuel]). *)
Fixpoint for_step {S : Type} (fuel : nat) (i hi step : nat)
    (body : nat -> S -> S) (s : S) : S :=
  match fuel with
  | O => s
  | Datatypes.S fuel' =>
      if i <? hi then for_step fuel' (i + step) hi step body (body i s)
      else s
  end.

Definition for_loop {S : Type} (lo hi step : nat)
    (body : nat -> S -> S) (s : S) : S :=
  for_step (hi - lo) lo hi step body s.

(** ** Float memory *)

Section Memory.
Context {F : Type}.

Definition ptr := nat.
Definition NULL : ptr := 0.
Definition heap := ptr -> F.

Definition store (h : heap) (p : ptr) (v : F) : heap :=
  fun q => if Nat.eqb q p then v else h q.

Definition assert (b : bool) : option unit :=
  if b then Some tt else None.

Definition nonnull (p : ptr) : bool := negb (Nat.eqb p NULL).
End Memory.

Arguments heap F : clear implicits.

(** ** 3dmath.h: scaled Cholesky decomposition *)

Section Cholesky.
Context {F : Type} {ops : FloatOps F}.

(** The innermost loop:
    [for (kn = 0; kn < j*dim; kn += dim) s += L[i + kn] * L[j + kn];] *)
Definition cholesky_dot (dim : nat) (L : ptr) (i j : nat) (h : heap F) : F :=
  for_loop 0 (j * dim) dim
    (fun kn s => fadd s (fmul (h (L + (i + kn))) (h (L + (j + kn)))))
    fzero.

(** The body of [for (j = 1, jn = dim; j <= i; j++, jn += dim)], on the
    pair (jn, memory): the sum s, then the store to [L[i + jn]]. *)
Definition cholesky_col (dim : nat) (L A : ptr) (mul : F) (i in_ : nat)
    (j : nat) (st : nat * heap F) : nat * heap F :=
  let '(jn, h) := st in
  let s := cholesky_dot dim L i j h in
  let v := if Nat.eqb i j
           then fsqrt (fsub (fmul (h (A + (i + in_))) mul) s)
           else fmul (recip (h (L + (j + jn))))
                     (fsub (fmul (h (A + (i + jn))) mul) s) in
  (jn + dim, store h (L + (i + jn)) v).

(** The body of [for (i = 0, in = 0; i < dim; i++, in += dim)], on the
    pair (in, memory): the store to [L[i + 0]], then the loop over j. *)
Definition cholesky_row (dim : nat) (L A : ptr) (mul : F)
    (i : nat) (st : nat * heap F) : nat * heap F :=
  let '(in_, h) := st in
  let v0 := if Nat.eqb i 0
            then fsqrt (fmul (h (A + (i + in_))) mul)
            else fmul (recip (h (L + 0))) (fmul (h (A + i)) mul) in
  let h0 := store h (L + (i + 0)) v0 in
  let '(_, h1) :=
    for_loop 1 (i + 1) 1 (cholesky_col dim L A mul i in_) (dim, h0) in
  (in_ + dim, h1).

Definition matrix_cholesky_decomp_scale_f (dim : nat) (L A : ptr) (mul : F)
    (h : heap F) : option (heap F) :=
  match assert (nonnull L && nonnull A && negb (Nat.eqb dim 0)) with
  | None => None
  | Some _ =>
      Some (snd (for_loop 0 dim 1 (cholesky_row dim L A mul) (0, h)))
  end.
End Cholesky.

(** *** The matrix of the unit test [MatrixMath.CholeskyLLT] *)

Module CholeskyTest.
Definition m1 : list Z :=
  [ 18; 22;  54;  42;
    22; 70;  86;  62;
    54; 86; 174; 134;
    42; 62; 134; 106 ]%Z.

(** Memory holding [cells] from address [base] on, zeros elsewhere. *)
Definition load_at (base : ptr) (cells : list spec_float) : heap spec_float :=
  fun q => if q <? base then S754_zero false
           else nth (q - base) cells (S754_zero false).

Definition m1_at (base : ptr) : heap spec_float :=
  load_at base (map B32.of_Z m1).

(** The expected lower triangle, as (row, column, decimal value). *)
Definition expected : list (nat * nat * Q) :=
  [ (0, 0, 4.24264%Q); (1, 0, 5.18545%Q); (2, 0, 12.72792%Q);
    (3, 0, 9.8994951%Q);
    (1, 1, 6.5659051%Q); (2, 1, 3.0460384%Q); (3, 1, 1.6245539%Q);
    (2, 2, 1.6497422%Q); (3, 2, 1.8497111%Q);
    (3, 3, 1.3926213%Q) ].

Definition near (tol : Q) (x : spec_float) (q : Q) : bool :=
  match B32.to_Q x with
  | Some v => Qle_bool (Qabs.Qabs (v - q)) tol
  | None => false
  end.

(** Every expected entry (i, j) is met at cell [L + i + 4 j] (column-major). *)
Definition matches (L : ptr) (h : option (heap spec_float)) : bool :=
  match h with
  | Some h' =>
      forallb (fun e => let '(i, j, q) := e in
                        near (1 # 100000) (h' (L + (i + j * 4))) q)
              expected
  | None => false
  end.
End CholeskyTest.

(** ** TRICAL.h: the calibration instance *)

(** Modelled from the spec: TRICAL.h is not under src/.  The fields are the
    ones TRICAL.c reads and writes ([state] is the spec's error_state) and
    [TRICAL_STATE_DIM] is the 9 of the spec's data model and of the
    [MUST_ITERATE(9, 9)] and [MUST_ITERATE(81, 81)] pragmas.  The arrays
    [float state[9]] and [float state_covariance[81]] are maps from the index
    to the cell; [unsigned int measurement_count] is a [Z] in [0, 2^32). *)
Record TRICAL_instance_t (F : Type) : Type := mkInstance {
  field_norm : F;
  measurement_noise : F;
  state : nat -> F;
  state_covariance : nat -> F;
  measurement_count : Z
}.

(** Modelled from the spec: the macro [TRICAL_STATE_DIM] of TRICAL.h, the
    dimension 9 of the error state. *)
Definition TRICAL_STATE_DIM : nat := 9.

(** [unsigned int] is 32 bits wide. *)
Definition UINT_MODULUS : Z := 2 ^ 32.

Section Instance.
Context {F : Type}.

Definition upd (a : nat -> F) (i : nat) (v : F) : nat -> F :=
  fun k => if Nat.eqb k i then v else a k.

Definition set_field_norm (v : F) (x : TRICAL_instance_t F) :=
  mkInstance v (measurement_noise x) (state x) (state_covariance x)
             (measurement_count x).
Definition set_measurement_noise (v : F) (x : TRICAL_instance_t F) :=
  mkInstance (field_norm x) v (state x) (state_covariance x)
             (measurement_count x).
Definition set_state (v : nat -> F) (x : TRICAL_instance_t F) :=
  mkInstance (field_norm x) (measurement_noise x) v (state_covariance x)
             (measurement_count x).
Definition set_state_covariance (v : nat -> F) (x : TRICAL_instance_t F) :=
  mkInstance (field_norm x) (measurement_noise x) (state x) v
             (measurement_count x).
Definition set_measurement_count (v : Z) (x : TRICAL_instance_t F) :=
  mkInstance (field_norm x) (measurement_noise x) (state x)
             (state_covariance x) v.
End Instance.

(** ** filter.c, as far as TRICAL.c calls it *)

Section FilterModel.
Context {F : Type} {ops : FloatOps F}.

(** What the spec leaves open: the spread parameter that scales the
    covariance before its Cholesky factorisation, the unscented weights of
    the central and of the 18 symmetric sigma points, and the calibration
    transform (state, raw vector) -> calibrated vector shared by the
    calibrator and the measurement model. *)
Variable ukf_spread : F.
Variable ukf_w0 : F.
Variable ukf_wi : F.
Variable calibration_transform : (nat -> F) -> F * F * F -> F * F * F.

Definition read_vec3 (h : heap F) (p : ptr) : F * F * F :=
  (h (p + 0), h (p + 1), h (p + 2)).

Definition write_vec3 (h : heap F) (p : ptr) (v : F * F * F) : heap F :=
  let '(x, y, z) := v in
  store (store (store h (p + 0) x) (p + 1) y) (p + 2) z.

(** Modelled from the spec: [_trical_measurement_calibrate] (filter.c) is
    not under src/.  Section 4.3: the calibrated vector is a function of
    the state and the raw vector alone, no state is mutated, and the raw
    and output buffers may be the same memory, so the raw vector is read
    before the output is written. *)
Definition _trical_measurement_calibrate (st : nat -> F)
    (measurement calibrated_measurement : ptr) (h : heap F) : heap F :=
  let raw := read_vec3 h measurement in
  write_vec3 h calibrated_measurement (calibration_transform st raw).

Definition norm_sq (v : F * F * F) : F :=
  let '(x, y, z) := v in
  fadd (fadd (fmul x x) (fmul y y)) (fmul z z).

(** Working memory of one cycle: the covariance in cells 1..81, the
    Cholesky factor in cells 82..162, zero before the factorisation. *)
Definition filter_A : ptr := 1.
Definition filter_L : ptr := 82.

Definition filter_workspace (x : TRICAL_instance_t F) : heap F :=
  fun q => if (1 <=? q) && (q <=? 81) then state_covariance x (q - 1)
           else fzero.

(** Step 1: the one Cholesky call of the cycle. *)
Definition filter_sqrt_covariance (x : TRICAL_instance_t F) : heap F :=
  match matrix_cholesky_decomp_scale_f TRICAL_STATE_DIM filter_L filter_A
          ukf_spread (filter_workspace x) with
  | Some h => h
  | None => filter_workspace x
  end.

(** Steps 1 and 2: sigma point 0 is the mean; points 1..9 add row k-1 of
    the factor, points 10..18 subtract row k-10; the process model is the
    identity. *)
Definition sigma_point (x : TRICAL_instance_t F) (k d : nat) : F :=
  let Lh := filter_sqrt_covariance x in
  if Nat.eqb k 0 then state x d
  else if k <=? 9
       then fadd (state x d) (Lh (filter_L + ((k - 1) + d * 9)))
       else fsub (state x d) (Lh (filter_L + ((k - 10) + d * 9))).

(** Step 3: the scalar measurement predicted by sigma point k. *)
Definition sigma_measurement (x : TRICAL_instance_t F) (raw : F * F * F)
    (k : nat) : F :=
  norm_sq (calibration_transform (sigma_point x k) raw).

Definition sigma_weight (k : nat) : F :=
  if Nat.eqb k 0 then ukf_w0 else ukf_wi.

(** Step 4: weighted recombination over the 19 sigma points. *)
Definition predicted_measurement_mean (x : TRICAL_instance_t F)
    (raw : F * F * F) : F :=
  for_loop 0 19 1
    (fun k acc => fadd acc (fmul (sigma_weight k) (sigma_measurement x raw k)))
    fzero.

Definition predicted_measurement_variance (x : TRICAL_instance_t F)
    (raw : F * F * F) : F :=
  let mean := predicted_measurement_mean x raw in
  let spread :=
    for_loop 0 19 1
      (fun k acc =>
         let dz := fsub (sigma_measurement x raw k) mean in
         fadd acc (fmul (sigma_weight k) (fmul dz dz)))
      fzero in
  fadd spread (fmul (measurement_noise x) (measurement_noise x)).

Definition cross_covariance (x : TRICAL_instance_t F) (raw : F * F * F)
    (d : nat) : F :=
  let mean := predicted_measurement_mean x raw in
  for_loop 0 19 1
    (fun k acc =>
       let dx := fsub (sigma_point x k d) (state x d) in
       let dz := fsub (sigma_measurement x raw k) mean in
       fadd acc (fmul (sigma_weight k) (fmul dx dz)))
    fzero.

(** Step 5: the correction, on the 9 state cells and the 81 covariance
    cells.  The subtracted outer product gain x cross-covariance is
    cross x cross / variance, symmetric as it stands. *)
Definition filter_correct (x : TRICAL_instance_t F) (raw : F * F * F)
    : TRICAL_instance_t F :=
  let mean := predicted_measurement_mean x raw in
  let var := predicted_measurement_variance x raw in
  let gain := fun d => fdiv (cross_covariance x raw d) var in
  let innovation := fsub (fmul (field_norm x) (field_norm x)) mean in
  let st := fun d => if d <? 9
                     then fadd (state x d) (fmul (gain d) innovation)
                     else state x d in
  let cov := fun q => if q <? 81
                      then fsub (state_covariance x q)
                                (fmul (gain (q / 9))
                                      (cross_covariance x raw (q mod 9)))
                      else state_covariance x q in
  set_state_covariance cov (set_state st x).

(** Modelled from the spec: [_trical_filter_iterate] (filter.c) is not
    under src/.  Section 4.2, steps 1 to 5 and the degenerate-variance
    policy: a non-positive predicted measurement variance skips the
    correction.  The counter of step 6 is incremented by the caller,
    [TRICAL_estimate_update], which is under src/. *)
Definition _trical_filter_iterate (x : TRICAL_instance_t F)
    (measurement : ptr) (h : heap F) : TRICAL_instance_t F :=
  let raw := read_vec3 h measurement in
  if fleb (predicted_measurement_variance x raw) fzero then x
  else filter_correct x raw.
End FilterModel.

(** ** TRICAL.c: the public operations *)

(** A function that can fail an [assert] returns [None] there, as in a build
    without NDEBUG; the statements below assume what the code asserts, so
    they do not depend on the assertions being compiled in.  The instance
    pointer is [restrict]-qualified or the only pointer argument, and the
    instance is a value of the model, so [assert(instance)] always passes
    and the float memory is disjoint from the instance.  [Resident], further
    down, has the operations with the instance in that memory. *)

Section API.
Context {F : Type} {ops : FloatOps F}.

Variable ukf_spread : F.
Variable ukf_w0 : F.
Variable ukf_wi : F.
Variable calibration_transform : (nat -> F) -> F * F * F -> F * F * F.

(** [memset(instance, 0, sizeof(TRICAL_instance_t))] *)
Definition instance_zero : TRICAL_instance_t F :=
  mkInstance fzero fzero (fun _ => fzero) (fun _ => fzero) 0%Z.

Definition TRICAL_init (instance : TRICAL_instance_t F)
    : TRICAL_instance_t F :=
  let instance := instance_zero in
  let instance := set_field_norm fone instance in
  let instance := set_measurement_noise lit_1em6 instance in
  for_loop 0 (TRICAL_STATE_DIM * TRICAL_STATE_DIM) 10
    (fun i x => set_state_covariance (upd (state_covariance x) i lit_1em2) x)
    instance.

Definition TRICAL_norm_set (instance : TRICAL_instance_t F) (norm : F)
    : option (TRICAL_instance_t F) :=
  match assert (fltb fzero norm) with
  | None => None
  | Some _ =>
      if fltb (fabs (fsub norm (field_norm instance))) FLT_EPSILON
      then Some instance
      else
        let scale := fdiv norm (field_norm instance) in
        let instance :=
          for_loop 0 TRICAL_STATE_DIM 1
            (fun i x => set_state (upd (state x) i (fmul (state x i) scale)) x)
            instance in
        let scale := fdiv (fmul norm norm)
                          (fmul (field_norm instance) (field_norm instance)) in
        let instance :=
          for_loop 0 (TRICAL_STATE_DIM * TRICAL_STATE_DIM) 1
            (fun i x =>
               set_state_covariance
                 (upd (state_covariance x) i
                      (fmul (state_covariance x i) scale)) x)
            instance in
        Some (set_field_norm norm instance)
  end.

Definition TRICAL_norm_get (instance : TRICAL_instance_t F) : F :=
  field_norm instance.

Definition TRICAL_noise_set (instance : TRICAL_instance_t F) (noise : F)
    : option (TRICAL_instance_t F) :=
  match assert (fltb fzero noise) with
  | None => None
  | Some _ => Some (set_measurement_noise noise instance)
  end.

Definition TRICAL_noise_get (instance : TRICAL_instance_t F) : F :=
  measurement_noise instance.

Definition TRICAL_measurement_count_get (instance : TRICAL_instance_t F)
    : Z :=
  measurement_count instance.

(** [instance->measurement_count++] on a 32-bit [unsigned int]. *)
Definition TRICAL_estimate_update (instance : TRICAL_instance_t F)
    (measurement : ptr) (h : heap F) : option (TRICAL_instance_t F) :=
  match assert (nonnull measurement) with
  | None => None
  | Some _ =>
      let instance :=
        _trical_filter_iterate ukf_spread ukf_w0 ukf_wi
          calibration_transform instance measurement h in
      Some (set_measurement_count
              ((measurement_count instance + 1) mod UINT_MODULUS)%Z
              instance)
  end.

(** [memcpy(dst, src, n * sizeof(float))] from an array of the instance. *)
Definition memcpy_floats (h : heap F) (dst : ptr) (src : nat -> F) (n : nat)
    : heap F :=
  for_loop 0 n 1 (fun i m => store m (dst + i) (src i)) h.

Definition TRICAL_estimate_get (instance : TRICAL_instance_t F)
    (bias_estimate scale_estimate : ptr) (h : heap F) : option (heap F) :=
  match assert (nonnull bias_estimate && nonnull scale_estimate
                && negb (Nat.eqb bias_estimate scale_estimate)) with
  | None => None
  | Some _ =>
      let h := memcpy_floats h bias_estimate (state instance) 3 in
      let h := store h (scale_estimate + 0) (state instance 3) in
      let h := store h (scale_estimate + 1) (state instance 4) in
      let h := store h (scale_estimate + 2) (state instance 5) in
      let h := store h (scale_estimate + 3) (state instance 4) in
      let h := store h (scale_estimate + 4) (state instance 6) in
      let h := store h (scale_estimate + 5) (state instance 7) in
      let h := store h (scale_estimate + 6) (state instance 5) in
      let h := store h (scale_estimate + 7) (state instance 7) in
      let h := store h (scale_estimate + 8) (state instance 8) in
      Some h
  end.

Definition TRICAL_estimate_get_ext (instance : TRICAL_instance_t F)
    (bias_estimate scale_estimate : ptr)
    (bias_estimate_variance scale_estimate_variance : ptr) (h : heap F)
    : option (heap F) :=
  match TRICAL_estimate_get instance bias_estimate scale_estimate h with
  | None => None
  | Some h =>
      match assert (nonnull bias_estimate_variance
                    && nonnull scale_estimate_variance
                    && negb (Nat.eqb bias_estimate bias_estimate_variance)
                    && negb (Nat.eqb bias_estimate scale_estimate_variance)
                    && negb (Nat.eqb scale_estimate bias_estimate_variance)
                    && negb (Nat.eqb scale_estimate scale_estimate_variance)
                    && negb (Nat.eqb bias_estimate_variance
                                     scale_estimate_variance)) with
      | None => None
      | Some _ =>
          let cov := state_covariance instance in
          let h := store h (bias_estimate_variance + 0) (cov (0 * 9 + 0)) in
          let h := store h (bias_estimate_variance + 1) (cov (1 * 9 + 1)) in
          let h := store h (bias_estimate_variance + 2) (cov (2 * 9 + 2)) in
          let h := store h (scale_estimate_variance + 0) (cov (3 * 9 + 3)) in
          let h := store h (scale_estimate_variance + 1) (cov (4 * 9 + 4)) in
          let h := store h (scale_estimate_variance + 2) (cov (5 * 9 + 5)) in
          let h := store h (scale_estimate_variance + 3) (cov (4 * 9 + 4)) in
          let h := store h (scale_estimate_variance + 4) (cov (6 * 9 + 6)) in
          let h := store h (scale_estimate_variance + 5) (cov (7 * 9 + 7)) in
          let h := store h (scale_estimate_variance + 6) (cov (5 * 9 + 5)) in
          let h := store h (scale_estimate_variance + 7) (cov (7 * 9 + 7)) in
          let h := store h (scale_estimate_variance + 8) (cov (8 * 9 + 8)) in
          Some h
      end
  end.

Definition TRICAL_measurement_calibrate (instance : TRICAL_instance_t F)
    (measurement calibrated_measurement : ptr) (h : heap F)
    : option (heap F) :=
  match assert (nonnull measurement && nonnull calibrated_measurement) with
  | None => None
  | Some _ =>
      Some (_trical_measurement_calibrate calibration_transform
              (state instance) measurement calibrated_measurement h)
  end.

(** *** Sequences of public operations *)

(** The program state a caller sees: the instance and the float memory
    holding its measurement and output buffers. *)
Record world : Type := mkWorld {
  w_instance : TRICAL_instance_t F;
  w_memory : heap F
}.

Inductive operation : Type :=
| Op_init
| Op_norm_set (norm : F)
| Op_norm_get
| Op_noise_set (noise : F)
| Op_noise_get
| Op_measurement_count_get
| Op_estimate_update (measurement : ptr)
| Op_estimate_get (bias_estimate scale_estimate : ptr)
| Op_estimate_get_ext (bias_estimate scale_estimate : ptr)
    (bias_estimate_variance scale_estimate_variance : ptr)
| Op_measurement_calibrate (measurement calibrated_measurement : ptr).

Definition with_instance (w : world) (r : option (TRICAL_instance_t F))
    : option world :=
  option_map (fun x => mkWorld x (w_memory w)) r.

Definition with_memory (w : world) (r : option (heap F)) : option world :=
  option_map (fun m => mkWorld (w_instance w) m) r.

(** One call; the values the getters return are dropped. *)
Definition run_operation (o : operation) (w : world) : option world :=
  let x := w_instance w in
  let h := w_memory w in
  match o with
  | Op_init => with_instance w (Some (TRICAL_init x))
  | Op_norm_set norm => with_instance w (TRICAL_norm_set x norm)
  | Op_norm_get => let _ := TRICAL_norm_get x in Some w
  | Op_noise_set noise => with_instance w (TRICAL_noise_set x noise)
  | Op_noise_get => let _ := TRICAL_noise_get x in Some w
  | Op_measurement_count_get =>
      let _ := TRICAL_measurement_count_get x in Some w
  | Op_estimate_update m => with_instance w (TRICAL_estimate_update x m h)
  | Op_estimate_get b s => with_memory w (TRICAL_estimate_get x b s h)
  | Op_estimate_get_ext b s bv sv =>
      with_memory w (TRICAL_estimate_get_ext x b s bv sv h)
  | Op_measurement_calibrate m c =>
      with_memory w (TRICAL_measurement_calibrate x m c h)
  end.


(** The argument preconditions the operations assert. *)
Definition arguments_ok (o : operation) : bool :=
  match o with
  | Op_norm_set norm => fltb fzero norm
  | Op_noise_set noise => fltb fzero noise
  | Op_estimate_update m => nonnull m
  | Op_estimate_get b s => nonnull b && nonnull s && negb (Nat.eqb b s)
  | Op_estimate_get_ext b s bv sv =>
      nonnull b && nonnull s && negb (Nat.eqb b s)
      && (nonnull bv && nonnull sv
          && negb (Nat.eqb b bv) && negb (Nat.eqb b sv)
          && negb (Nat.eqb s bv) && negb (Nat.eqb s sv)
          && negb (Nat.eqb bv sv))
  | Op_measurement_calibrate m c => nonnull m && nonnull c
  | _ => true
  end.

Definition mutating (o : operation) : bool :=
  match o with
  | Op_init | Op_norm_set _ | Op_noise_set _ | Op_estimate_update _ => true
  | _ => false
  end.

Definition read_only (o : operation) : bool :=
  match o with
  | Op_norm_get | Op_noise_get | Op_measurement_count_get
  | Op_estimate_get _ _ | Op_estimate_get_ext _ _ _ _
  | Op_measurement_calibrate _ _ => true
  | _ => false
  end.
End API.

Arguments world F : clear implicits.
Arguments operation F : clear implicits.

(** ** Vocabulary of the statements *)

(** [sumR f n] is the sum of [f p] over [p < n], added in the order of the
    code's accumulation loop. *)
Fixpoint sumR (f : nat -> R) (n : nat) : R :=
  match n with
  | O => 0%R
  | Datatypes.S m => (sumR f m + f m)%R
  end.

(** Entry (i, j) of the [n] x [n] matrix stored column-major at [base]. *)
Definition cell {F : Type} (n : nat) (base : ptr) (h : heap F) (i j : nat) : F :=
  h (base + (i + j * n)).

(** The lower-triangular matrix held in the cells on and below the diagonal;
    the cells above it, which the decomposition does not write, count as 0. *)
Definition tril (l : nat -> nat -> R) (i j : nat) : R :=
  if j <=? i then l i j else 0%R.

Definition lower (n : nat) (base : ptr) (h : heap R) : nat -> nat -> R :=
  tril (cell n base h).

Definition symmetric (n : nat) (M : nat -> nat -> R) : Prop :=
  forall i j, i < n -> j < n -> M i j = M j i.

Definition quadratic_form (n : nat) (M : nat -> nat -> R) (x : nat -> R) : R :=
  sumR (fun i => sumR (fun j => (x i * M i j * x j)%R) n) n.

Definition positive_definite (n : nat) (M : nat -> nat -> R) : Prop :=
  forall x : nat -> R,
    (exists i, i < n /\ x i <> 0%R) -> (0 < quadratic_form n M x)%R.

(** Two buffers of [n] and [m] cells that do not overlap. *)
Definition disjoint (p n q m : nat) : Prop := p + n <= q \/ q + m <= p.

(** The state index held at each of the 9 cells of the expanded symmetric
    3 x 3 matrix:
<<
    3 4 5
    4 6 7
    5 7 8
>> *)
Definition scale_index : list nat := [3; 4; 5; 4; 6; 7; 5; 7; 8].

(** The right-hand sides of the Cholesky recurrence, for a factor [l] and a
    matrix [a] scaled by [k]. *)
Definition cholesky_diag (k : R) (a l : nat -> nat -> R) (i : nat) : R :=
  sqrt (k * a i i - sumR (fun p => l i p * l i p) i)%R.

Definition cholesky_offdiag (k : R) (a l : nat -> nat -> R) (i j : nat) : R :=
  ((k * a i j - sumR (fun p => l i p * l j p) j) / l j j)%R.


(** The value the recurrence gives to entry (i, j), j <= i. *)
Definition cholesky_entry (k : R) (a l : nat -> nat -> R) (i j : nat) : R :=
  if Nat.eqb i j then cholesky_diag k a l i else cholesky_offdiag k a l i j.

(** The lower-triangle entries (a, b) the decomposition has written when it
    is about to compute entry (i, j): the rows before i, and row i up to
    column j. *)
Definition written (i j a b : nat) : Prop :=
  (a < i /\ b <= a) \/ (a = i /\ b < j).

(** The output and the input are the same buffer (as in the unit test) or do
    not overlap. *)
Definition cholesky_layout (n : nat) (L A : ptr) : Prop :=
  L = A \/ disjoint L (n * n) A (n * n).

(** The loop invariant of the decomposition: the entries written so far
    satisfy the recurrence over the input as it was at the call, and the
    input entries of the lower triangle not yet reached still hold their
    value at the call. *)
Definition cholesky_inv (n : nat) (L A : ptr) (k : R) (h0 : heap R)
    (i j : nat) (h : heap R) : Prop :=
  (forall a b, b <= a < n -> written i j a b ->
     cell n L h a b = cholesky_entry k (cell n A h0) (cell n L h) a b)
  /\ (forall a b, b <= a < n -> ~ written i j a b ->
        cell n A h a b = cell n A h0 a b).

(** Row i of the factor is done: its pivot is positive and its products with
    the rows up to itself give row i of the scaled matrix. *)
Definition row_factored (k : R) (a l : nat -> nat -> R) (i : nat) : Prop :=
  (0 < l i i)%R
  /\ forall j, j <= i ->
       sumR (fun p => (l i p * l j p)%R) (S j) = (k * a i j)%R.

(** ** 3dmath.h: the helper macros and the TI branch of the primitives *)

(** Unary minus, which only [absval] needs. *)
Class FloatNeg (F : Type) : Type := {
  fneg : F -> F
}.

#[export] Instance R_neg : FloatNeg R := {| fneg := Ropp |}.
#[export] Instance b32_neg : FloatNeg spec_float := {| fneg := SFopp |}.

Section HelperMacros.
Context {F : Type} {ops : FloatOps F} {neg : FloatNeg F}.

(** [#define absval(x) ((x) < 0 ? -x : x)], for an argument that is a single
    operand (the macro does not parenthesise [-x]). *)
Definition absval (x : F) : F := if fltb x fzero then fneg x else x.

(** [#define min(a,b) (((a) < (b)) ? (a) : (b))] *)
Definition min (a b : F) : F := if fltb a b then a else b.

(** [#define max(a,b) (((a) > (b)) ? (a) : (b))] *)
Definition max (a b : F) : F := if fltb b a then a else b.

(** [x == y] on floats: true exactly when both [x <= y] and [y <= x]. *)
Definition feqb (x y : F) : bool := fleb x y && fleb y x.
End HelperMacros.

(** The literals of the [__TI_COMPILER_VERSION__] branch, which computes in
    [double]: 0.5, 1.5, 2.0 and the largest finite double, written there as
    [_lltod(0x7FEFFFFFFFFFFFFF)] and as [1.7976931348623157E+308]. *)
Class DoubleLits (F : Type) : Type := {
  lit_0_5 : F;
  lit_1_5 : F;
  lit_2_0 : F;
  DBL_MAX : F
}.

#[export] Instance R_double_lits : DoubleLits R := {|
  lit_0_5 := (/ 2)%R;
  lit_1_5 := (3 / 2)%R;
  lit_2_0 := 2%R;
  DBL_MAX := IZR (9007199254740991 * 2 ^ 971)
|}.

Section TIBranch.
Context {F : Type} {ops : FloatOps F} {lits : DoubleLits F}.

(** The compiler intrinsics of the target, which are not part of the
    repository: the hardware estimates of 1/sqrt(a) and of 1/b. *)
Variable _rsqrdp : F -> F.
Variable _rcpdp : F -> F.

(** [static inline double sqrt_inv(double a)] *)
Definition sqrt_inv_ti (a : F) : F :=
  if fltb a fzero then DBL_MAX
  else
    let half_a := fmul a lit_0_5 in
    let x := _rsqrdp a in
    let x := fmul x (fsub lit_1_5 (fmul (fmul half_a x) x)) in
    let x := fmul x (fsub lit_1_5 (fmul (fmul half_a x) x)) in
    let x := fmul x (fsub lit_1_5 (fmul (fmul half_a x) x)) in
    x.

(** [static inline double fsqrt(double a)]; clearing bit 31 of the high word
    of [a] clears its sign, so [y] is [fabs(a)].  The two [if]s are in the
    order of the source. *)
Definition fsqrt_ti (a : F) : F :=
  let y := fabs a in
  let X0 := _rsqrdp y in
  let X1 := fmul X0 (fsub lit_1_5 (fmul (fmul (fmul y X0) X0) lit_0_5)) in
  let X2 := fmul X1 (fsub lit_1_5 (fmul (fmul (fmul y X1) X1) lit_0_5)) in
  let X4 := fmul (fmul y X2)
                 (fsub lit_1_5 (fmul (fmul (fmul y X2) X2) lit_0_5)) in
  let X4 := if fleb a fzero then fzero else X4 in
  let X4 := if fltb DBL_MAX a then DBL_MAX else X4 in
  X4.

(** [static inline double recip(double b)] *)
Definition recip_ti (b : F) : F :=
  let x := _rcpdp b in
  let x := fmul x (fsub lit_2_0 (fmul b x)) in
  let x := fmul x (fsub lit_2_0 (fmul b x)) in
  let x := fmul x (fsub lit_2_0 (fmul b x)) in
  x.

(** [static inline double divide(double a, double b)] *)
Definition divide_ti (a b : F) : F :=
  if feqb a fzero then fzero
  else
    let x := _rcpdp b in
    let x := fmul x (fsub lit_2_0 (fmul b x)) in
    let x := fmul x (fsub lit_2_0 (fmul b x)) in
    let x := fmul x (fsub lit_2_0 (fmul b x)) in
    let x := fmul x a in
    x.
End TIBranch.

(** One Newton step for 1/sqrt(a), on the residual e = 1 - a x^2: the next
    residual is e^2 (3 + e) / 4. *)
Definition rsqrt_residual_step (e : R) : R := (e * e * (3 + e) / 4)%R.

(** ** Vocabulary of the further statements *)

(** [fsum f n] adds [f 0], ..., [f (n-1)] to 0.0f in this order, as the
    accumulation loop of the decomposition does. *)
Fixpoint fsum {F : Type} {ops : FloatOps F} (f : nat -> F) (n : nat) : F :=
  match n with
  | O => fzero
  | Datatypes.S m => fadd (fsum f m) (f m)
  end.

(** The value the code stores at entry (i, j), j <= i, of the factor, from
    the entries [l] stored before it and the input [a]; column 0 has no sum
    to subtract. *)
Definition cholesky_value {F : Type} {ops : FloatOps F}
    (k : F) (a l : nat -> nat -> F) (i j : nat) : F :=
  if Nat.eqb j 0
  then if Nat.eqb i 0
       then fsqrt (fmul (a i i) k)
       else fmul (recip (l 0 0)) (fmul (a i 0) k)
  else
    let s := fsum (fun p => fmul (l i p) (l j p)) j in
    if Nat.eqb i j
    then fsqrt (fsub (fmul (a i i) k) s)
    else fmul (recip (l j j)) (fsub (fmul (a i j) k) s).

(** The loop invariant of the decomposition, for any arithmetic. *)
Definition cholesky_values_inv {F : Type} {ops : FloatOps F}
    (n : nat) (L A : ptr) (k : F) (h0 : heap F)
    (i j : nat) (h : heap F) : Prop :=
  (forall a b, b <= a < n -> written i j a b ->
     cell n L h a b = cholesky_value k (cell n A h0) (cell n L h) a b)
  /\ (forall a b, b <= a < n -> ~ written i j a b ->
        cell n A h a b = cell n A h0 a b).

(** [q] is one of the cells of the lower triangle of the matrix at [L]. *)
Definition lower_cell (n : nat) (L : ptr) (q : ptr) : Prop :=
  exists i j, j <= i < n /\ q = L + (i + j * n).

(** The 9 x 9 matrix held row-major in the covariance array. *)
Definition covariance_matrix {F : Type} (x : TRICAL_instance_t F)
    (i j : nat) : F :=
  state_covariance x (i * 9 + j).

(** Memory holding the 81 covariance cells of an instance from [base] on. *)
Definition covariance_at {F : Type} (base : ptr) (x : TRICAL_instance_t F)
    (h : heap F) : Prop :=
  forall q, q < 81 -> h (base + q) = state_covariance x q.

(** [q] lies in the buffer of [n] cells at [p]. *)
Definition in_buffer (p n q : ptr) : Prop := p <= q < p + n.

(** ** TRICAL.c with the instance in memory *)

(** The public operations take a pointer to the instance, and the getters
    write through pointers to the caller's buffers; nothing but an
    assertion on the pointers' equality keeps a buffer out of the
    instance.  Here the members of the instance are cells of the same
    memory the buffers are in.  A cell is four bytes, read as a [float];
    [float] and [unsigned int] have the same size, 32 bits. *)

(** Modelled from the spec: TRICAL.h is not under src/.  Section 3 gives
    the members of [TRICAL_instance_t]: the floats [field_norm] and
    [measurement_noise], the float arrays [state] (9 entries) and
    [state_covariance] (81 entries), and the [unsigned int] counter
    [measurement_count].  A layout gives the offset of each member from the
    instance pointer, counted in cells; the statements hold for every
    layout. *)
Record layout : Type := mkLayout {
  at_field_norm : nat;
  at_measurement_noise : nat;
  at_state : nat;
  at_state_covariance : nat;
  at_measurement_count : nat
}.

(** Two instance values with the same members. *)
Definition same_instance {F : Type} (x y : TRICAL_instance_t F) : Prop :=
  field_norm x = field_norm y
  /\ measurement_noise x = measurement_noise y
  /\ (forall i, state x i = state y i)
  /\ (forall q, state_covariance x q = state_covariance y q)
  /\ measurement_count x = measurement_count y.

(** The buffer of [n] floats at [b] has no cell in common with the
    members of the instance at [instance]. *)
Definition outside (l : layout) (instance : ptr) (b n : nat) : Prop :=
  disjoint b n (instance + at_field_norm l) 1
  /\ disjoint b n (instance + at_measurement_noise l) 1
  /\ disjoint b n (instance + at_state l) TRICAL_STATE_DIM
  /\ disjoint b n (instance + at_state_covariance l)
       (TRICAL_STATE_DIM * TRICAL_STATE_DIM)
  /\ disjoint b n (instance + at_measurement_count l) 1.

Module Resident.
Section Operations.
Context {F : Type} {ops : FloatOps F}.

Variable ukf_spread : F.
Variable ukf_w0 : F.
Variable ukf_wi : F.
Variable calibration_transform : (nat -> F) -> F * F * F -> F * F * F.
Variable l : layout.

(** How the four bytes of a cell read as an [unsigned int], and the cell
    that holds a given [unsigned int]: the representation of the two
    types is not in the source, the statements hold for every
    choice. *)
Variable uint_of_cell : F -> Z.
Variable cell_of_uint : Z -> F.

(** [&instance->state[i]] and [&instance->state_covariance[q]] *)
Definition state_cell (instance : ptr) (i : nat) : ptr :=
  instance + at_state l + i.
Definition state_covariance_cell (instance : ptr) (q : nat) : ptr :=
  instance + at_state_covariance l + q.

(** The value of the instance held at [instance]. *)
Definition load_instance (instance : ptr) (h : heap F)
    : TRICAL_instance_t F :=
  mkInstance (h (instance + at_field_norm l))
             (h (instance + at_measurement_noise l))
             (fun i => if i <? TRICAL_STATE_DIM
                       then h (state_cell instance i) else fzero)
             (fun q => if q <? TRICAL_STATE_DIM * TRICAL_STATE_DIM
                       then h (state_covariance_cell instance q)
                       else fzero)
             (uint_of_cell (h (instance + at_measurement_count l))).

(** Writing the members of an instance value back. *)
Definition store_instance (instance : ptr) (y : TRICAL_instance_t F)
    (h : heap F) : heap F :=
  let h := store h (instance + at_field_norm l) (field_norm y) in
  let h := store h (instance + at_measurement_noise l)
                 (measurement_noise y) in
  let h := memcpy_floats h (state_cell instance 0) (state y)
             TRICAL_STATE_DIM in
  let h := memcpy_floats h (state_covariance_cell instance 0)
             (state_covariance y)
             (TRICAL_STATE_DIM * TRICAL_STATE_DIM) in
  store h (instance + at_measurement_count l)
        (cell_of_uint (measurement_count y)).

(** [TRICAL_init], the two setters and [TRICAL_estimate_update] reach
    memory through the instance pointer alone (the update also reads
    its measurement): they are the functions on instance values,
    applied to the instance at [instance] and written back. *)
Definition through_instance (instance : ptr)
    (f : TRICAL_instance_t F -> option (TRICAL_instance_t F))
    (h : heap F) : option (heap F) :=
  match assert (nonnull instance) with
  | None => None
  | Some _ =>
      option_map (fun y => store_instance instance y h)
                 (f (load_instance instance h))
  end.

Definition TRICAL_norm_get (instance : ptr) (h : heap F) : option F :=
  match assert (nonnull instance) with
  | None => None
  | Some _ => Some (h (instance + at_field_norm l))
  end.

Definition TRICAL_noise_get (instance : ptr) (h : heap F) : option F :=
  match assert (nonnull instance) with
  | None => None
  | Some _ => Some (h (instance + at_measurement_noise l))
  end.

Definition TRICAL_measurement_count_get (instance : ptr) (h : heap F)
    : option Z :=
  match assert (nonnull instance) with
  | None => None
  | Some _ => Some (uint_of_cell (h (instance + at_measurement_count l)))
  end.

(** [dst[..] = instance->member[..]]: one float read from memory as it
    is now and written to [dst]. *)
Definition copy_cell (h : heap F) (dst src : ptr) : heap F :=
  store h dst (h src).

(** [memcpy] from memory to memory; the source is read as it was at
    the call, which is what [memcpy] does when the two regions do not
    overlap, the only case it is defined for. *)
Definition memcpy (h : heap F) (dst src : ptr) (n : nat) : heap F :=
  memcpy_floats h dst (fun i => h (src + i)) n.

Definition TRICAL_estimate_get (instance : ptr)
    (bias_estimate scale_estimate : ptr) (h : heap F)
    : option (heap F) :=
  match assert (nonnull instance
                && (nonnull bias_estimate && nonnull scale_estimate
                    && negb (Nat.eqb bias_estimate scale_estimate))) with
  | None => None
  | Some _ =>
      let st := state_cell instance in
      let h := memcpy h bias_estimate (st 0) 3 in
      let h := copy_cell h (scale_estimate + 0) (st 3) in
      let h := copy_cell h (scale_estimate + 1) (st 4) in
      let h := copy_cell h (scale_estimate + 2) (st 5) in
      let h := copy_cell h (scale_estimate + 3) (st 4) in
      let h := copy_cell h (scale_estimate + 4) (st 6) in
      let h := copy_cell h (scale_estimate + 5) (st 7) in
      let h := copy_cell h (scale_estimate + 6) (st 5) in
      let h := copy_cell h (scale_estimate + 7) (st 7) in
      let h := copy_cell h (scale_estimate + 8) (st 8) in
      Some h
  end.

Definition TRICAL_estimate_get_ext (instance : ptr)
    (bias_estimate scale_estimate : ptr)
    (bias_estimate_variance scale_estimate_variance : ptr) (h : heap F)
    : option (heap F) :=
  match TRICAL_estimate_get instance bias_estimate scale_estimate h with
  | None => None
  | Some h =>
      match assert (nonnull bias_estimate_variance
                    && nonnull scale_estimate_variance
                    && negb (Nat.eqb bias_estimate bias_estimate_variance)
                    && negb (Nat.eqb bias_estimate
                                     scale_estimate_variance)
                    && negb (Nat.eqb scale_estimate
                                     bias_estimate_variance)
                    && negb (Nat.eqb scale_estimate
                                     scale_estimate_variance)
                    && negb (Nat.eqb bias_estimate_variance
                                     scale_estimate_variance)) with
      | None => None
      | Some _ =>
          let cov := state_covariance_cell instance in
          let h := copy_cell h (bias_estimate_variance + 0)
                             (cov (0 * 9 + 0)) in
          let h := copy_cell h (bias_estimate_variance + 1)
                             (cov (1 * 9 + 1)) in
          let h := copy_cell h (bias_estimate_variance + 2)
                             (cov (2 * 9 + 2)) in
          let h := copy_cell h (scale_estimate_variance + 0)
                             (cov (3 * 9 + 3)) in
          let h := copy_cell h (scale_estimate_variance + 1)
                             (cov (4 * 9 + 4)) in
          let h := copy_cell h (scale_estimate_variance + 2)
                             (cov (5 * 9 + 5)) in
          let h := copy_cell h (scale_estimate_variance + 3)
                             (cov (4 * 9 + 4)) in
          let h := copy_cell h (scale_estimate_variance + 4)
                             (cov (6 * 9 + 6)) in
          let h := copy_cell h (scale_estimate_variance + 5)
                             (cov (7 * 9 + 7)) in
          let h := copy_cell h (scale_estimate_variance + 6)
                             (cov (5 * 9 + 5)) in
          let h := copy_cell h (scale_estimate_variance + 7)
                             (cov (7 * 9 + 7)) in
          let h := copy_cell h (scale_estimate_variance + 8)
                             (cov (8 * 9 + 8)) in
          Some h
      end
  end.

(** [_trical_measurement_calibrate(instance->state, measurement,
    calibrated_measurement)]: the callee gets the address of the state
    array and reads the state from memory. *)
Definition TRICAL_measurement_calibrate (instance : ptr)
    (measurement calibrated_measurement : ptr) (h : heap F)
    : option (heap F) :=
  match assert (nonnull instance
                && (nonnull measurement
                    && nonnull calibrated_measurement)) with
  | None => None
  | Some _ =>
      Some (_trical_measurement_calibrate calibration_transform
              (fun k => h (state_cell instance k))
              measurement calibrated_measurement h)
  end.

(** One call on the instance at [instance]; the values the getters
    return are dropped. *)
Definition run_operation (instance : ptr) (o : operation F)
    (h : heap F) : option (heap F) :=
  match o with
  | Op_init =>
      through_instance instance (fun x => Some (TRICAL_init x)) h
  | Op_norm_set norm =>
      through_instance instance (fun x => TRICAL_norm_set x norm) h
  | Op_norm_get => option_map (fun _ => h) (TRICAL_norm_get instance h)
  | Op_noise_set noise =>
      through_instance instance (fun x => TRICAL_noise_set x noise) h
  | Op_noise_get => option_map (fun _ => h) (TRICAL_noise_get instance h)
  | Op_measurement_count_get =>
      option_map (fun _ => h) (TRICAL_measurement_count_get instance h)
  | Op_estimate_update measurement =>
      through_instance instance
        (fun x => TRICAL_estimate_update ukf_spread ukf_w0 ukf_wi
                    calibration_transform x measurement h) h
  | Op_estimate_get b s => TRICAL_estimate_get instance b s h
  | Op_estimate_get_ext b s bv sv =>
      TRICAL_estimate_get_ext instance b s bv sv h
  | Op_measurement_calibrate measurement c =>
      TRICAL_measurement_calibrate instance measurement c h
  end.

(** The output buffers of a call lie outside the instance. *)
Definition buffers_outside (instance : ptr) (o : operation F) : Prop :=
  match o with
  | Op_estimate_get b s =>
      outside l instance b 3 /\ outside l instance s 9
  | Op_estimate_get_ext b s bv sv =>
      outside l instance b 3 /\ outside l instance s 9
      /\ outside l instance bv 3 /\ outside l instance sv 9
  | Op_measurement_calibrate _ c => outside l instance c 3
  | _ => True
  end.
End Operations.
End Resident.

(** ** 3dmath.h: [absval] and the shape of its argument *)

(** A macro takes the tokens of its argument, not its value.  [absval(x)]
    expands to [((x) < 0 ? -x : x)]: the comparison parenthesises the
    argument, the unary minus does not, so in [-x] the minus applies to
    what follows it by the precedence of C.  The arguments modelled are the
    arithmetic expressions of the C grammar, without casts:
<<
    unary          ::= operand | - unary
    multiplicative ::= unary | multiplicative * unary
                             | multiplicative / unary
    additive       ::= multiplicative | additive + multiplicative
                                      | additive - multiplicative
>>
    where an operand is an identifier, a constant or a parenthesised
    expression, given by its value. *)
Inductive unary_expr (F : Type) : Type :=
| Operand (v : F)
| Minus (e : unary_expr F).

Inductive mul_op : Type := Times | Over.

Inductive multiplicative_expr (F : Type) : Type :=
| Unary (e : unary_expr F)
| Mul (op : mul_op) (a : multiplicative_expr F) (b : unary_expr F).

Inductive add_op : Type := Plus | Less.

Inductive additive_expr (F : Type) : Type :=
| Multiplicative (e : multiplicative_expr F)
| Add (op : add_op) (a : additive_expr F) (b : multiplicative_expr F).

Section MacroArguments.
Context {F : Type} {ops : FloatOps F} {neg : FloatNeg F}.

Fixpoint eval_unary (e : unary_expr F) : F :=
  match e with
  | Operand v => v
  | Minus e' => fneg (eval_unary e')
  end.

Fixpoint eval_multiplicative (e : multiplicative_expr F) : F :=
  match e with
  | Unary u => eval_unary u
  | Mul Times a b => fmul (eval_multiplicative a) (eval_unary b)
  | Mul Over a b => fdiv (eval_multiplicative a) (eval_unary b)
  end.

Fixpoint eval_additive (e : additive_expr F) : F :=
  match e with
  | Multiplicative m => eval_multiplicative m
  | Add Plus a b => fadd (eval_additive a) (eval_multiplicative b)
  | Add Less a b => fsub (eval_additive a) (eval_multiplicative b)
  end.

(** The expression that the tokens [-] followed by the tokens of [e]
    parse to: the minus lands on the first unary expression of [e]. *)
Fixpoint minus_before_multiplicative (e : multiplicative_expr F)
    : multiplicative_expr F :=
  match e with
  | Unary u => Unary (Minus u)
  | Mul op a b => Mul op (minus_before_multiplicative a) b
  end.

Fixpoint minus_before (e : additive_expr F) : additive_expr F :=
  match e with
  | Multiplicative m => Multiplicative (minus_before_multiplicative m)
  | Add op a b => Add op (minus_before a) b
  end.

(** [absval(x)] for the argument tokens [x]:
    [((x) < 0 ? -x : x)]. *)
Definition absval_expansion (x : additive_expr F) : F :=
  if fltb (eval_additive x) fzero
  then eval_additive (minus_before x)
  else eval_additive x.

(** The first term of a sum or difference. *)
Fixpoint leading_term (e : additive_expr F) : F :=
  match e with
  | Multiplicative m => eval_multiplicative m
  | Add _ a _ => leading_term a
  end.

(** The argument [a - b] of two operands. *)
Definition difference (a b : F) : additive_expr F :=
  Add Less (Multiplicative (Unary (Operand a))) (Unary (Operand b)).
End MacroArguments.

(** ** Concrete inputs *)

Module Examples.
(** A binary32 instance in use: norm 2, noise 1/2, a state and a
    covariance that are not the defaults, 7 measurements taken. *)
Definition used_b32 : TRICAL_instance_t spec_float :=
  mkInstance (B32.of_Z 2)
             (SFdiv B32.prec B32.emax (B32.of_Z 1) (B32.of_Z 2))
             (fun i => B32.of_Z (Z.of_nat i + 1))
             (fun q => if Nat.eqb (q / 9) (q mod 9) then B32.of_Z 3
                       else B32.of_Z 1)
             7%Z.

(** A real instance in use: norm 1, bias (1, 1, 1), scale entries 1/2,
    identity covariance, 7 measurements taken. *)
Definition used_R : TRICAL_instance_t R :=
  mkInstance 1%R (/ 1000)%R
             (fun i => if i <? 3 then 1%R else (/ 2)%R)
             (fun q => if Nat.eqb (q / 9) (q mod 9) then 1%R else 0%R)
             7%Z.


(** Memory with the raw measurement (1, 0, 0) at address 1, zero
    elsewhere. *)
Definition raw_memory : heap spec_float :=
  fun q => if Nat.eqb q 1 then B32.of_Z 1 else S754_zero false.

Definition fresh_b32 : TRICAL_instance_t spec_float :=
  TRICAL_init (@instance_zero spec_float b32_ops).

(** Real memory holding the 2 x 2 matrix ((2, 1), (1, 2)) in cells 1..4. *)
Definition spd2_memory : heap R :=
  fun q => match q with
           | 1 => 2%R | 2 => 1%R | 3 => 1%R | 4 => 2%R
           | _ => 0%R
           end.
End Examples.

Module MoreExamples.
(** Binary32 memory holding the 2 x 2 matrix ((-1, 1), (1, 1)) in cells
    1..4, 1.0f elsewhere. *)
Definition negative_memory : heap spec_float :=
  fun q => if Nat.eqb q 1 then B32.of_Z (-1) else B32.of_Z 1.

(** Real memory holding the 2 x 2 diagonal matrix diag(4, 9) in cells
    1..4. *)
Definition diag2_memory : heap R :=
  fun q => match q with
           | 1 => 4%R | 4 => 9%R
           | _ => 0%R
           end.

(** Real memory holding the covariance of a freshly initialised instance
    in cells 1..81. *)
Definition fresh_R : TRICAL_instance_t R :=
  TRICAL_init (@instance_zero R R_ops).

Definition fresh_covariance_memory : heap R :=
  fun q => if (1 <=? q) && (q <=? 81) then state_covariance fresh_R (q - 1)
           else 0%R.

(** Hardware estimates for the TI branch that are 1% high at the inputs
    used below: 1/2 = 1/b at b = 2 and 1/2 = 1/sqrt(a) at a = 4. *)
Definition rcp_estimate (b : R) : R := (101 / 200)%R.
Definition rsqrt_estimate (a : R) : R := (101 / 200)%R.
End MoreExamples.

Module EdgeExamples.


(** The binary32 numbers 2^63 and 2^64. *)
Definition two_63_b32 : spec_float := B32.of_Z (2 ^ 63).
Definition two_64_b32 : spec_float := B32.of_Z (2 ^ 64).
End EdgeExamples.

Module UnscentedExamples.
(** Unscented-transform constants at binary32 for the dimension n = 9 with
    n + lambda = 1, that is lambda = -8: the covariance is spread by
    n + lambda = 1, the central weight is lambda / (n + lambda) = -8 and
    the 18 symmetric weights are 1 / (2 (n + lambda)) = 1/2; the weights
    add up to 1. *)
Definition spread : spec_float := B32.of_Z 1.
Definition w0 : spec_float := B32.of_Z (-8).
Definition wi : spec_float :=
  SFdiv B32.prec B32.emax (B32.of_Z 1) (B32.of_Z 2).

(** A calibration transform with bias and symmetric scale correction:
    (I + D) (raw - bias), D the symmetric matrix of the state entries
    3 to 8. *)
Definition calibrate (st : nat -> spec_float)
    (raw : spec_float * spec_float * spec_float)
    : spec_float * spec_float * spec_float :=
  let '(x, y, z) := raw in
  let dx := fsub x (st 0) in
  let dy := fsub y (st 1) in
  let dz := fsub z (st 2) in
  (fadd (fadd (fmul (fadd fone (st 3)) dx) (fmul (st 4) dy))
        (fmul (st 5) dz),
   fadd (fadd (fmul (st 4) dx) (fmul (fadd fone (st 6)) dy))
        (fmul (st 7) dz),
   fadd (fadd (fmul (st 5) dx) (fmul (st 7) dy))
        (fmul (fadd fone (st 8)) dz)).

(** Memory with the raw measurement (1/16, 0, 0) at address 1, zero
    elsewhere. *)
Definition raw_memory : heap spec_float :=
  fun q => if Nat.eqb q 1
           then SFdiv B32.prec B32.emax (B32.of_Z 1) (B32.of_Z 16)
           else S754_zero false.
End UnscentedExamples.

Module ResidentExamples.
(** A layout: [field_norm] at offset 0, [measurement_noise] at 1,
    [state] at 2 to 10, [state_covariance] at 11 to 91 and
    [measurement_count] at 92. *)
Definition members : layout := mkLayout 0 1 2 11 92.

(** The IEEE-754 binary32 encoding: the bits of a float as an unsigned
    int, and the float with given bits. *)
Definition bits_of_b32 (v : spec_float) : Z :=
  let sign (s : bool) := if s then (2 ^ 31)%Z else 0%Z in
  match v with
  | S754_zero s => sign s
  | S754_infinity s => (sign s + 255 * 2 ^ 23)%Z
  | S754_nan => (255 * 2 ^ 23 + 2 ^ 22)%Z
  | S754_finite s m e =>
      if (Zpos m <? 2 ^ 23)%Z
      then (sign s + Zpos m)%Z
      else (sign s + (e + 150) * 2 ^ 23 + (Zpos m - 2 ^ 23))%Z
  end.

Definition b32_of_bits (z : Z) : spec_float :=
  let s := Z.testbit z 31 in
  let exponent := Z.land (Z.shiftr z 23) 255 in
  let fraction := Z.land z (2 ^ 23 - 1) in
  if (exponent =? 0)%Z
  then match fraction with
       | Zpos m => S754_finite s m (-149)
       | _ => S754_zero s
       end
  else if (exponent =? 255)%Z
       then if (fraction =? 0)%Z then S754_infinity s else S754_nan
       else match (fraction + 2 ^ 23)%Z with
            | Zpos m => S754_finite s m (exponent - 150)
            | _ => S754_nan
            end.

(** Binary32 memory with the instance [Examples.used_b32] at address 1,
    in cells 1 to 93, and zero elsewhere. *)
Definition in_use : heap spec_float :=
  Resident.store_instance members b32_of_bits 1 Examples.used_b32
    (fun _ => S754_zero false).

Definition run :=
  @Resident.run_operation spec_float b32_ops UnscentedExamples.spread
    UnscentedExamples.w0 UnscentedExamples.wi UnscentedExamples.calibrate
    members bits_of_b32 b32_of_bits.

Definition load :=
  @Resident.load_instance spec_float b32_ops members bits_of_b32.
End ResidentExamples.

(** * Proofs *)

(** ** The instances *)

Lemma Rltb_true (x y : R) : (x < y)%R -> Rltb x y = true.
Proof.
  intros H; unfold Rltb; destruct (Rlt_dec x y); [reflexivity | contradiction].
Qed.

Lemma Rltb_false (x y : R) : (y <= x)%R -> Rltb x y = false.
Proof.
  intros H; unfold Rltb; destruct (Rlt_dec x y); [lra | reflexivity].
Qed.

Lemma Rltb_lt (x y : R) : Rltb x y = true -> (x < y)%R.
Proof. unfold Rltb; destruct (Rlt_dec x y); [trivial | discriminate]. Qed.

Lemma Rltb_ge (x y : R) : Rltb x y = false -> (y <= x)%R.
Proof. unfold Rltb; destruct (Rlt_dec x y); [discriminate | lra]. Qed.

Lemma Rleb_true (x y : R) : (x <= y)%R -> Rleb x y = true.
Proof.
  intros H; unfold Rleb; destruct (Rle_dec x y); [reflexivity | contradiction].
Qed.

#[export] Instance R_laws : FloatLaws R.
Proof.
  split; simpl; apply Rltb_true; lra.
Qed.

#[export] Instance b32_laws : FloatLaws spec_float.
Proof.
  split; reflexivity.
Qed.

(** ** Loops *)

Section LoopFacts.
Context {S : Type}.
Variable body : nat -> S -> S.

(** Fuel beyond [hi - i] changes nothing: the loop stops on its
    condition. *)
Lemma for_step_fuel_irrelevant (step hi : nat) :
  0 < step ->
  forall d fuel i s,
    hi - i <= d -> d <= fuel ->
    for_step fuel i hi step body s = for_step d i hi step body s.
Proof.
  intros Hstep d.
  induction d as [|d IH]; intros fuel i s Hd Hfuel.
  - destruct fuel as [|fuel]; simpl; [reflexivity|].
    destruct (Nat.ltb_spec i hi); [lia | reflexivity].
  - destruct fuel as [|fuel]; [lia|].
    simpl. destruct (Nat.ltb_spec i hi) as [Hlt|Hge]; [|reflexivity].
    apply IH; lia.
Qed.

Lemma for_step_fuel (step hi : nat) :
  0 < step ->
  forall fuel i s,
    hi - i <= fuel ->
    for_step fuel i hi step body s = for_loop i hi step body s.
Proof.
  intros Hstep fuel i s Hfuel. unfold for_loop.
  apply for_step_fuel_irrelevant; [exact Hstep | lia | exact Hfuel].
Qed.

(** The invariant rule: the loop ends at some index [k >= hi]. *)
Lemma for_step_invariant (P : nat -> S -> Prop) (step hi : nat) :
  0 < step ->
  (forall k s, k < hi -> P k s -> P (k + step) (body k s)) ->
  forall fuel i s,
    hi - i <= fuel -> P i s ->
    exists k, hi <= k /\ P k (for_step fuel i hi step body s).
Proof.
  intros Hstep Hbody fuel.
  induction fuel as [|fuel IH]; intros i s Hfuel Hinit.
  - exists i. split; [lia | exact Hinit].
  - simpl. destruct (Nat.ltb_spec i hi) as [Hlt|Hge].
    + apply IH; [lia | apply Hbody; assumption].
    + exists i. split; assumption.
Qed.

(** Unit stride: the loop ends exactly at [hi]. *)
Lemma for_loop_invariant (P : nat -> S -> Prop) (lo hi : nat) (s : S) :
  lo <= hi ->
  P lo s ->
  (forall k s, lo <= k < hi -> P k s -> P (k + 1) (body k s)) ->
  P hi (for_loop lo hi 1 body s).
Proof.
  intros Hle Hinit Hbody.
  destruct (@for_step_invariant (fun k s => lo <= k <= hi /\ P k s) 1 hi)
    with (fuel := hi - lo) (i := lo) (s := s) as (k & Hk & Hrange & HP).
  - lia.
  - intros k s' Hk (Hr & HP). split; [lia | apply Hbody; [lia | exact HP]].
  - lia.
  - split; [lia | exact Hinit].
  - replace hi with k at 1 by lia. exact HP.
Qed.
End LoopFacts.

(** ** Memory *)

Section MemoryFacts.
Context {F : Type}.

Lemma store_same (h : heap F) (p : ptr) (v : F) : store h p v p = v.
Proof. unfold store. rewrite Nat.eqb_refl. reflexivity. Qed.

Lemma store_other (h : heap F) (p q : ptr) (v : F) :
  q <> p -> store h p v q = h q.
Proof.
  intros H. unfold store. destruct (Nat.eqb_spec q p); [contradiction | reflexivity].
Qed.

Lemma upd_same (a : nat -> F) (i : nat) (v : F) : upd a i v i = v.
Proof. unfold upd. rewrite Nat.eqb_refl. reflexivity. Qed.

Lemma upd_other (a : nat -> F) (i k : nat) (v : F) :
  k <> i -> upd a i v k = a k.
Proof.
  intros H. unfold upd. destruct (Nat.eqb_spec k i); [contradiction | reflexivity].
Qed.

Lemma nonnull_true (p : ptr) : p <> NULL -> nonnull p = true.
Proof.
  intros H. unfold nonnull. destruct (Nat.eqb_spec p NULL); [contradiction | reflexivity].
Qed.
End MemoryFacts.

(** ** TRICAL_init *)

Section InitFacts.
Context {F : Type} {ops : FloatOps F} {laws : FloatLaws F}.

(** C3.  After [TRICAL_init], whatever the instance held before, the 9
    state entries are zero, the field norm is 1.0f, the measurement noise
    is 1e-6f, the 9 x 9 covariance has the positive constant 1e-2f on its
    diagonal and zero elsewhere, and the measurement count is zero. *)
Theorem TRICAL_init_defaults (instance : TRICAL_instance_t F) :
  let x := TRICAL_init instance in
  (forall i, i < 9 -> state x i = fzero)
  /\ field_norm x = fone
  /\ measurement_noise x = lit_1em6
  /\ (forall i j, i < 9 -> j < 9 ->
        state_covariance x (i * 9 + j)
        = if Nat.eqb i j then lit_1em2 else fzero)
  /\ fltb fzero lit_1em2 = true
  /\ measurement_count x = 0%Z.
Proof.
  repeat split; try reflexivity.
  - intros i j Hi Hj.
    do 9 (destruct i as [|i];
          [do 9 (destruct j as [|j]; [reflexivity|]); lia|]).
    lia.
  - apply lit_1em2_pos.
Qed.
End InitFacts.

Lemma TRICAL_init_defaults_witness :
  let x := TRICAL_init Examples.used_b32 in
  (forall i, i < 9 -> state x i = S754_zero false)
  /\ field_norm x = B32.of_Z 1
  /\ measurement_noise x = S754_finite false 8796093 (-43)
  /\ (forall i j, i < 9 -> j < 9 ->
        state_covariance x (i * 9 + j)
        = if Nat.eqb i j then S754_finite false 10737418 (-30)
          else S754_zero false)
  /\ SFltb (S754_zero false) (S754_finite false 10737418 (-30)) = true
  /\ measurement_count x = 0%Z.
Proof.
  exact (@TRICAL_init_defaults spec_float b32_ops b32_laws Examples.used_b32).
Defined.

(** ** TRICAL_norm_set *)

Section NormSetFacts.
Context {F : Type} {ops : FloatOps F}.

(** The two rescaling loops, cell by cell. *)
Lemma rescale_state_loop (c : F) (n : nat) (x y : TRICAL_instance_t F) :
  y = for_loop 0 n 1
        (fun i x => set_state (upd (state x) i (fmul (state x i) c)) x) x ->
  field_norm y = field_norm x
  /\ measurement_noise y = measurement_noise x
  /\ state_covariance y = state_covariance x
  /\ measurement_count y = measurement_count x
  /\ forall k, state y k = if k <? n then fmul (state x k) c else state x k.
Proof.
  intros ->.
  apply for_loop_invariant with
    (P := fun m y =>
            field_norm y = field_norm x
            /\ measurement_noise y = measurement_noise x
            /\ state_covariance y = state_covariance x
            /\ measurement_count y = measurement_count x
            /\ forall k, state y k
                         = if k <? m then fmul (state x k) c else state x k).
  - lia.
  - repeat split; reflexivity.
  - intros m y Hm (Hn & Hs & Hc & Hk & Hst). simpl.
    repeat split; try assumption.
    intros k. unfold upd.
    destruct (Nat.eqb_spec k m) as [->|Hne].
    + rewrite Hst.
      destruct (Nat.ltb_spec m m); [lia|].
      destruct (Nat.ltb_spec m (m + 1)); [reflexivity | lia].
    + rewrite Hst.
      destruct (Nat.ltb_spec k m); destruct (Nat.ltb_spec k (m + 1));
        try reflexivity; lia.
Qed.

Lemma rescale_covariance_loop (c : F) (n : nat) (x y : TRICAL_instance_t F) :
  y = for_loop 0 n 1
        (fun i x =>
           set_state_covariance
             (upd (state_covariance x) i
                  (fmul (state_covariance x i) c)) x) x ->
  field_norm y = field_norm x
  /\ measurement_noise y = measurement_noise x
  /\ state y = state x
  /\ measurement_count y = measurement_count x
  /\ forall k, state_covariance y k
               = if k <? n then fmul (state_covariance x k) c
                 else state_covariance x k.
Proof.
  intros ->.
  apply for_loop_invariant with
    (P := fun m y =>
            field_norm y = field_norm x
            /\ measurement_noise y = measurement_noise x
            /\ state y = state x
            /\ measurement_count y = measurement_count x
            /\ forall k, state_covariance y k
                         = if k <? m then fmul (state_covariance x k) c
                           else state_covariance x k).
  - lia.
  - repeat split; reflexivity.
  - intros m y Hm (Hn & Hs & Hc & Hk & Hst). simpl.
    repeat split; try assumption.
    intros k. unfold upd.
    destruct (Nat.eqb_spec k m) as [->|Hne].
    + rewrite Hst.
      destruct (Nat.ltb_spec m m); [lia|].
      destruct (Nat.ltb_spec m (m + 1)); [reflexivity | lia].
    + rewrite Hst.
      destruct (Nat.ltb_spec k m); destruct (Nat.ltb_spec k (m + 1));
        try reflexivity; lia.
Qed.

(** What a call that passes the assertion and the epsilon test does. *)
Lemma TRICAL_norm_set_rescales (x : TRICAL_instance_t F) (norm : F) :
  fltb fzero norm = true ->
  fltb (fabs (fsub norm (field_norm x))) FLT_EPSILON = false ->
  exists y,
    TRICAL_norm_set x norm = Some y
    /\ field_norm y = norm
    /\ measurement_noise y = measurement_noise x
    /\ measurement_count y = measurement_count x
    /\ (forall k, state y k
                  = if k <? 9 then fmul (state x k) (fdiv norm (field_norm x))
                    else state x k)
    /\ (forall k, state_covariance y k
                  = if k <? 81
                    then fmul (state_covariance x k)
                              (fdiv (fmul norm norm)
                                    (fmul (field_norm x) (field_norm x)))
                    else state_covariance x k).
Proof.
  intros Hpos Heps. unfold TRICAL_norm_set. rewrite Hpos, Heps. simpl assert.
  cbv iota.
  match goal with
  | |- context [for_loop 0 TRICAL_STATE_DIM 1 ?f x] =>
      generalize (@rescale_state_loop _ _ _ (for_loop 0 TRICAL_STATE_DIM 1 f x)
                    eq_refl);
      generalize (for_loop 0 TRICAL_STATE_DIM 1 f x)
  end.
  intros x1 (Hn1 & Hs1 & Hc1 & Hk1 & Hst1).
  match goal with
  | |- context [for_loop 0 ?n 1 ?f x1] =>
      generalize (@rescale_covariance_loop _ _ _ (for_loop 0 n 1 f x1) eq_refl);
      generalize (for_loop 0 n 1 f x1)
  end.
  intros x2 (Hn2 & Hs2 & Hc2 & Hk2 & Hst2).
  exists (set_field_norm norm x2). split; [reflexivity|].
  simpl. repeat split.
  - congruence.
  - congruence.
  - intros k. rewrite Hc2. apply Hst1.
  - intros k. rewrite Hst2, Hc1, Hn1. reflexivity.
Qed.

(** What a call that passes the assertion and meets the epsilon test
    does: nothing. *)
Lemma TRICAL_norm_set_returns_early (x : TRICAL_instance_t F) (norm : F) :
  fltb fzero norm = true ->
  fltb (fabs (fsub norm (field_norm x))) FLT_EPSILON = true ->
  TRICAL_norm_set x norm = Some x.
Proof.
  intros Hpos Heps. unfold TRICAL_norm_set. rewrite Hpos, Heps. reflexivity.
Qed.

(** C7.  When the requested norm is positive and within FLT_EPSILON of
    the current one, [TRICAL_norm_set] returns with the instance as it
    was: state, covariance, field norm, measurement noise and measurement
    count are unchanged. *)
Theorem TRICAL_norm_set_within_epsilon (x : TRICAL_instance_t F) (norm : F) :
  fltb fzero norm = true ->
  fltb (fabs (fsub norm (field_norm x))) FLT_EPSILON = true ->
  exists y,
    TRICAL_norm_set x norm = Some y
    /\ state y = state x
    /\ state_covariance y = state_covariance x
    /\ field_norm y = field_norm x
    /\ measurement_noise y = measurement_noise x
    /\ measurement_count y = measurement_count x.
Proof.
  intros Hpos Heps. exists x.
  split; [apply TRICAL_norm_set_returns_early; assumption|].
  repeat split.
Qed.
End NormSetFacts.

(** The current norm of a binary32 instance is within epsilon of itself. *)
Lemma TRICAL_norm_set_within_epsilon_witness :
  let x := Examples.used_b32 in
  let norm := field_norm Examples.used_b32 in
  (fltb fzero norm = true
   /\ fltb (fabs (fsub norm (field_norm x))) FLT_EPSILON = true)
  /\ exists y,
       TRICAL_norm_set x norm = Some y
       /\ state y = state x
       /\ state_covariance y = state_covariance x
       /\ field_norm y = field_norm x
       /\ measurement_noise y = measurement_noise x
       /\ measurement_count y = measurement_count x.
Proof.
  split; [split; vm_compute; reflexivity|].
  apply (@TRICAL_norm_set_within_epsilon spec_float b32_ops
           Examples.used_b32 (field_norm Examples.used_b32)).
  - vm_compute. reflexivity.
  - vm_compute. reflexivity.
Defined.

(** *** Over real arithmetic *)

Section NormSetReal.
Open Scope R_scope.

Lemma R_epsilon_test_false (n f0 : R) :
  FLT_EPSILON <= Rabs (n - f0) ->
  fltb (fabs (fsub n f0)) FLT_EPSILON = false.
Proof. intros H. simpl. apply Rltb_false. exact H. Qed.

Lemma R_epsilon_test_true (n f0 : R) :
  Rabs (n - f0) < FLT_EPSILON ->
  fltb (fabs (fsub n f0)) FLT_EPSILON = true.
Proof. intros H. simpl. apply Rltb_true. exact H. Qed.

Lemma squared_ratio (n f0 : R) :
  f0 <> 0 -> (n * n) / (f0 * f0) = (n / f0) ^ 2.
Proof. intros H. field. exact H. Qed.

(** C2, as the code has it.  In the arithmetic of the program, whatever
    it is: for a norm n > 0 that fails the test |n - f0| < FLT_EPSILON
    against the current field norm f0, [TRICAL_norm_set] multiplies every
    entry of the state -- the bias entries 0 to 2 and the scale entries 3
    to 8 alike -- by the quotient n / f0, multiplies every entry of the
    covariance by the quotient (n * n) / (f0 * f0), each computed once in
    that arithmetic, sets the field norm to n, and leaves the measurement
    noise and the measurement count alone.  Over real arithmetic, for
    f0 > 0, the factor of the covariance is the squared ratio
    (n / f0)^2. *)
Theorem TRICAL_norm_set_rescales_state_and_covariance :
  (forall (F : Type) (ops : FloatOps F) (x : TRICAL_instance_t F) (n : F),
     fltb fzero n = true ->
     fltb (fabs (fsub n (field_norm x))) FLT_EPSILON = false ->
     exists y,
       TRICAL_norm_set x n = Some y
       /\ (forall i, (i < 9)%nat ->
             state y i = fmul (state x i) (fdiv n (field_norm x)))
       /\ (forall q, (q < 81)%nat ->
             state_covariance y q
             = fmul (state_covariance x q)
                    (fdiv (fmul n n) (fmul (field_norm x) (field_norm x))))
       /\ field_norm y = n
       /\ measurement_noise y = measurement_noise x
       /\ measurement_count y = measurement_count x)
  /\ (forall (x : TRICAL_instance_t R) (n : R),
        0 < field_norm x ->
        0 < n ->
        FLT_EPSILON <= Rabs (n - field_norm x) ->
        exists y,
          TRICAL_norm_set x n = Some y
          /\ (forall i, (i < 9)%nat ->
                state y i = state x i * (n / field_norm x))
          /\ (forall q, (q < 81)%nat ->
                state_covariance y q
                = state_covariance x q * (n / field_norm x) ^ 2)
          /\ field_norm y = n
          /\ measurement_noise y = measurement_noise x
          /\ measurement_count y = measurement_count x).
Proof.
  split.
  - intros F ops x n Hpos Heps.
    destruct (@TRICAL_norm_set_rescales F ops x n Hpos Heps)
      as (y & Hy & Hfn & Hnoise & Hcount & Hst & Hcov).
    exists y. split; [exact Hy|]. repeat split; try assumption.
    + intros i Hi. rewrite Hst.
      destruct (Nat.ltb_spec i 9); [reflexivity | lia].
    + intros q Hq. rewrite Hcov.
      destruct (Nat.ltb_spec q 81); [reflexivity | lia].
  - intros x n Hf0 Hn Heps.
    destruct (@TRICAL_norm_set_rescales R R_ops x n)
      as (y & Hy & Hfn & Hnoise & Hcount & Hst & Hcov).
    + simpl. apply Rltb_true. exact Hn.
    + apply R_epsilon_test_false. exact Heps.
    + exists y. split; [exact Hy|]. repeat split; try assumption.
      * intros i Hi. rewrite Hst.
        destruct (Nat.ltb_spec i 9); [reflexivity | lia].
      * intros q Hq. rewrite Hcov.
        destruct (Nat.ltb_spec q 81); [|lia].
        simpl fmul. simpl fdiv. rewrite squared_ratio by lra. reflexivity.
Qed.

(** In particular, setting the norm it already has leaves an instance as
    it is. *)
Lemma TRICAL_norm_set_same_norm (x : TRICAL_instance_t R) :
  0 < field_norm x -> TRICAL_norm_set x (field_norm x) = Some x.
Proof.
  intros Hf0. apply TRICAL_norm_set_returns_early.
  - simpl. apply Rltb_true. exact Hf0.
  - apply R_epsilon_test_true.
    replace (field_norm x - field_norm x) with 0 by ring.
    rewrite Rabs_R0. simpl. lra.
Qed.



End NormSetReal.

Lemma Examples_used_R_far_from_2 :
  (0 < field_norm Examples.used_R)%R /\ (0 < 2)%R
  /\ (FLT_EPSILON <= Rabs (2 - field_norm Examples.used_R))%R.
Proof.
  simpl. replace (2 - 1)%R with 1%R by ring. rewrite Rabs_R1.
  repeat split; lra.
Qed.

Lemma TRICAL_norm_set_rescales_state_and_covariance_witness :
  (let x := Examples.used_b32 in
   let n := B32.of_Z 3 in
   (fltb fzero n = true
    /\ fltb (fabs (fsub n (field_norm x))) FLT_EPSILON = false)
   /\ exists y,
        TRICAL_norm_set x n = Some y
        /\ (forall i, i < 9 ->
              state y i = fmul (state x i) (fdiv n (field_norm x)))
        /\ (forall q, q < 81 ->
              state_covariance y q
              = fmul (state_covariance x q)
                     (fdiv (fmul n n) (fmul (field_norm x) (field_norm x))))
        /\ field_norm y = n
        /\ measurement_noise y = measurement_noise x
        /\ measurement_count y = measurement_count x)
  /\ (((0 < field_norm Examples.used_R)%R /\ (0 < 2)%R
       /\ (FLT_EPSILON <= Rabs (2 - field_norm Examples.used_R))%R)
      /\ exists y,
           TRICAL_norm_set Examples.used_R 2%R = Some y
           /\ (forall i, i < 9 ->
                 state y i
                 = (state Examples.used_R i
                    * (2 / field_norm Examples.used_R))%R)
           /\ (forall q, q < 81 ->
                 state_covariance y q
                 = (state_covariance Examples.used_R q
                    * (2 / field_norm Examples.used_R) ^ 2)%R)
           /\ field_norm y = 2%R
           /\ measurement_noise y = measurement_noise Examples.used_R
           /\ measurement_count y = measurement_count Examples.used_R).
Proof.
  split.
  - assert (Hpos : fltb fzero (B32.of_Z 3) = true) by reflexivity.
    assert (Heps : fltb (fabs (fsub (B32.of_Z 3)
                                 (field_norm Examples.used_b32)))
                        FLT_EPSILON = false) by reflexivity.
    split; [split; assumption|].
    exact (proj1 TRICAL_norm_set_rescales_state_and_covariance
             spec_float b32_ops Examples.used_b32 (B32.of_Z 3) Hpos Heps).
  - split; [exact Examples_used_R_far_from_2|].
    destruct Examples_used_R_far_from_2 as (H0 & H2 & Heps).
    exact (proj2 TRICAL_norm_set_rescales_state_and_covariance
             Examples.used_R 2%R H0 H2 Heps).
Defined.

(** C2 as stated fails on the scale entries: with field norm 1, the
    call with norm 2 passes both tests and turns the scale entry at index 3
    from 1/2 into 1.  At binary32 it also fails on the covariance: from a
    fresh instance set to the norm 2^63, the call with norm 2^64 has the
    ratio 2, but n * n overflows, so the covariance entry 0 becomes
    infinite where four times its value is finite, and the zero entry 1
    becomes NaN. *)
Lemma TRICAL_norm_set_scale_entries_counterexample :
  (((0 < field_norm Examples.used_R)%R /\ (0 < 2)%R
    /\ (FLT_EPSILON <= Rabs (2 - field_norm Examples.used_R))%R)
   /\ exists y,
        TRICAL_norm_set Examples.used_R 2%R = Some y
        /\ state Examples.used_R 3 = (/ 2)%R
        /\ state y 3 = 1%R
        /\ state y 3 <> state Examples.used_R 3)
  /\ exists x y,
       TRICAL_norm_set Examples.fresh_b32 EdgeExamples.two_63_b32 = Some x
       /\ TRICAL_norm_set x EdgeExamples.two_64_b32 = Some y
       /\ field_norm x = EdgeExamples.two_63_b32
       /\ fltb fzero (field_norm x) = true
       /\ fltb fzero EdgeExamples.two_64_b32 = true
       /\ fltb (fabs (fsub EdgeExamples.two_64_b32 (field_norm x)))
                FLT_EPSILON = false
       /\ fdiv EdgeExamples.two_64_b32 (field_norm x) = B32.of_Z 2
       /\ fmul (state_covariance x 0) (B32.of_Z 4)
          = S754_finite false 10737418 98
       /\ state_covariance y 0 = S754_infinity false
       /\ state_covariance x 1 = S754_zero false
       /\ state_covariance y 1 = S754_nan.
Proof.
  split.
  - split; [exact Examples_used_R_far_from_2|].
    destruct Examples_used_R_far_from_2 as (H0 & H2 & Heps).
    destruct (@TRICAL_norm_set_rescales R R_ops Examples.used_R 2%R)
      as (y & Hy & _ & _ & _ & Hst & _).
    + simpl. apply Rltb_true. lra.
    + apply R_epsilon_test_false. exact Heps.
    + exists y. split; [exact Hy|].
      assert (H3 : state y 3 = 1%R).
      { rewrite Hst. simpl. field. }
      repeat split.
      * exact H3.
      * rewrite H3. simpl. lra.
  - eexists. eexists.
    split; [reflexivity|]. split; [reflexivity|].
    repeat split; vm_compute; reflexivity.
Qed.



(** ** TRICAL_estimate_get and TRICAL_estimate_get_ext *)

Section GetterFacts.
Context {F : Type} {ops : FloatOps F}.

Lemma store_eq (h : heap F) (p q : ptr) (v : F) :
  q = p -> store h p v q = v.
Proof. intros ->. apply store_same. Qed.

Ltac read_stores :=
  repeat first [ rewrite store_eq by lia | rewrite store_other by lia ].

Lemma memcpy_floats_3 (h : heap F) (dst : ptr) (src : nat -> F) :
  memcpy_floats h dst src 3
  = store (store (store h (dst + 0) (src 0)) (dst + 1) (src 1))
          (dst + 2) (src 2).
Proof. reflexivity. Qed.

Lemma TRICAL_estimate_get_cells (x : TRICAL_instance_t F)
    (b s : ptr) (h : heap F) :
  b <> NULL -> s <> NULL -> disjoint b 3 s 9 ->
  exists h1,
    TRICAL_estimate_get x b s h = Some h1
    /\ (forall i, i < 3 -> h1 (b + i) = state x i)
    /\ (forall k, k < 9 -> h1 (s + k) = state x (nth k scale_index 0))
    /\ (forall q, ~ (b <= q < b + 3) -> ~ (s <= q < s + 9) -> h1 q = h q).
Proof.
  intros Hb Hs Hd. unfold disjoint in Hd. unfold TRICAL_estimate_get.
  rewrite (nonnull_true Hb), (nonnull_true Hs).
  destruct (Nat.eqb_spec b s) as [Heq|Hne]; [lia|].
  simpl assert. cbv iota. rewrite memcpy_floats_3.
  eexists. split; [reflexivity|]. split; [|split].
  - intros i Hi.
    destruct i as [|[|[|i]]]; [| | |lia]; read_stores; reflexivity.
  - intros k Hk.
    do 9 (destruct k as [|k]; [read_stores; reflexivity|]). lia.
  - intros q Hqb Hqs. read_stores. reflexivity.
Qed.

(** C5.  With non-null output buffers that do not overlap:
    [TRICAL_estimate_get] writes state entries 0 to 2 to [bias_estimate]
    and the symmetric expansion state[3], state[4], state[5], state[4],
    state[6], state[7], state[5], state[7], state[8] to [scale_estimate];
    [TRICAL_estimate_get_ext] writes the same and, in addition, the
    covariance diagonal entries i*9+i, i = 0, 1, 2, to
    [bias_estimate_variance] and the diagonal entries at positions 3, 4, 5,
    4, 6, 7, 5, 7, 8 to [scale_estimate_variance]. *)
Theorem TRICAL_estimate_get_expands_symmetric (x : TRICAL_instance_t F)
    (b s bv sv : ptr) (h : heap F) :
  b <> NULL -> s <> NULL -> bv <> NULL -> sv <> NULL ->
  disjoint b 3 s 9 ->
  disjoint b 3 bv 3 -> disjoint b 3 sv 9 ->
  disjoint s 9 bv 3 -> disjoint s 9 sv 9 ->
  disjoint bv 3 sv 9 ->
  (exists h1,
     TRICAL_estimate_get x b s h = Some h1
     /\ (forall i, i < 3 -> h1 (b + i) = state x i)
     /\ (forall k, k < 9 -> h1 (s + k) = state x (nth k scale_index 0))
     /\ (forall r c, r < 3 -> c < 3 ->
           h1 (s + (r * 3 + c)) = h1 (s + (c * 3 + r))))
  /\ (exists h2,
        TRICAL_estimate_get_ext x b s bv sv h = Some h2
        /\ (forall i, i < 3 -> h2 (b + i) = state x i)
        /\ (forall k, k < 9 -> h2 (s + k) = state x (nth k scale_index 0))
        /\ (forall i, i < 3 -> h2 (bv + i) = state_covariance x (i * 9 + i))
        /\ (forall k, k < 9 ->
              h2 (sv + k)
              = state_covariance x
                  (nth k scale_index 0 * 9 + nth k scale_index 0))
        /\ (forall r c, r < 3 -> c < 3 ->
              h2 (s + (r * 3 + c)) = h2 (s + (c * 3 + r))
              /\ h2 (sv + (r * 3 + c)) = h2 (sv + (c * 3 + r)))).
Proof.
  intros Hb Hs Hbv Hsv Dbs Dbbv Dbsv Dsbv Dssv Dbvsv.
  destruct (TRICAL_estimate_get_cells x h Hb Hs Dbs)
    as (h1 & Hget & Hbias & Hscale & Hframe).
  unfold disjoint in *.
  split.
  - exists h1. split; [exact Hget|]. split; [exact Hbias|].
    split; [exact Hscale|].
    intros r c Hr Hc. rewrite !Hscale by lia.
    destruct r as [|[|[|r]]]; [| | |lia];
      (destruct c as [|[|[|c]]]; [| | |lia]); reflexivity.
  - unfold TRICAL_estimate_get_ext. rewrite Hget.
    rewrite (nonnull_true Hbv), (nonnull_true Hsv).
    destruct (Nat.eqb_spec b bv); [lia|].
    destruct (Nat.eqb_spec b sv); [lia|].
    destruct (Nat.eqb_spec s bv); [lia|].
    destruct (Nat.eqb_spec s sv); [lia|].
    destruct (Nat.eqb_spec bv sv); [lia|].
    simpl assert. cbv iota zeta.
    eexists. split; [reflexivity|].
    assert (Hsvk : forall k, k < 9 ->
              store (store (store (store (store (store (store (store (store
                (store (store (store h1
                  (bv + 0) (state_covariance x (0 * 9 + 0)))
                  (bv + 1) (state_covariance x (1 * 9 + 1)))
                  (bv + 2) (state_covariance x (2 * 9 + 2)))
                  (sv + 0) (state_covariance x (3 * 9 + 3)))
                  (sv + 1) (state_covariance x (4 * 9 + 4)))
                  (sv + 2) (state_covariance x (5 * 9 + 5)))
                  (sv + 3) (state_covariance x (4 * 9 + 4)))
                  (sv + 4) (state_covariance x (6 * 9 + 6)))
                  (sv + 5) (state_covariance x (7 * 9 + 7)))
                  (sv + 6) (state_covariance x (5 * 9 + 5)))
                  (sv + 7) (state_covariance x (7 * 9 + 7)))
                  (sv + 8) (state_covariance x (8 * 9 + 8)) (sv + k)
              = state_covariance x
                  (nth k scale_index 0 * 9 + nth k scale_index 0)).
    { intros k Hk.
      do 9 (destruct k as [|k]; [read_stores; reflexivity|]). lia. }
    split; [|split; [|split; [|split]]].
    + intros i Hi. read_stores. apply Hbias. exact Hi.
    + intros k Hk. read_stores. apply Hscale. exact Hk.
    + intros i Hi.
      destruct i as [|[|[|i]]]; [| | |lia]; read_stores; reflexivity.
    + exact Hsvk.
    + intros r c Hr Hc. split.
      * read_stores. rewrite !Hscale by lia.
        destruct r as [|[|[|r]]]; [| | |lia];
          (destruct c as [|[|[|c]]]; [| | |lia]); reflexivity.
      * rewrite !Hsvk by lia.
        destruct r as [|[|[|r]]]; [| | |lia];
          (destruct c as [|[|[|c]]]; [| | |lia]); reflexivity.
Qed.
End GetterFacts.

(** ** TRICAL_estimate_update and sequences of operations *)

Section OperationFacts.
Context {F : Type} {ops : FloatOps F}.

Variable ukf_spread : F.
Variable ukf_w0 : F.
Variable ukf_wi : F.
Variable calibration_transform : (nat -> F) -> F * F * F -> F * F * F.

Let update := TRICAL_estimate_update ukf_spread ukf_w0 ukf_wi
                calibration_transform.
Let run := run_operation ukf_spread ukf_w0 ukf_wi calibration_transform.


(** C4.  When the predicted measurement variance of the cycle is
    non-positive, [TRICAL_estimate_update] leaves the state and the
    covariance as they were and increments the measurement count by one,
    in 32-bit unsigned arithmetic. *)
Theorem TRICAL_estimate_update_degenerate_variance
    (x : TRICAL_instance_t F) (measurement : ptr) (h : heap F) :
  measurement <> NULL ->
  fleb (predicted_measurement_variance ukf_spread ukf_w0 ukf_wi
          calibration_transform x (read_vec3 h measurement)) fzero = true ->
  exists y,
    update x measurement h = Some y
    /\ state y = state x
    /\ state_covariance y = state_covariance x
    /\ field_norm y = field_norm x
    /\ measurement_noise y = measurement_noise x
    /\ measurement_count y = ((measurement_count x + 1) mod 2 ^ 32)%Z
    /\ ((0 <= measurement_count x < 2 ^ 32 - 1)%Z ->
        measurement_count y = (measurement_count x + 1)%Z).
Proof.
  intros Hm Hvar. unfold update, TRICAL_estimate_update.
  rewrite (nonnull_true Hm). simpl assert. cbv iota.
  unfold _trical_filter_iterate. rewrite Hvar.
  eexists. split; [reflexivity|].
  simpl. repeat split.
  intros Hrange. unfold UINT_MODULUS. apply Z.mod_small. lia.
Qed.




Context {laws : FloatLaws F}.





End OperationFacts.

(** ** The read-only operations, with the instance in memory *)

Section ResidentFacts.
Context {F : Type} {ops : FloatOps F}.

Variable ukf_spread : F.
Variable ukf_w0 : F.
Variable ukf_wi : F.
Variable calibration_transform : (nat -> F) -> F * F * F -> F * F * F.
Variable l : layout.
Variable uint_of_cell : F -> Z.
Variable cell_of_uint : Z -> F.

Let run := Resident.run_operation ukf_spread ukf_w0 ukf_wi
             calibration_transform l uint_of_cell cell_of_uint.
Let load := @Resident.load_instance F ops l uint_of_cell.

Lemma copy_cell_other (h : heap F) (dst src q : ptr) :
  q <> dst -> Resident.copy_cell h dst src q = h q.
Proof. intros H. unfold Resident.copy_cell. apply store_other. exact H. Qed.

Ltac skip_copies :=
  repeat (rewrite copy_cell_other by (unfold in_buffer in *; lia)).

(** The getters write their buffers and nothing else, wherever the
    buffers are. *)
Lemma resident_estimate_get_frame (p b s : ptr) (h h' : heap F) :
  Resident.TRICAL_estimate_get l p b s h = Some h' ->
  forall q, ~ in_buffer b 3 q -> ~ in_buffer s 9 q -> h' q = h q.
Proof.
  unfold Resident.TRICAL_estimate_get.
  match goal with
  | |- context [assert ?c] => destruct c; simpl assert; [|discriminate]
  end.
  cbv iota zeta. unfold Resident.memcpy. rewrite memcpy_floats_3.
  intros Hrun q Hb Hs. injection Hrun as <-.
  skip_copies.
  repeat (rewrite store_other by (unfold in_buffer in *; lia)).
  reflexivity.
Qed.

Lemma resident_estimate_get_ext_frame (p b s bv sv : ptr) (h h' : heap F) :
  Resident.TRICAL_estimate_get_ext l p b s bv sv h = Some h' ->
  forall q, ~ in_buffer b 3 q -> ~ in_buffer s 9 q ->
            ~ in_buffer bv 3 q -> ~ in_buffer sv 9 q -> h' q = h q.
Proof.
  unfold Resident.TRICAL_estimate_get_ext.
  destruct (Resident.TRICAL_estimate_get l p b s h) as [h1|] eqn:Hget;
    [|discriminate].
  match goal with
  | |- context [assert ?c] => destruct c; simpl assert; [|discriminate]
  end.
  cbv iota zeta.
  intros Hrun q Hb Hs Hbv Hsv. injection Hrun as <-.
  skip_copies.
  apply (@resident_estimate_get_frame p b s h h1 Hget); assumption.
Qed.

Lemma resident_calibrate_frame (p m c : ptr) (h h' : heap F) :
  Resident.TRICAL_measurement_calibrate calibration_transform l p m c h
  = Some h' ->
  forall q, ~ in_buffer c 3 q -> h' q = h q.
Proof.
  unfold Resident.TRICAL_measurement_calibrate.
  match goal with
  | |- context [assert ?c] => destruct c; simpl assert; [|discriminate]
  end.
  intros Hrun q Hc. injection Hrun as <-.
  unfold _trical_measurement_calibrate, write_vec3.
  destruct (calibration_transform _ _) as [[x y] z].
  repeat (rewrite store_other by (unfold in_buffer in *; lia)).
  reflexivity.
Qed.

(** The instance read from memory depends on the cells of its members
    alone. *)
Lemma load_instance_frame (p : ptr) (h h' : heap F) :
  (forall q, ~ outside l p q 1 -> h' q = h q) ->
  same_instance (load p h') (load p h).
Proof.
  intros Hsame.
  assert (Hcell : forall q,
            q = p + at_field_norm l
            \/ q = p + at_measurement_noise l
            \/ in_buffer (p + at_state l) 9 q
            \/ in_buffer (p + at_state_covariance l) 81 q
            \/ q = p + at_measurement_count l ->
            h' q = h q).
  { intros q Hq. apply Hsame.
    unfold outside, disjoint, in_buffer, TRICAL_STATE_DIM in *. lia. }
  unfold same_instance, load, Resident.load_instance. simpl.
  repeat split.
  - apply Hcell. left. reflexivity.
  - apply Hcell. right. left. reflexivity.
  - intros i.
    match goal with
    | |- context [?a <? ?b] => destruct (Nat.ltb_spec a b); [|reflexivity]
    end.
    apply Hcell. right. right. left.
    unfold Resident.state_cell, in_buffer, TRICAL_STATE_DIM in *. lia.
  - intros q.
    match goal with
    | |- context [?a <? ?b] => destruct (Nat.ltb_spec a b); [|reflexivity]
    end.
    apply Hcell. right. right. right. left.
    unfold Resident.state_covariance_cell, in_buffer, TRICAL_STATE_DIM in *.
    lia.
  - f_equal. apply Hcell. do 4 right. reflexivity.
Qed.

Lemma outside_not_in_buffer (p b n q : nat) :
  outside l p b n -> ~ outside l p q 1 -> ~ in_buffer b n q.
Proof.
  unfold outside, disjoint, in_buffer, TRICAL_STATE_DIM. lia.
Qed.

Lemma same_instance_refl (x : TRICAL_instance_t F) : same_instance x x.
Proof. repeat split. Qed.

(** A read-only call whose output buffers lie outside the instance leaves
    the instance as it was. *)
Lemma resident_read_only_keeps_instance (p : ptr) (o : operation F)
    (h h' : heap F) :
  read_only o = true ->
  Resident.buffers_outside l p o ->
  run p o h = Some h' ->
  same_instance (load p h') (load p h).
Proof.
  intros Hro Hout Hrun.
  destruct o; try discriminate Hro;
    unfold run, Resident.run_operation in Hrun; simpl in Hrun.
  - destruct (Resident.TRICAL_norm_get l p _); [|discriminate].
    injection Hrun as <-. apply same_instance_refl.
  - destruct (Resident.TRICAL_noise_get l p _); [|discriminate].
    injection Hrun as <-. apply same_instance_refl.
  - destruct (Resident.TRICAL_measurement_count_get l uint_of_cell p _);
      [|discriminate].
    injection Hrun as <-. apply same_instance_refl.
  - rename Hrun into Hget. apply load_instance_frame.
    destruct Hout as (Hb & Hs).
    intros q Hq. apply (@resident_estimate_get_frame _ _ _ _ _ Hget).
    + exact (outside_not_in_buffer Hb Hq).
    + exact (outside_not_in_buffer Hs Hq).
  - rename Hrun into Hget. apply load_instance_frame.
    destruct Hout as (Hb & Hs & Hbv & Hsv).
    intros q Hq. apply (@resident_estimate_get_ext_frame _ _ _ _ _ _ _ Hget).
    + exact (outside_not_in_buffer Hb Hq).
    + exact (outside_not_in_buffer Hs Hq).
    + exact (outside_not_in_buffer Hbv Hq).
    + exact (outside_not_in_buffer Hsv Hq).
  - rename Hrun into Hget. apply load_instance_frame.
    intros q Hq. apply (@resident_calibrate_frame _ _ _ _ _ Hget).
    exact (outside_not_in_buffer Hout Hq).
Qed.

(** A read-only call whose arguments pass the assertions returns. *)
Lemma resident_read_only_returns (p : ptr) (o : operation F)
    (h : heap F) :
  p <> NULL ->
  read_only o = true ->
  arguments_ok o = true ->
  exists h', run p o h = Some h'.
Proof.
  intros Hp Hro Hok.
  destruct o; try discriminate Hro; simpl in Hok;
    unfold run, Resident.run_operation; simpl.
  - unfold Resident.TRICAL_norm_get. rewrite (nonnull_true Hp).
    eexists. reflexivity.
  - unfold Resident.TRICAL_noise_get. rewrite (nonnull_true Hp).
    eexists. reflexivity.
  - unfold Resident.TRICAL_measurement_count_get. rewrite (nonnull_true Hp).
    eexists. reflexivity.
  - unfold Resident.TRICAL_estimate_get.
    rewrite (nonnull_true Hp), Hok. eexists. reflexivity.
  - apply andb_prop in Hok. destruct Hok as (Hget & Hext).
    unfold Resident.TRICAL_estimate_get_ext, Resident.TRICAL_estimate_get.
    rewrite (nonnull_true Hp), Hget. simpl assert. cbv iota.
    rewrite Hext. eexists. reflexivity.
  - unfold Resident.TRICAL_measurement_calibrate.
    rewrite (nonnull_true Hp), Hok. eexists. reflexivity.
Qed.

(** C9, as the code has it.  With the instance in the memory its
    buffers are in, whatever the offsets of its members and the
    representation of its counter: a read-only operation -- [TRICAL_norm_get],
    [TRICAL_noise_get], [TRICAL_measurement_count_get],
    [TRICAL_estimate_get], [TRICAL_estimate_get_ext] or
    [TRICAL_measurement_calibrate] -- whose arguments pass the
    assertions and whose output buffers lie outside the instance returns
    and leaves every member of the instance unchanged; and an operation
    with its output buffers outside the instance that changes a member
    is [TRICAL_init], one of the two setters, or the update. *)
Theorem read_only_operations_frame :
  (forall p o h,
     p <> NULL ->
     read_only o = true ->
     arguments_ok o = true ->
     Resident.buffers_outside l p o ->
     exists h',
       run p o h = Some h' /\ same_instance (load p h') (load p h))
  /\ (forall p o h h',
        run p o h = Some h' ->
        Resident.buffers_outside l p o ->
        ~ same_instance (load p h') (load p h) ->
        mutating o = true).
Proof.
  split.
  - intros p o h Hp Hro Hok Hout.
    destruct (@resident_read_only_returns p o h Hp Hro Hok) as (h' & Hrun).
    exists h'. split; [exact Hrun|].
    apply (@resident_read_only_keeps_instance p o h h' Hro Hout Hrun).
  - intros p o h h' Hrun Hout Hchange.
    destruct (mutating o) eqn:Hmut; [reflexivity|].
    exfalso. apply Hchange.
    apply (@resident_read_only_keeps_instance p o h h');
      [|exact Hout|exact Hrun].
    destruct o; simpl in Hmut; try discriminate; reflexivity.
Qed.
End ResidentFacts.

(** ** The statements at concrete binary32 inputs *)

(** A cycle that the policy does skip.  With the unscented constants
    n + lambda = 1 (weights -8 and 1/2, adding up to 1), a calibration that
    corrects bias and scale, a fresh instance and the raw measurement
    (1/16, 0, 0), the predicted measurement variance is negative; the
    correction of step 5, had it been applied, would have moved the bias
    entry 0 away from 0. *)
Lemma TRICAL_estimate_update_degenerate_variance_witness :
  let x := Examples.fresh_b32 in
  let h := UnscentedExamples.raw_memory in
  let variance :=
    predicted_measurement_variance UnscentedExamples.spread
      UnscentedExamples.w0 UnscentedExamples.wi UnscentedExamples.calibrate
      x (read_vec3 h 1) in
  let corrected :=
    filter_correct UnscentedExamples.spread UnscentedExamples.w0
      UnscentedExamples.wi UnscentedExamples.calibrate x (read_vec3 h 1) in
  let update :=
    TRICAL_estimate_update UnscentedExamples.spread UnscentedExamples.w0
      UnscentedExamples.wi UnscentedExamples.calibrate in
  (1 <> NULL /\ fleb variance fzero = true)
  /\ (variance = S754_finite true 15468052 (-35)
      /\ fadd UnscentedExamples.w0
              (fmul (B32.of_Z 18) UnscentedExamples.wi) = B32.of_Z 1
      /\ state x 0 = S754_zero false
      /\ state corrected 0 = S754_finite false 11249953 (-22))
  /\ exists y,
       update x 1 h = Some y
       /\ state y = state x
       /\ state_covariance y = state_covariance x
       /\ field_norm y = field_norm x
       /\ measurement_noise y = measurement_noise x
       /\ measurement_count y = ((measurement_count x + 1) mod 2 ^ 32)%Z
       /\ ((0 <= measurement_count x < 2 ^ 32 - 1)%Z ->
           measurement_count y = (measurement_count x + 1)%Z).
Proof.
  assert (Hvar : predicted_measurement_variance UnscentedExamples.spread
                   UnscentedExamples.w0 UnscentedExamples.wi
                   UnscentedExamples.calibrate Examples.fresh_b32
                   (read_vec3 UnscentedExamples.raw_memory 1)
                 = S754_finite true 15468052 (-35))
    by (vm_compute; reflexivity).
  assert (H1 : 1 <> NULL) by discriminate.
  assert (Hle : fleb (predicted_measurement_variance UnscentedExamples.spread
                        UnscentedExamples.w0 UnscentedExamples.wi
                        UnscentedExamples.calibrate Examples.fresh_b32
                        (read_vec3 UnscentedExamples.raw_memory 1))
                     fzero = true)
    by (rewrite Hvar; reflexivity).
  cbv zeta.
  split; [split; assumption|].
  split.
  - split; [exact Hvar|]. repeat split; vm_compute; reflexivity.
  - exact (@TRICAL_estimate_update_degenerate_variance spec_float b32_ops
             UnscentedExamples.spread UnscentedExamples.w0
             UnscentedExamples.wi UnscentedExamples.calibrate
             Examples.fresh_b32 1 UnscentedExamples.raw_memory H1 Hle).
Defined.

Lemma TRICAL_estimate_get_expands_symmetric_witness :
  let x := Examples.used_b32 in
  let h := Examples.raw_memory in
  (1 <> NULL /\ 4 <> NULL /\ 13 <> NULL /\ 16 <> NULL
   /\ disjoint 1 3 4 9 /\ disjoint 1 3 13 3 /\ disjoint 1 3 16 9
   /\ disjoint 4 9 13 3 /\ disjoint 4 9 16 9 /\ disjoint 13 3 16 9)
  /\ (exists h1,
        TRICAL_estimate_get x 1 4 h = Some h1
        /\ (forall i, i < 3 -> h1 (1 + i) = state x i)
        /\ (forall k, k < 9 -> h1 (4 + k) = state x (nth k scale_index 0))
        /\ (forall r c, r < 3 -> c < 3 ->
              h1 (4 + (r * 3 + c)) = h1 (4 + (c * 3 + r))))
  /\ (exists h2,
        TRICAL_estimate_get_ext x 1 4 13 16 h = Some h2
        /\ (forall i, i < 3 -> h2 (1 + i) = state x i)
        /\ (forall k, k < 9 -> h2 (4 + k) = state x (nth k scale_index 0))
        /\ (forall i, i < 3 -> h2 (13 + i) = state_covariance x (i * 9 + i))
        /\ (forall k, k < 9 ->
              h2 (16 + k)
              = state_covariance x
                  (nth k scale_index 0 * 9 + nth k scale_index 0))
        /\ (forall r c, r < 3 -> c < 3 ->
              h2 (4 + (r * 3 + c)) = h2 (4 + (c * 3 + r))
              /\ h2 (16 + (r * 3 + c)) = h2 (16 + (c * 3 + r)))).
Proof.
  assert (Hne : 1 <> NULL /\ 4 <> NULL /\ 13 <> NULL /\ 16 <> NULL)
    by (repeat split; discriminate).
  assert (Hd : disjoint 1 3 4 9 /\ disjoint 1 3 13 3 /\ disjoint 1 3 16 9
               /\ disjoint 4 9 13 3 /\ disjoint 4 9 16 9
               /\ disjoint 13 3 16 9)
    by (unfold disjoint; lia).
  destruct Hne as (N1 & N2 & N3 & N4).
  destruct Hd as (D1 & D2 & D3 & D4 & D5 & D6).
  split; [repeat split; assumption|].
  exact (@TRICAL_estimate_get_expands_symmetric spec_float
           Examples.used_b32 1 4 13 16 Examples.raw_memory
           N1 N2 N3 N4 D1 D2 D3 D4 D5 D6).
Defined.


(** *** The read-only operations at concrete binary32 inputs *)

Lemma read_only_operations_frame_witness :
  let o := Op_estimate_get_ext 110 113 122 125 in
  ((1 <> NULL
    /\ read_only o = true
    /\ @arguments_ok spec_float b32_ops o = true
    /\ Resident.buffers_outside ResidentExamples.members 1 o)
   /\ exists m',
        ResidentExamples.run 1 o ResidentExamples.in_use = Some m'
        /\ same_instance (ResidentExamples.load 1 m')
                         (ResidentExamples.load 1 ResidentExamples.in_use))
  /\ exists m',
       (ResidentExamples.run 1 Op_init ResidentExamples.in_use = Some m'
        /\ Resident.buffers_outside ResidentExamples.members 1
             (@Op_init spec_float)
        /\ ~ same_instance (ResidentExamples.load 1 m')
                           (ResidentExamples.load 1 ResidentExamples.in_use))
       /\ mutating (@Op_init spec_float) = true.
Proof.
  cbv zeta. split.
  - assert (Hp : 1 <> NULL) by discriminate.
    assert (Hro : read_only (@Op_estimate_get_ext spec_float 110 113 122 125)
                  = true) by reflexivity.
    assert (Hok : @arguments_ok spec_float b32_ops
                    (Op_estimate_get_ext 110 113 122 125) = true)
      by reflexivity.
    assert (Hout : Resident.buffers_outside ResidentExamples.members 1
                     (@Op_estimate_get_ext spec_float 110 113 122 125)).
    { unfold Resident.buffers_outside, outside, disjoint,
        ResidentExamples.members, TRICAL_STATE_DIM. simpl. lia. }
    split; [exact (conj Hp (conj Hro (conj Hok Hout)))|].
    exact (proj1 (@read_only_operations_frame spec_float b32_ops
                    UnscentedExamples.spread UnscentedExamples.w0
                    UnscentedExamples.wi UnscentedExamples.calibrate
                    ResidentExamples.members ResidentExamples.bits_of_b32
                    ResidentExamples.b32_of_bits)
             1 (Op_estimate_get_ext 110 113 122 125)
             ResidentExamples.in_use Hp Hro Hok Hout).
  - eexists.
    assert (Hrun : ResidentExamples.run 1 Op_init ResidentExamples.in_use
                   = Some (Resident.store_instance ResidentExamples.members
                             ResidentExamples.b32_of_bits 1
                             (TRICAL_init
                                (ResidentExamples.load 1
                                   ResidentExamples.in_use))
                             ResidentExamples.in_use)) by reflexivity.
    assert (Hchange :
              ~ same_instance
                  (ResidentExamples.load 1
                     (Resident.store_instance ResidentExamples.members
                        ResidentExamples.b32_of_bits 1
                        (TRICAL_init
                           (ResidentExamples.load 1 ResidentExamples.in_use))
                        ResidentExamples.in_use))
                  (ResidentExamples.load 1 ResidentExamples.in_use)).
    { intros (Hnorm & _). vm_compute in Hnorm. discriminate Hnorm. }
    split; [split; [exact Hrun | split; [exact I | exact Hchange]]|].
    exact (proj2 (@read_only_operations_frame spec_float b32_ops
                    UnscentedExamples.spread UnscentedExamples.w0
                    UnscentedExamples.wi UnscentedExamples.calibrate
                    ResidentExamples.members ResidentExamples.bits_of_b32
                    ResidentExamples.b32_of_bits)
             1 Op_init ResidentExamples.in_use _ Hrun I Hchange).
Defined.

(** C9 as stated fails twice.  A read-only operation can change the
    instance: with the instance at address 1, its covariance starts at cell
    12, and [TRICAL_estimate_get] with [bias_estimate] at cell 12 and
    [scale_estimate] at cell 15 passes every assertion and overwrites the
    covariance entries 0 to 11; entry 0 turns from 3 into the bias entry 1.
    And [TRICAL_init] is neither the update nor a setter, and it changes an
    instance in use: the field norm 2 becomes 1. *)
Lemma read_only_operations_counterexample :
  (exists m',
     read_only (@Op_estimate_get spec_float 12 15) = true
     /\ @arguments_ok spec_float b32_ops (Op_estimate_get 12 15) = true
     /\ ResidentExamples.run 1 (Op_estimate_get 12 15)
          ResidentExamples.in_use = Some m'
     /\ Resident.state_covariance_cell ResidentExamples.members 1 0 = 12
     /\ Resident.state_covariance_cell ResidentExamples.members 1 3 = 15
     /\ state_covariance
          (ResidentExamples.load 1 ResidentExamples.in_use) 0 = B32.of_Z 3
     /\ state_covariance (ResidentExamples.load 1 m') 0 = B32.of_Z 1
     /\ ~ same_instance (ResidentExamples.load 1 m')
                        (ResidentExamples.load 1 ResidentExamples.in_use))
  /\ (exists m',
        mutating (@Op_init spec_float) = true
        /\ ResidentExamples.run 1 Op_init ResidentExamples.in_use = Some m'
        /\ field_norm (ResidentExamples.load 1 ResidentExamples.in_use)
           = B32.of_Z 2
        /\ field_norm (ResidentExamples.load 1 m') = B32.of_Z 1
        /\ ~ same_instance (ResidentExamples.load 1 m')
                           (ResidentExamples.load 1 ResidentExamples.in_use)).
Proof.
  split.
  - eexists.
    split; [reflexivity|]. split; [reflexivity|]. split; [reflexivity|].
    split; [reflexivity|]. split; [reflexivity|].
    split; [vm_compute; reflexivity|].
    split; [vm_compute; reflexivity|].
    intros (_ & _ & _ & Hcov & _). specialize (Hcov 0).
    vm_compute in Hcov. discriminate Hcov.
  - eexists.
    split; [reflexivity|]. split; [reflexivity|].
    split; [vm_compute; reflexivity|].
    split; [vm_compute; reflexivity|].
    intros (Hnorm & _). vm_compute in Hnorm. discriminate Hnorm.
Qed.

(** ** Finite sums *)

Section SumFacts.
Open Scope R_scope.

Lemma sumR_ext (f g : nat -> R) (m : nat) :
  (forall p, (p < m)%nat -> f p = g p) -> sumR f m = sumR g m.
Proof.
  induction m as [|m IH]; intros H; [reflexivity|].
  simpl. rewrite IH by (intros p Hp; apply H; lia).
  rewrite H by lia. reflexivity.
Qed.

Lemma sumR_zero (f : nat -> R) (m : nat) :
  (forall p, (p < m)%nat -> f p = 0) -> sumR f m = 0.
Proof.
  induction m as [|m IH]; intros H; [reflexivity|].
  simpl. rewrite IH by (intros p Hp; apply H; lia).
  rewrite H by lia. ring.
Qed.

Lemma sumR_plus (f g : nat -> R) (m : nat) :
  sumR (fun p => f p + g p) m = sumR f m + sumR g m.
Proof.
  induction m as [|m IH]; simpl; [ring|]. rewrite IH. ring.
Qed.

Lemma sumR_scal (c : R) (f : nat -> R) (m : nat) :
  sumR (fun p => c * f p) m = c * sumR f m.
Proof.
  induction m as [|m IH]; simpl; [ring|]. rewrite IH. ring.
Qed.

Lemma sumR_scal_r (c : R) (f : nat -> R) (m : nat) :
  sumR (fun p => f p * c) m = sumR f m * c.
Proof.
  induction m as [|m IH]; simpl; [ring|]. rewrite IH. ring.
Qed.

Lemma sumR_swap (f : nat -> nat -> R) (m1 m2 : nat) :
  sumR (fun a => sumR (fun b => f a b) m2) m1
  = sumR (fun b => sumR (fun a => f a b) m1) m2.
Proof.
  induction m1 as [|m1 IH]; simpl.
  - symmetry. apply sumR_zero. reflexivity.
  - rewrite IH. rewrite <- sumR_plus. reflexivity.
Qed.

(** Terms that vanish from [m] on can be dropped. *)
Lemma sumR_truncate (f : nat -> R) (m m' : nat) :
  (m <= m')%nat ->
  (forall p, (m <= p < m')%nat -> f p = 0) ->
  sumR f m' = sumR f m.
Proof.
  intros Hle. induction Hle as [|m' Hle IH]; intros H; [reflexivity|].
  simpl. rewrite IH by (intros p Hp; apply H; lia).
  rewrite H by lia. ring.
Qed.

(** The square of a sum as a double sum. *)
Lemma sumR_square (f : nat -> R) (m : nat) :
  sumR f m * sumR f m = sumR (fun a => sumR (fun b => f a * f b) m) m.
Proof.
  rewrite <- sumR_scal_r. apply sumR_ext. intros a _.
  rewrite sumR_scal. reflexivity.
Qed.
End SumFacts.

(** ** matrix_cholesky_decomp_scale_f *)

(** C6.  The unit test [MatrixMath.CholeskyLLT] at binary32: for the 4 x 4
    matrix m1 and scale 1.0, every entry of the lower triangle of the result
    is within 1e-5 of the expected decimal value -- decomposing in place, as
    the test does (L = A = m1), and into a separate buffer. *)
Theorem cholesky_unit_test_matrix :
  CholeskyTest.matches 1
    (matrix_cholesky_decomp_scale_f 4 1 1 (B32.of_Z 1) (CholeskyTest.m1_at 1))
  = true
  /\ CholeskyTest.matches 17
       (matrix_cholesky_decomp_scale_f 4 17 1 (B32.of_Z 1)
          (CholeskyTest.m1_at 1))
     = true.
Proof. split; vm_compute; reflexivity. Qed.

(** *** The code computes the recurrence *)

Section CholeskyCode.

Variable n : nat.
Variables L A : ptr.
Variable k : R.
Variable h0 : heap R.

Hypothesis n_pos : (0 < n)%nat.
Hypothesis layout : cholesky_layout n L A.

Local Abbreviation A0 := (cell n A h0).

Lemma cell_address_inj (a b a' b' : nat) :
  (a < n)%nat -> (a' < n)%nat ->
  (a + b * n = a' + b' * n)%nat -> a = a' /\ b = b'.
Proof.
  intros Ha Ha' H.
  destruct (Nat.lt_trichotomy b b') as [Hlt|[Heq|Hgt]].
  - exfalso. nia.
  - subst b'. split; [lia | reflexivity].
  - exfalso. nia.
Qed.

Lemma cell_store_L (h : heap R) (i j a b : nat) (v : R) :
  (i < n)%nat -> (a < n)%nat ->
  cell n L (store h (L + (i + j * n)) v) a b
  = if Nat.eqb a i && Nat.eqb b j then v else cell n L h a b.
Proof.
  intros Hi Ha. unfold cell.
  destruct (Nat.eqb_spec a i) as [->|Hai]; simpl.
  - destruct (Nat.eqb_spec b j) as [->|Hbj].
    + apply store_same.
    + apply store_other. intros H.
      assert (i + b * n = i + j * n)%nat as H' by lia.
      apply cell_address_inj in H'; [|assumption|assumption]. lia.
  - apply store_other. intros H.
    assert (a + b * n = i + j * n)%nat as H' by lia.
    apply cell_address_inj in H'; [|assumption|assumption]. lia.
Qed.

Lemma cell_store_A (h : heap R) (i j a b : nat) (v : R) :
  (j <= i < n)%nat -> (b <= a < n)%nat -> (a, b) <> (i, j) ->
  cell n A (store h (L + (i + j * n)) v) a b = cell n A h a b.
Proof.
  intros Hij Hab Hne. unfold cell. apply store_other. intros H.
  destruct layout as [->|Hdis].
  - assert (a + b * n = i + j * n)%nat as H' by lia.
    apply cell_address_inj in H'; [|lia|lia].
    destruct H' as [-> ->]. apply Hne. reflexivity.
  - unfold disjoint in Hdis.
    assert (a + b * n < n * n)%nat by nia.
    assert (i + j * n < n * n)%nat by nia.
    lia.
Qed.

(** The accumulation loop is the sum of the recurrence. *)
Lemma cholesky_dot_sum (i j : nat) (h : heap R) :
  cholesky_dot n L i j h
  = sumR (fun p => (cell n L h i p * cell n L h j p)%R) j.
Proof.
  unfold cholesky_dot, for_loop.
  destruct (@for_step_invariant R
              (fun kn s => fadd s (fmul (h (L + (i + kn))) (h (L + (j + kn)))))
              (fun kn s => exists p, (p <= j)%nat /\ kn = (p * n)%nat
                                     /\ s = sumR (fun p => (cell n L h i p
                                                           * cell n L h j p)%R) p)
              n (j * n)%nat n_pos)
    with (fuel := (j * n - 0)%nat) (i := 0%nat) (s := @fzero R R_ops)
    as (kn & Hkn & p & Hp & Hkp & Hs).
  - intros kn s Hlt (p & Hp & -> & ->).
    exists (S p). split; [nia|]. split; [simpl; lia|].
    simpl. unfold cell. reflexivity.
  - lia.
  - exists 0%nat. split; [lia|]. split; reflexivity.
  - assert (p = j) by nia. subst p. exact Hs.
Qed.

Let inv := cholesky_inv n L A k h0.

Lemma cholesky_entry_frame (l l' : nat -> nat -> R) (a b : nat) :
  (forall p, (p < b)%nat -> l' a p = l a p /\ l' b p = l b p) ->
  (a <> b -> l' b b = l b b) ->
  cholesky_entry k A0 l' a b = cholesky_entry k A0 l a b.
Proof.
  intros Hlow Hdiag. unfold cholesky_entry.
  destruct (Nat.eqb_spec a b) as [->|Hne].
  - unfold cholesky_diag. f_equal. f_equal.
    apply sumR_ext. intros p Hp.
    destruct (Hlow p Hp) as [-> _]. reflexivity.
  - unfold cholesky_offdiag. rewrite (Hdiag Hne). f_equal. f_equal.
    apply sumR_ext. intros p Hp.
    destruct (Hlow p Hp) as [-> ->]. reflexivity.
Qed.

Lemma cholesky_inv_written (i j i' j' : nat) (h : heap R) :
  (forall a b, (b <= a < n)%nat -> (written i j a b <-> written i' j' a b)) ->
  inv i j h -> inv i' j' h.
Proof.
  intros Heq [Hdone Htodo]. split.
  - intros a b Hab Hw. apply Hdone; [exact Hab | apply Heq; assumption].
  - intros a b Hab Hw. apply Htodo; [exact Hab|].
    intros Hw'. apply Hw. apply Heq; assumption.
Qed.

(** Writing the recurrence value of entry (i, j) extends the invariant. *)
Lemma cholesky_step (i j : nat) (h : heap R) :
  (j <= i < n)%nat ->
  inv i j h ->
  inv i (S j)
      (store h (L + (i + j * n)) (cholesky_entry k A0 (cell n L h) i j)).
Proof.
  intros Hij [Hdone Htodo].
  set (v := cholesky_entry k A0 (cell n L h) i j).
  set (h' := store h (L + (i + j * n)) v).
  assert (Hcell : forall a b, (a < n)%nat ->
            cell n L h' a b
            = if Nat.eqb a i && Nat.eqb b j then v else cell n L h a b)
    by (intros a b Ha; apply cell_store_L; lia).
  assert (Hframe : forall a b, (b <= a < n)%nat ->
            (a < i \/ (a = i /\ b <= j))%nat ->
            cholesky_entry k A0 (cell n L h') a b
            = cholesky_entry k A0 (cell n L h) a b).
  { intros a b Hab Hbefore. apply cholesky_entry_frame.
    - intros p Hp. rewrite !Hcell by lia. split.
      + destruct (Nat.eqb_spec a i); destruct (Nat.eqb_spec p j); simpl;
          try reflexivity; lia.
      + destruct (Nat.eqb_spec b i); destruct (Nat.eqb_spec p j); simpl;
          try reflexivity; lia.
    - intros Hne. rewrite Hcell by lia.
      destruct (Nat.eqb_spec b i); destruct (Nat.eqb_spec b j); simpl;
        try reflexivity; lia. }
  split.
  - intros a b Hab Hw. rewrite Hcell by lia.
    destruct (Nat.eqb_spec a i) as [->|Hai];
      [destruct (Nat.eqb_spec b j) as [->|Hbj]|]; simpl.
    + symmetry. apply Hframe; lia.
    + rewrite Hframe by (unfold written in Hw; lia).
      apply Hdone; [exact Hab | unfold written in *; lia].
    + rewrite Hframe by (unfold written in Hw; lia).
      apply Hdone; [exact Hab | unfold written in *; lia].
  - intros a b Hab Hw. unfold h'. rewrite cell_store_A.
    + apply Htodo; [exact Hab | unfold written in *; lia].
    + exact Hij.
    + exact Hab.
    + intros Heq. injection Heq as -> ->. apply Hw. unfold written. lia.
Qed.

(** One iteration of the loop over j writes the recurrence value. *)
Lemma cholesky_col_value (i j : nat) (h : heap R) :
  (1 <= j <= i)%nat -> (i < n)%nat ->
  inv i j h ->
  cholesky_col n L A k i (i * n) j (j * n, h)%nat
  = ((j + 1) * n,
     store h (L + (i + j * n)) (cholesky_entry k A0 (cell n L h) i j))%nat.
Proof.
  intros Hj Hi [_ Htodo]. unfold cholesky_col.
  rewrite cholesky_dot_sum.
  f_equal; [lia|]. f_equal.
  unfold cholesky_entry, fsqrt, recip.
  cbn [fadd fsub fmul fdiv fsqrt_f fone R_ops].
  destruct (Nat.eqb_spec i j) as [<-|Hne].
  - unfold cholesky_diag.
    rewrite <- (Htodo i i) by (unfold written; lia).
    unfold cell. f_equal. ring.
  - unfold cholesky_offdiag.
    rewrite <- (Htodo i j) by (unfold written; lia).
    unfold cell, Rdiv. ring.
Qed.

Lemma cholesky_cols (i : nat) (h : heap R) :
  (i < n)%nat ->
  inv i 1 h ->
  exists h1,
    for_loop 1 (i + 1) 1 (cholesky_col n L A k i (i * n)) (n, h)
    = (((i + 1) * n)%nat, h1)
    /\ inv i (S i) h1.
Proof.
  intros Hi Hinv.
  pose proof (@for_loop_invariant (nat * heap R)
                (cholesky_col n L A k i (i * n))
                (fun j st => fst st = (j * n)%nat /\ inv i j (snd st))
                1 (i + 1) (n, h)) as Hloop.
  destruct (for_loop 1 (i + 1) 1 (cholesky_col n L A k i (i * n)) (n, h))
    as [jn h1].
  destruct Hloop as [Hjn Hinv1].
  - lia.
  - split; [simpl; lia | exact Hinv].
  - intros j [jn' hj] Hj [Hjn' Hinvj]. simpl in Hjn', Hinvj. subst jn'.
    rewrite cholesky_col_value by (try assumption; lia).
    split; [reflexivity|]. simpl snd.
    replace (j + 1) with (S j) by lia.
    apply cholesky_step; [lia | exact Hinvj].
  - simpl in Hjn, Hinv1. subst jn. exists h1. split; [reflexivity|].
    replace (S i) with (i + 1) by lia. exact Hinv1.
Qed.

(** One iteration of the loop over i completes row i. *)
Lemma cholesky_row_value (i : nat) (h : heap R) :
  (i < n)%nat ->
  inv i 0 h ->
  exists h1,
    cholesky_row n L A k i (i * n, h)%nat = (((i + 1) * n)%nat, h1)
    /\ inv (S i) 0 h1.
Proof.
  intros Hi Hinv. unfold cholesky_row.
  assert (Hv0 : (if Nat.eqb i 0
                 then fsqrt (fmul (h (A + (i + i * n))) k)
                 else fmul (recip (h (L + 0))) (fmul (h (A + i)) k))
                = cholesky_entry k A0 (cell n L h) i 0).
  { destruct Hinv as [_ Htodo].
    unfold cholesky_entry, fsqrt, recip.
    cbn [fadd fsub fmul fdiv fsqrt_f fone R_ops].
    destruct (Nat.eqb_spec i 0) as [->|Hne].
    - unfold cholesky_diag.
      rewrite <- (Htodo 0 0)%nat by (unfold written; lia).
      unfold cell. simpl. f_equal. ring.
    - unfold cholesky_offdiag.
      rewrite <- (Htodo i 0)%nat by (unfold written; lia).
      unfold cell, Rdiv. simpl. rewrite !Nat.add_0_r. ring. }
  rewrite Hv0.
  destruct (@cholesky_cols i
              (store h (L + (i + 0)) (cholesky_entry k A0 (cell n L h) i 0)))
    as (h1 & Hloop & Hinv1).
  - exact Hi.
  - apply (cholesky_step (i := i) (j := 0)); [lia | exact Hinv].
  - rewrite Hloop. exists h1. split; [f_equal; lia|].
    apply cholesky_inv_written with (i := i) (j := S i); [|exact Hinv1].
    intros a b Hab. unfold written. lia.
Qed.

(** The decomposition returns, and every entry of the lower triangle of
    its result satisfies the recurrence. *)
Lemma cholesky_computes_recurrence :
  L <> NULL -> A <> NULL ->
  exists h',
    matrix_cholesky_decomp_scale_f n L A k h0 = Some h'
    /\ forall a b, (b <= a < n)%nat ->
         cell n L h' a b = cholesky_entry k A0 (cell n L h') a b.
Proof.
  intros HL HA. unfold matrix_cholesky_decomp_scale_f.
  rewrite (nonnull_true HL), (nonnull_true HA).
  destruct (Nat.eqb_spec n 0) as [Hn0|_]; [lia|]. simpl assert. cbv iota.
  pose proof (@for_loop_invariant (nat * heap R)
                (cholesky_row n L A k)
                (fun i st => fst st = (i * n)%nat /\ inv i 0 (snd st))
                0 n (0, h0)%nat) as Hloop.
  destruct (for_loop 0 n 1 (cholesky_row n L A k) (0, h0)%nat) as [in_ h'].
  destruct Hloop as [_ [Hdone _]].
  - lia.
  - split; [reflexivity|]. split.
    + intros a b Hab Hw. unfold written in Hw. lia.
    + intros a b Hab _. reflexivity.
  - intros i [in' hi] Hi [Hin Hinvi]. simpl in Hin, Hinvi. subst in'.
    destruct (cholesky_row_value (i := i) (h := hi)) as (h1 & Hrow & Hinv1);
      [lia | exact Hinvi |].
    rewrite Hrow. split; [reflexivity|].
    replace (i + 1)%nat with (S i) by lia. exact Hinv1.
  - exists h'. split; [reflexivity|].
    intros a b Hab. apply Hdone; [exact Hab | unfold written; lia].
Qed.
End CholeskyCode.

(** *** The recurrence factorises a positive-definite matrix *)

Section TriangularSolve.
Open Scope R_scope.

(** Back substitution: an upper-triangular system with a non-zero
    diagonal has a solution. *)
Lemma upper_solve (m : nat) :
  forall (T : nat -> nat -> R) (r : nat -> R),
    (forall p q, (q < p)%nat -> T p q = 0) ->
    (forall p, (p < m)%nat -> T p p <> 0) ->
    exists z, forall p, (p < m)%nat -> sumR (fun q => T p q * z q) m = r p.
Proof.
  induction m as [|m IH]; intros T r Hupper Hdiag.
  - exists (fun _ => 0). intros p Hp. lia.
  - set (zm := r m / T m m).
    destruct (IH T (fun p => r p - T p m * zm) Hupper) as [z' Hz'].
    { intros p Hp. apply Hdiag. lia. }
    exists (fun q => if Nat.eqb q m then zm else z' q).
    intros p Hp. simpl. rewrite Nat.eqb_refl.
    rewrite (sumR_ext (fun q => T p q * (if Nat.eqb q m then zm else z' q))
                      (fun q => T p q * z' q)).
    + destruct (Nat.eq_dec p m) as [->|Hne].
      * rewrite sumR_zero.
        -- unfold zm. field. apply Hdiag. lia.
        -- intros q Hq. rewrite Hupper by lia. ring.
      * rewrite Hz' by lia. ring.
    + intros q Hq. destruct (Nat.eqb_spec q m); [lia | reflexivity].
Qed.

(** A quadratic form whose matrix is a Gram matrix is a sum of squares. *)
Lemma gram_quadratic (m1 m2 : nat) (x : nat -> R) (M : nat -> nat -> R) :
  sumR (fun a => sumR (fun b =>
          x a * sumR (fun p => M a p * M b p) m2 * x b) m1) m1
  = sumR (fun p => sumR (fun a => x a * M a p) m1
                   * sumR (fun a => x a * M a p) m1) m2.
Proof.
  transitivity
    (sumR (fun a => sumR (fun b =>
             sumR (fun p => (x a * M a p) * (x b * M b p)) m2) m1) m1).
  - apply sumR_ext. intros a _. apply sumR_ext. intros b _.
    rewrite <- sumR_scal, <- sumR_scal_r.
    apply sumR_ext. intros p _. ring.
  - symmetry.
    etransitivity; [apply sumR_ext; intros p _; apply sumR_square|].
    rewrite (sumR_swap
               (fun p a => sumR (fun b => x a * M a p * (x b * M b p)) m1)).
    apply sumR_ext. intros a _.
    apply (sumR_swap (fun p b => x a * M a p * (x b * M b p))).
Qed.

(** A double sum whose only non-zero term is the last diagonal one. *)
Lemma sumR_corner (f : nat -> nat -> R) (i : nat) :
  (forall a b, (a <= i)%nat -> (b <= i)%nat ->
     (a, b) <> (i, i) -> f a b = 0) ->
  sumR (fun a => sumR (fun b => f a b) (S i)) (S i) = f i i.
Proof.
  intros Hzero. simpl.
  rewrite (sumR_zero (fun a => sumR (fun b => f a b) i + f a i)).
  - rewrite (sumR_zero (fun b => f i b)).
    + ring.
    + intros b Hb. apply Hzero; [lia | lia |].
      intros H; injection H as H; lia.
  - intros a Ha. rewrite sumR_zero.
    + rewrite Hzero; [ring | lia | lia |].
      intros H; injection H as H; lia.
    + intros b Hb. apply Hzero; [lia | lia |].
      intros H; injection H as H; lia.
Qed.
End TriangularSolve.

Section CholeskyAlgebra.
Open Scope R_scope.

Variable n : nat.
Variable k : R.
Variables a l : nat -> nat -> R.

Hypothesis k_pos : 0 < k.
Hypothesis a_sym : symmetric n a.
Hypothesis a_pd : positive_definite n a.
Hypothesis l_rec :
  forall i j, (j <= i < n)%nat -> l i j = cholesky_entry k a l i j.

Lemma tril_low (i p : nat) : (p <= i)%nat -> tril l i p = l i p.
Proof.
  intros H. unfold tril. destruct (Nat.leb_spec p i); [reflexivity | lia].
Qed.

Lemma tril_up (i p : nat) : (i < p)%nat -> tril l i p = 0.
Proof.
  intros H. unfold tril. destruct (Nat.leb_spec p i); [lia | reflexivity].
Qed.

(** The product of rows i and b <= i of the triangular factor only has
    its first b + 1 terms. *)
Lemma gram_row (i b m : nat) :
  (b <= i)%nat -> (S b <= m)%nat ->
  sumR (fun p => tril l i p * tril l b p) m
  = sumR (fun p => l i p * l b p) (S b).
Proof.
  intros Hbi Hbm.
  rewrite (sumR_truncate (fun p => tril l i p * tril l b p) Hbm).
  - apply sumR_ext. intros p Hp. rewrite !tril_low by lia. reflexivity.
  - intros p Hp. rewrite (tril_up (i := b)) by lia. ring.
Qed.

Section Pivot.
Variable i : nat.
Hypothesis i_lt : (i < n)%nat.
Hypothesis rows_before : forall i', (i' < i)%nat -> row_factored k a l i'.
Hypothesis row_i :
  forall b, (b < i)%nat ->
    sumR (fun p => l i p * l b p) (S b) = k * a i b.

Let d : R := k * a i i - sumR (fun p => l i p * l i p) i.

Lemma gram_below (i' b : nat) :
  (b <= i' <= i)%nat -> (b < i)%nat ->
  k * a i' b = sumR (fun p => tril l i' p * tril l b p) i.
Proof.
  intros Hbi Hb. rewrite gram_row by lia. symmetry.
  destruct (Nat.eq_dec i' i) as [->|Hne].
  - apply row_i. exact Hb.
  - apply (proj2 (rows_before (i' := i') ltac:(lia))). lia.
Qed.

(** Up to row i the scaled matrix is the Gram matrix of the rows of the
    factor, except for the pivot term at (i, i). *)
Lemma gram_upto (i' b : nat) :
  (i' <= i)%nat -> (b <= i)%nat ->
  k * a i' b
  = sumR (fun p => tril l i' p * tril l b p) i
    + (if Nat.eqb i' i && Nat.eqb b i then d else 0).
Proof.
  intros Hi' Hb.
  destruct (Nat.eqb_spec i' i) as [->|Hne1];
    destruct (Nat.eqb_spec b i) as [->|Hne2]; simpl.
  - unfold d.
    rewrite (sumR_ext (fun p => tril l i p * tril l i p)
                      (fun p => l i p * l i p))
      by (intros p Hp; rewrite !tril_low by lia; reflexivity).
    ring.
  - rewrite <- gram_below by lia. ring.
  - rewrite (a_sym (i := i') (j := i)) by lia.
    rewrite (gram_below (i' := i) (b := i')) by lia.
    rewrite Rplus_0_r. apply sumR_ext. intros p _. ring.
  - rewrite Rplus_0_r.
    destruct (Nat.le_gt_cases b i') as [Hle|Hgt].
    + apply gram_below; lia.
    + rewrite (a_sym (i := i') (j := b)) by lia.
      rewrite (gram_below (i' := b) (b := i')) by lia.
      apply sumR_ext. intros p _. ring.
Qed.

(** The pivot is the quadratic form of the matrix at a non-zero vector,
    scaled by k. *)
Lemma pivot_positive : 0 < d.
Proof.
  destruct (@upper_solve i (fun p q => tril l q p) (fun p => - l i p))
    as [z Hz].
  { intros p q Hqp. apply tril_up. exact Hqp. }
  { intros p Hp. rewrite tril_low by lia.
    pose proof (proj1 (rows_before Hp)). lra. }
  set (x := fun i' => if i' <? i then z i'
                      else if Nat.eqb i' i then 1 else 0).
  assert (Hxi : x i = 1).
  { unfold x. rewrite Nat.ltb_irrefl, Nat.eqb_refl. reflexivity. }
  assert (Hx0 : forall i', (i < i')%nat -> x i' = 0).
  { intros i' Hi'. unfold x.
    destruct (Nat.ltb_spec i' i); [lia|].
    destruct (Nat.eqb_spec i' i); [lia | reflexivity]. }
  assert (Hxz : forall i', (i' < i)%nat -> x i' = z i').
  { intros i' Hi'. unfold x.
    destruct (Nat.ltb_spec i' i); [reflexivity | lia]. }
  assert (HQ : 0 < quadratic_form n a x).
  { apply a_pd. exists i. split; [exact i_lt | rewrite Hxi; lra]. }
  assert (Htrunc : k * quadratic_form n a x
                   = sumR (fun i' => sumR (fun b =>
                             x i' * (k * a i' b) * x b) (S i)) (S i)).
  { unfold quadratic_form. rewrite <- sumR_scal.
    rewrite (sumR_truncate _ (m := S i) (m' := n)); [|lia|].
    - apply sumR_ext. intros i' Hi'. rewrite <- sumR_scal.
      rewrite (sumR_truncate _ (m := S i) (m' := n)); [|lia|].
      + apply sumR_ext. intros b _. ring.
      + intros b Hb. rewrite (Hx0 b) by lia. ring.
    - intros i' Hi'. rewrite sumR_zero; [ring|].
      intros b _. rewrite (Hx0 i') by lia. ring. }
  assert (Hcolumn : forall p, (p < i)%nat ->
            sumR (fun i' => x i' * tril l i' p) (S i) = 0).
  { intros p Hp. simpl. rewrite Hxi, tril_low by lia.
    rewrite (sumR_ext (fun i' => x i' * tril l i' p)
                      (fun q => tril l q p * z q))
      by (intros q Hq; rewrite Hxz by lia; ring).
    rewrite Hz by exact Hp. ring. }
  assert (Hd : k * quadratic_form n a x = d).
  { rewrite Htrunc.
    rewrite (sumR_ext
               (fun i' => sumR (fun b => x i' * (k * a i' b) * x b) (S i))
               (fun i' =>
                  sumR (fun b =>
                          x i' * sumR (fun p => tril l i' p * tril l b p) i
                          * x b) (S i)
                  + sumR (fun b =>
                            x i'
                            * (if Nat.eqb i' i && Nat.eqb b i then d else 0)
                            * x b) (S i))).
    - rewrite sumR_plus. rewrite gram_quadratic.
      rewrite sumR_zero by (intros p Hp; rewrite Hcolumn by exact Hp; ring).
      rewrite (sumR_corner
                 (fun i' b =>
                    x i' * (if Nat.eqb i' i && Nat.eqb b i then d else 0)
                    * x b)).
      + rewrite Nat.eqb_refl, Hxi. simpl. ring.
      + intros i' b Hi' Hb Hne.
        destruct (Nat.eqb_spec i' i) as [->|_];
          [destruct (Nat.eqb_spec b i) as [->|_]|]; simpl;
          try ring.
        exfalso. apply Hne. reflexivity.
    - intros i' Hi'. rewrite <- sumR_plus. apply sumR_ext. intros b Hb.
      rewrite (gram_upto (i' := i') (b := b)) by lia. ring. }
  rewrite <- Hd. apply Rmult_lt_0_compat; assumption.
Qed.
End Pivot.

(** Every row of the recurrence is factored. *)
Lemma rows_factored (i : nat) : (i < n)%nat -> row_factored k a l i.
Proof.
  induction i as [i IH] using lt_wf_ind. intros Hi.
  assert (Hbefore : forall i', (i' < i)%nat -> row_factored k a l i')
    by (intros i' Hi'; apply IH; lia).
  assert (Hrow : forall b, (b < i)%nat ->
            sumR (fun p => l i p * l b p) (S b) = k * a i b).
  { intros b Hb. simpl.
    pose proof (proj1 (Hbefore b Hb)) as Hpos.
    rewrite (l_rec (i := i) (j := b)) by lia.
    unfold cholesky_entry.
    destruct (Nat.eqb_spec i b); [lia|].
    unfold cholesky_offdiag. field. lra. }
  pose proof (pivot_positive Hi Hbefore Hrow) as Hd.
  assert (Hdiag : l i i
                  = sqrt (k * a i i - sumR (fun p => l i p * l i p) i)).
  { rewrite (l_rec (i := i) (j := i)) at 1 by lia.
    unfold cholesky_entry. rewrite Nat.eqb_refl. reflexivity. }
  split.
  - rewrite Hdiag. apply sqrt_lt_R0. exact Hd.
  - intros j Hj. destruct (Nat.eq_dec j i) as [->|Hne].
    + simpl. rewrite Hdiag. rewrite sqrt_sqrt by lra. ring.
    + apply Hrow. lia.
Qed.

(** L L^T = k A, entry by entry. *)
Lemma factor_product (i j : nat) :
  (i < n)%nat -> (j < n)%nat ->
  sumR (fun p => tril l i p * tril l j p) n = k * a i j.
Proof.
  intros Hi Hj.
  destruct (Nat.le_gt_cases j i) as [Hle|Hgt].
  - rewrite gram_row by lia.
    apply (proj2 (rows_factored Hi)). exact Hle.
  - rewrite (a_sym Hi Hj).
    rewrite (sumR_ext (fun p => tril l i p * tril l j p)
                      (fun p => tril l j p * tril l i p))
      by (intros p _; ring).
    rewrite gram_row by lia.
    apply (proj2 (rows_factored Hj)). lia.
Qed.
End CholeskyAlgebra.

(** *** The decomposition of a positive-definite matrix *)

(** C1.  For a symmetric positive-definite n x n matrix A (column-major at
    [A]), a scale k > 0 and an output buffer [L] that is [A] itself or does
    not overlap it, [matrix_cholesky_decomp_scale_f] returns and, over real
    arithmetic, the lower-triangle cells of L satisfy
    L[i,i] = sqrt(k A[i,i] - sum_{p<i} L[i,p]^2) and, for j < i,
    L[i,j] = (k A[i,j] - sum_{p<j} L[i,p] L[j,p]) / L[j,j]; the pivots are
    positive and the lower-triangular L satisfies L L^T = k A. *)
Theorem matrix_cholesky_decomp_scale_f_factorises
    (n : nat) (L A : ptr) (k : R) (h : heap R) :
  0 < n ->
  (Z.of_nat n * Z.of_nat n < 2 ^ 32)%Z ->
  L <> NULL -> A <> NULL ->
  cholesky_layout n L A ->
  symmetric n (cell n A h) ->
  positive_definite n (cell n A h) ->
  (0 < k)%R ->
  exists h',
    matrix_cholesky_decomp_scale_f n L A k h = Some h'
    /\ (forall i, i < n ->
          cell n L h' i i
          = sqrt (k * cell n A h i i
                  - sumR (fun p => cell n L h' i p * cell n L h' i p) i)%R)
    /\ (forall i j, j < i < n ->
          cell n L h' i j
          = ((k * cell n A h i j
              - sumR (fun p => cell n L h' i p * cell n L h' j p) j)
             / cell n L h' j j)%R)
    /\ (forall i, i < n -> (0 < cell n L h' i i)%R)
    /\ (forall i j, i < n -> j < n ->
          sumR (fun p => lower n L h' i p * lower n L h' j p)%R n
          = (k * cell n A h i j)%R).
Proof.
  intros Hn _ HL HA Hlayout Hsym Hpd Hk.
  destruct (@cholesky_computes_recurrence n L A k h Hn Hlayout HL HA)
    as (h' & Hrun & Hrec).
  exists h'. split; [exact Hrun|].
  split; [|split; [|split]].
  - intros i Hi. rewrite (Hrec i i) at 1 by lia.
    unfold cholesky_entry. rewrite Nat.eqb_refl. reflexivity.
  - intros i j Hij. rewrite (Hrec i j) at 1 by lia.
    unfold cholesky_entry.
    destruct (Nat.eqb_spec i j); [lia | reflexivity].
  - intros i Hi.
    apply (proj1 (@rows_factored n k (cell n A h) (cell n L h')
                    Hk Hsym Hpd Hrec i Hi)).
  - intros i j Hi Hj. unfold lower.
    apply (@factor_product n k (cell n A h) (cell n L h')
             Hk Hsym Hpd Hrec i j Hi Hj).
Qed.

Lemma spd2_symmetric : symmetric 2 (cell 2 1 Examples.spd2_memory).
Proof.
  intros i j Hi Hj.
  destruct i as [|[|i]]; [| |lia]; (destruct j as [|[|j]]; [| |lia]);
    reflexivity.
Qed.

Lemma spd2_positive_definite :
  positive_definite 2 (cell 2 1 Examples.spd2_memory).
Proof.
  intros x (i & Hi & Hx).
  unfold quadratic_form, cell. simpl.
  assert (Hnz : x 0 <> 0%R \/ x 1 <> 0%R)
    by (destruct i as [|[|i]]; [left | right | lia]; exact Hx).
  pose proof (Rle_0_sqr (x 0 + x 1)) as Hsum. unfold Rsqr in Hsum.
  pose proof (Rle_0_sqr (x 0)) as H0. unfold Rsqr in H0.
  pose proof (Rle_0_sqr (x 1)) as H1. unfold Rsqr in H1.
  destruct Hnz as [Hnz|Hnz];
    pose proof (Rsqr_pos_lt _ Hnz) as Hpos; unfold Rsqr in Hpos; nra.
Qed.

(** The 2 x 2 matrix ((2, 1), (1, 2)), decomposed in place with scale 3. *)
Lemma matrix_cholesky_decomp_scale_f_factorises_witness :
  (0 < 2
   /\ (Z.of_nat 2 * Z.of_nat 2 < 2 ^ 32)%Z
   /\ 1 <> NULL
   /\ cholesky_layout 2 1 1
   /\ symmetric 2 (cell 2 1 Examples.spd2_memory)
   /\ positive_definite 2 (cell 2 1 Examples.spd2_memory)
   /\ (0 < 3)%R)
  /\ exists h',
       matrix_cholesky_decomp_scale_f 2 1 1 3%R Examples.spd2_memory = Some h'
       /\ (forall i, i < 2 ->
             cell 2 1 h' i i
             = sqrt (Rminus
                       (Rmult 3 (cell 2 1 Examples.spd2_memory i i))
                       (sumR (fun p => Rmult (cell 2 1 h' i p)
                                             (cell 2 1 h' i p)) i)))
       /\ (forall i j, j < i < 2 ->
             cell 2 1 h' i j
             = Rdiv (Rminus
                       (Rmult 3 (cell 2 1 Examples.spd2_memory i j))
                       (sumR (fun p => Rmult (cell 2 1 h' i p)
                                             (cell 2 1 h' j p)) j))
                    (cell 2 1 h' j j))
       /\ (forall i, i < 2 -> Rlt 0 (cell 2 1 h' i i))
       /\ (forall i j, i < 2 -> j < 2 ->
             sumR (fun p => Rmult (lower 2 1 h' i p) (lower 2 1 h' j p)) 2
             = Rmult 3 (cell 2 1 Examples.spd2_memory i j)).
Proof.
  assert (H0 : 0 < 2) by lia.
  assert (H1 : (Z.of_nat 2 * Z.of_nat 2 < 2 ^ 32)%Z) by reflexivity.
  assert (H2 : 1 <> NULL) by discriminate.
  assert (H3 : cholesky_layout 2 1 1) by (left; reflexivity).
  assert (H4 : (0 < 3)%R) by lra.
  split.
  - repeat split; try assumption.
    + apply spd2_symmetric.
    + apply spd2_positive_definite.
  - exact (@matrix_cholesky_decomp_scale_f_factorises 2 1 1 3%R
             Examples.spd2_memory H0 H1 H2 H2 H3
             spd2_symmetric spd2_positive_definite H4).
Defined.

(** * Further properties *)

(** ** matrix_cholesky_decomp_scale_f in any arithmetic *)

Section CholeskyValueFacts.
Context {F : Type} {ops : FloatOps F}.
Variable k : F.

Lemma fsum_ext (f g : nat -> F) (m : nat) :
  (forall p, p < m -> f p = g p) -> fsum f m = fsum g m.
Proof.
  induction m as [|m IH]; intros H; [reflexivity|].
  simpl. rewrite IH by (intros p Hp; apply H; lia).
  rewrite H by lia. reflexivity.
Qed.

(** The value of entry (a, b) reads the input at (a, b) and (a, a) and the
    factor at (a, p), (b, p) for p < b, and at (b, b) off the diagonal. *)
Lemma cholesky_value_ext (a1 a2 l l' : nat -> nat -> F) (a b : nat) :
  b <= a ->
  a1 a b = a2 a b -> a1 a a = a2 a a ->
  (forall p, p < b -> l' a p = l a p /\ l' b p = l b p) ->
  (a <> b -> l' b b = l b b) ->
  cholesky_value k a1 l' a b = cholesky_value k a2 l a b.
Proof.
  intros Hba Hab Haa Hlow Hdiag. unfold cholesky_value.
  destruct (Nat.eqb_spec b 0) as [->|Hb0].
  - destruct (Nat.eqb_spec a 0) as [->|Ha0].
    + rewrite Haa. reflexivity.
    + rewrite Hab, (Hdiag Ha0). reflexivity.
  - cbv zeta.
    rewrite (fsum_ext (fun p => fmul (l' a p) (l' b p))
                      (fun p => fmul (l a p) (l b p)))
      by (intros p Hp; destruct (Hlow p Hp) as [-> ->]; reflexivity).
    destruct (Nat.eqb_spec a b) as [Heq|Hne].
    + rewrite Haa. reflexivity.
    + rewrite Hab, (Hdiag Hne). reflexivity.
Qed.
End CholeskyValueFacts.

Section CholeskyValues.
Context {F : Type} {ops : FloatOps F}.

Variable n : nat.
Variables L A : ptr.
Variable k : F.
Variable h0 : heap F.

Hypothesis n_pos : 0 < n.
Hypothesis layout : cholesky_layout n L A.

Let vinv := cholesky_values_inv n L A k h0.

Lemma cell_write_L (h : heap F) (i j a b : nat) (v : F) :
  i < n -> a < n ->
  cell n L (store h (L + (i + j * n)) v) a b
  = if Nat.eqb a i && Nat.eqb b j then v else cell n L h a b.
Proof.
  intros Hi Ha. unfold cell.
  destruct (Nat.eqb_spec a i) as [->|Hai]; simpl.
  - destruct (Nat.eqb_spec b j) as [->|Hbj].
    + apply store_same.
    + apply store_other. intros H.
      assert (i + b * n = i + j * n) as H' by lia.
      apply cell_address_inj in H'; try assumption. lia.
  - apply store_other. intros H.
    assert (a + b * n = i + j * n) as H' by lia.
    apply cell_address_inj in H'; try assumption. lia.
Qed.

Lemma cell_write_A (h : heap F) (i j a b : nat) (v : F) :
  j <= i < n -> b <= a < n -> (a, b) <> (i, j) ->
  cell n A (store h (L + (i + j * n)) v) a b = cell n A h a b.
Proof.
  intros Hij Hab Hne. unfold cell. apply store_other. intros H.
  destruct layout as [->|Hdis].
  - assert (a + b * n = i + j * n) as H' by lia.
    apply cell_address_inj in H'; try lia.
    destruct H' as [-> ->]. apply Hne. reflexivity.
  - unfold disjoint in Hdis.
    assert (a + b * n < n * n) by nia.
    assert (i + j * n < n * n) by nia.
    lia.
Qed.

Lemma cholesky_dot_fsum (i j : nat) (h : heap F) :
  cholesky_dot n L i j h
  = fsum (fun p => fmul (cell n L h i p) (cell n L h j p)) j.
Proof.
  unfold cholesky_dot, for_loop.
  destruct (@for_step_invariant F
              (fun kn s => fadd s (fmul (h (L + (i + kn))) (h (L + (j + kn)))))
              (fun kn s => exists p, p <= j /\ kn = p * n
                                     /\ s = fsum (fun p => fmul (cell n L h i p)
                                                                (cell n L h j p)) p)
              n (j * n) n_pos)
    with (fuel := j * n - 0) (i := 0) (s := @fzero F ops)
    as (kn & Hkn & p & Hp & Hkp & Hs).
  - intros kn s Hlt (p & Hp & -> & ->).
    exists (S p). split; [nia|]. split; [simpl; lia|].
    simpl. unfold cell. reflexivity.
  - lia.
  - exists 0. split; [lia|]. split; reflexivity.
  - assert (p = j) by nia. subst p. exact Hs.
Qed.

Lemma cholesky_values_inv_written (i j i' j' : nat) (h : heap F) :
  (forall a b, b <= a < n -> (written i j a b <-> written i' j' a b)) ->
  vinv i j h -> vinv i' j' h.
Proof.
  intros Heq [Hdone Htodo]. split.
  - intros a b Hab Hw. apply Hdone; [exact Hab | apply Heq; assumption].
  - intros a b Hab Hw. apply Htodo; [exact Hab|].
    intros Hw'. apply Hw. apply Heq; assumption.
Qed.

Lemma cholesky_value_step (i j : nat) (h : heap F) :
  j <= i < n ->
  vinv i j h ->
  vinv i (S j)
       (store h (L + (i + j * n))
              (cholesky_value k (cell n A h0) (cell n L h) i j)).
Proof.
  intros Hij [Hdone Htodo].
  set (v := cholesky_value k (cell n A h0) (cell n L h) i j).
  set (h' := store h (L + (i + j * n)) v).
  assert (Hcell : forall a b, a < n ->
            cell n L h' a b
            = if Nat.eqb a i && Nat.eqb b j then v else cell n L h a b)
    by (intros a b Ha; apply cell_write_L; lia).
  assert (Hframe : forall a b, b <= a < n ->
            (a < i \/ (a = i /\ b <= j)) ->
            cholesky_value k (cell n A h0) (cell n L h') a b
            = cholesky_value k (cell n A h0) (cell n L h) a b).
  { intros a b Hab Hbefore.
    apply cholesky_value_ext; [lia | reflexivity | reflexivity | |].
    - intros p Hp. rewrite !Hcell by lia. split.
      + destruct (Nat.eqb_spec a i); destruct (Nat.eqb_spec p j); simpl;
          try reflexivity; lia.
      + destruct (Nat.eqb_spec b i); destruct (Nat.eqb_spec p j); simpl;
          try reflexivity; lia.
    - intros Hne. rewrite Hcell by lia.
      destruct (Nat.eqb_spec b i); destruct (Nat.eqb_spec b j); simpl;
        try reflexivity; lia. }
  split.
  - intros a b Hab Hw. rewrite Hcell by lia.
    destruct (Nat.eqb_spec a i) as [->|Hai];
      [destruct (Nat.eqb_spec b j) as [->|Hbj]|]; simpl.
    + symmetry. apply Hframe; lia.
    + rewrite Hframe by (unfold written in Hw; lia).
      apply Hdone; [exact Hab | unfold written in *; lia].
    + rewrite Hframe by (unfold written in Hw; lia).
      apply Hdone; [exact Hab | unfold written in *; lia].
  - intros a b Hab Hw. unfold h'. rewrite cell_write_A.
    + apply Htodo; [exact Hab | unfold written in *; lia].
    + exact Hij.
    + exact Hab.
    + intros Heq. injection Heq as -> ->. apply Hw. unfold written. lia.
Qed.

Lemma cholesky_col_stores_value (i j : nat) (h : heap F) :
  1 <= j <= i -> i < n ->
  vinv i j h ->
  cholesky_col n L A k i (i * n) j (j * n, h)
  = ((j + 1) * n,
     store h (L + (i + j * n))
           (cholesky_value k (cell n A h0) (cell n L h) i j)).
Proof.
  intros Hj Hi [_ Htodo]. unfold cholesky_col.
  rewrite cholesky_dot_fsum.
  f_equal; [lia|]. f_equal.
  unfold cholesky_value.
  destruct (Nat.eqb_spec j 0) as [Hj0|_]; [lia|]. cbv zeta.
  destruct (Nat.eqb_spec i j) as [<-|Hne].
  - rewrite <- (Htodo i i) by (unfold written; lia). reflexivity.
  - rewrite <- (Htodo i j) by (unfold written; lia). reflexivity.
Qed.

Lemma cholesky_cols_store_values (i : nat) (h : heap F) :
  i < n ->
  vinv i 1 h ->
  exists h1,
    for_loop 1 (i + 1) 1 (cholesky_col n L A k i (i * n)) (n, h)
    = ((i + 1) * n, h1)
    /\ vinv i (S i) h1.
Proof.
  intros Hi Hinv.
  pose proof (@for_loop_invariant (nat * heap F)
                (cholesky_col n L A k i (i * n))
                (fun j st => fst st = j * n /\ vinv i j (snd st))
                1 (i + 1) (n, h)) as Hloop.
  destruct (for_loop 1 (i + 1) 1 (cholesky_col n L A k i (i * n)) (n, h))
    as [jn h1].
  destruct Hloop as [Hjn Hinv1].
  - lia.
  - split; [simpl; lia | exact Hinv].
  - intros j [jn' hj] Hj [Hjn' Hinvj]. simpl in Hjn', Hinvj. subst jn'.
    rewrite cholesky_col_stores_value by (try assumption; lia).
    split; [reflexivity|]. simpl snd.
    replace (j + 1) with (S j) by lia.
    apply cholesky_value_step; [lia | exact Hinvj].
  - simpl in Hjn, Hinv1. subst jn. exists h1. split; [reflexivity|].
    replace (S i) with (i + 1) by lia. exact Hinv1.
Qed.

Lemma cholesky_row_stores_values (i : nat) (h : heap F) :
  i < n ->
  vinv i 0 h ->
  exists h1,
    cholesky_row n L A k i (i * n, h) = ((i + 1) * n, h1)
    /\ vinv (S i) 0 h1.
Proof.
  intros Hi Hinv. unfold cholesky_row.
  assert (Hv0 : (if Nat.eqb i 0
                 then fsqrt (fmul (h (A + (i + i * n))) k)
                 else fmul (recip (h (L + 0))) (fmul (h (A + i)) k))
                = cholesky_value k (cell n A h0) (cell n L h) i 0).
  { destruct Hinv as [_ Htodo].
    unfold cholesky_value. simpl Nat.eqb at 2.
    destruct (Nat.eqb_spec i 0) as [->|Hne].
    - rewrite <- (Htodo 0 0) by (unfold written; lia). reflexivity.
    - rewrite <- (Htodo i 0) by (unfold written; lia).
      unfold cell. simpl. rewrite !Nat.add_0_r. reflexivity. }
  rewrite Hv0.
  destruct (@cholesky_cols_store_values i
              (store h (L + (i + 0))
                     (cholesky_value k (cell n A h0) (cell n L h) i 0)))
    as (h1 & Hloop & Hinv1).
  - exact Hi.
  - apply (cholesky_value_step (i := i) (j := 0)); [lia | exact Hinv].
  - rewrite Hloop. exists h1. split; [f_equal; lia|].
    apply cholesky_values_inv_written with (i := i) (j := S i);
      [|exact Hinv1].
    intros a b Hab. unfold written. lia.
Qed.

(** The decomposition returns, and every cell of the lower triangle of
    its result holds the value computed from the cells before it. *)
Lemma cholesky_computes_values :
  L <> NULL -> A <> NULL ->
  exists h',
    matrix_cholesky_decomp_scale_f n L A k h0 = Some h'
    /\ forall a b, b <= a < n ->
         cell n L h' a b
         = cholesky_value k (cell n A h0) (cell n L h') a b.
Proof.
  intros HL HA. unfold matrix_cholesky_decomp_scale_f.
  rewrite (nonnull_true HL), (nonnull_true HA).
  destruct (Nat.eqb_spec n 0) as [Hn0|_]; [lia|]. simpl assert. cbv iota.
  pose proof (@for_loop_invariant (nat * heap F)
                (cholesky_row n L A k)
                (fun i st => fst st = i * n /\ vinv i 0 (snd st))
                0 n (0, h0)) as Hloop.
  destruct (for_loop 0 n 1 (cholesky_row n L A k) (0, h0)) as [in_ h'].
  destruct Hloop as [_ [Hdone _]].
  - lia.
  - split; [reflexivity|]. split.
    + intros a b Hab Hw. unfold written in Hw. lia.
    + intros a b Hab _. reflexivity.
  - intros i [in' hi] Hi [Hin Hinvi]. simpl in Hin, Hinvi. subst in'.
    destruct (cholesky_row_stores_values (i := i) (h := hi))
      as (h1 & Hrow & Hinv1); [lia | exact Hinvi |].
    rewrite Hrow. split; [reflexivity|].
    replace (i + 1) with (S i) by lia. exact Hinv1.
  - exists h'. split; [reflexivity|].
    intros a b Hab. apply Hdone; [exact Hab | unfold written; lia].
Qed.
End CholeskyValues.

Section CholeskyFrame.
Context {F : Type} {ops : FloatOps F}.

Lemma lower_cell_intro (n : nat) (L : ptr) (i j : nat) :
  j <= i < n -> lower_cell n L (L + (i + j * n)).
Proof. intros H. exists i, j. split; [exact H | reflexivity]. Qed.

Lemma cholesky_col_frame (n : nat) (L A : ptr) (k : F) (h : heap F)
    (i j : nat) (st : nat * heap F) :
  j <= i < n ->
  fst st = j * n ->
  (forall q, ~ lower_cell n L q -> snd st q = h q) ->
  let st' := cholesky_col n L A k i (i * n) j st in
  fst st' = (j + 1) * n
  /\ forall q, ~ lower_cell n L q -> snd st' q = h q.
Proof.
  intros Hij Hjn Hframe. destruct st as [jn hj]. simpl in Hjn, Hframe.
  subst jn. unfold cholesky_col. cbv zeta. simpl fst. simpl snd.
  split; [lia|].
  intros q Hq. rewrite store_other.
  - apply Hframe. exact Hq.
  - intros ->. apply Hq. apply lower_cell_intro. exact Hij.
Qed.

Lemma cholesky_row_frame (n : nat) (L A : ptr) (k : F) (h : heap F)
    (i : nat) (st : nat * heap F) :
  i < n ->
  fst st = i * n ->
  (forall q, ~ lower_cell n L q -> snd st q = h q) ->
  let st' := cholesky_row n L A k i st in
  fst st' = (i + 1) * n
  /\ forall q, ~ lower_cell n L q -> snd st' q = h q.
Proof.
  intros Hi Hin Hframe. destruct st as [in_ hi]. simpl in Hin, Hframe.
  subst in_. unfold cholesky_row. cbv zeta.
  match goal with
  | |- context [for_loop 1 (i + 1) 1 ?body (n, ?hs)] =>
      pose proof (@for_loop_invariant (nat * heap F) body
                    (fun j st => fst st = j * n
                                 /\ forall q, ~ lower_cell n L q ->
                                              snd st q = h q)
                    1 (i + 1) (n, hs)) as Hloop;
      destruct (for_loop 1 (i + 1) 1 body (n, hs)) as [jn h1]
  end.
  destruct Hloop as [_ Hframe1].
  - lia.
  - split; [simpl; lia|]. simpl snd. intros q Hq. rewrite store_other.
    + apply Hframe. exact Hq.
    + intros ->. apply Hq.
      replace (i + 0) with (i + 0 * n) by lia.
      apply lower_cell_intro. lia.
  - intros j st Hj [Hjn Hfr].
    apply (@cholesky_col_frame n L A k h i j st); [lia | exact Hjn | exact Hfr].
  - simpl. split; [lia | exact Hframe1].
Qed.

Lemma cholesky_frame (n : nat) (L A : ptr) (k : F) (h h' : heap F) :
  matrix_cholesky_decomp_scale_f n L A k h = Some h' ->
  forall q, ~ lower_cell n L q -> h' q = h q.
Proof.
  unfold matrix_cholesky_decomp_scale_f.
  destruct (nonnull L && nonnull A && negb (Nat.eqb n 0)); simpl assert;
    [|discriminate].
  cbv iota. intros Hrun. injection Hrun as <-.
  pose proof (@for_loop_invariant (nat * heap F) (cholesky_row n L A k)
                (fun i st => fst st = i * n
                             /\ forall q, ~ lower_cell n L q ->
                                          snd st q = h q)
                0 n (0, h)) as Hloop.
  destruct Hloop as [_ Hframe].
  - lia.
  - split; [reflexivity|]. intros q _. reflexivity.
  - intros i st Hi [Hin Hfr].
    apply (@cholesky_row_frame n L A k h i st); [lia | exact Hin | exact Hfr].
  - exact Hframe.
Qed.

(** X1.  Whatever the arithmetic, for a dimension whose cell indices fit
    [unsigned int] (dim * dim < 2^32), the decomposition writes the cells
    of the lower triangle of L and nothing else: every other address
    keeps its value, in particular the cells of L above the diagonal and,
    when the buffers do not overlap, the whole of A. *)
Theorem matrix_cholesky_decomp_scale_f_writes_lower_triangle_only
    (n : nat) (L A : ptr) (k : F) (h h' : heap F) :
  (Z.of_nat n * Z.of_nat n < 2 ^ 32)%Z ->
  matrix_cholesky_decomp_scale_f n L A k h = Some h' ->
  (forall q, ~ lower_cell n L q -> h' q = h q)
  /\ (forall i j, i < j -> j < n -> cell n L h' i j = cell n L h i j)
  /\ (disjoint L (n * n) A (n * n) ->
      forall i j, i < n -> j < n -> cell n A h' i j = cell n A h i j).
Proof.
  intros _ Hrun.
  pose proof (@cholesky_frame n L A k h h' Hrun) as Hframe.
  split; [exact Hframe|]. split.
  - intros i j Hij Hj. unfold cell. apply Hframe.
    intros (a & b & Hab & Heq).
    assert (i + j * n = a + b * n) as H' by lia.
    apply cell_address_inj in H'; try lia.
  - intros Hdis i j Hi Hj. unfold cell. apply Hframe.
    intros (a & b & Hab & Heq). unfold disjoint in Hdis.
    assert (i + j * n < n * n) by nia.
    assert (a + b * n < n * n) by nia.
    lia.
Qed.

(** The recurrence has one solution, which only depends on the lower
    triangle of the input. *)
Lemma cholesky_value_unique (n : nat) (k : F)
    (a1 a2 l1 l2 : nat -> nat -> F) :
  (forall a b, b <= a < n -> a1 a b = a2 a b) ->
  (forall a b, b <= a < n -> l1 a b = cholesky_value k a1 l1 a b) ->
  (forall a b, b <= a < n -> l2 a b = cholesky_value k a2 l2 a b) ->
  forall a b, b <= a < n -> l1 a b = l2 a b.
Proof.
  intros Ha H1 H2 a.
  induction a as [a IHa] using lt_wf_ind. intros b.
  induction b as [b IHb] using lt_wf_ind. intros Hab.
  rewrite H1, H2 by exact Hab.
  apply cholesky_value_ext.
  - lia.
  - apply Ha. exact Hab.
  - apply Ha. lia.
  - intros p Hp. split.
    + apply IHb; lia.
    + destruct (Nat.eq_dec b a) as [->|Hne].
      * apply IHb; lia.
      * apply IHa; lia.
  - intros Hne. apply IHa; lia.
Qed.

(** X2.  Whatever the arithmetic, for a dimension whose cell indices fit
    [unsigned int] (dim * dim < 2^32), the lower triangle of the result is
    determined by the lower triangle of A (cells A[i + j*dim], j <= i) and
    by the scale: two calls whose inputs agree there give the same factor,
    wherever the buffers are; in particular decomposing in place (L = A)
    and into a separate buffer agree. *)
Theorem matrix_cholesky_decomp_scale_f_reads_lower_triangle_only
    (n : nat) (k : F) (L1 A1 L2 A2 : ptr) (h1 h2 : heap F) :
  0 < n ->
  (Z.of_nat n * Z.of_nat n < 2 ^ 32)%Z ->
  L1 <> NULL -> A1 <> NULL -> L2 <> NULL -> A2 <> NULL ->
  cholesky_layout n L1 A1 ->
  cholesky_layout n L2 A2 ->
  (forall i j, j <= i < n -> cell n A1 h1 i j = cell n A2 h2 i j) ->
  exists r1 r2,
    matrix_cholesky_decomp_scale_f n L1 A1 k h1 = Some r1
    /\ matrix_cholesky_decomp_scale_f n L2 A2 k h2 = Some r2
    /\ forall i j, j <= i < n -> cell n L1 r1 i j = cell n L2 r2 i j.
Proof.
  intros Hn _ HL1 HA1 HL2 HA2 Hlay1 Hlay2 Hsame.
  destruct (@cholesky_computes_values F ops n L1 A1 k h1 Hn Hlay1 HL1 HA1)
    as (r1 & Hrun1 & Hrec1).
  destruct (@cholesky_computes_values F ops n L2 A2 k h2 Hn Hlay2 HL2 HA2)
    as (r2 & Hrun2 & Hrec2).
  exists r1, r2. split; [exact Hrun1|]. split; [exact Hrun2|].
  apply (@cholesky_value_unique n k (cell n A1 h1) (cell n A2 h2));
    assumption.
Qed.
End CholeskyFrame.

(** *** At binary32: a negative leading entry *)

Section CholeskyNaN.
Lemma b32_fmul_nan_l (y : spec_float) : fmul S754_nan y = S754_nan.
Proof. destruct y; reflexivity. Qed.

Lemma b32_fmul_nan_r (x : spec_float) : fmul x S754_nan = S754_nan.
Proof. destruct x; reflexivity. Qed.

Lemma b32_fadd_nan_l (y : spec_float) : fadd S754_nan y = S754_nan.
Proof. destruct y; reflexivity. Qed.

Lemma b32_fadd_nan_r (x : spec_float) : fadd x S754_nan = S754_nan.
Proof. destruct x; reflexivity. Qed.

Lemma b32_fsub_nan_r (x : spec_float) : fsub x S754_nan = S754_nan.
Proof. destruct x; reflexivity. Qed.

Lemma b32_recip_nan : recip S754_nan = S754_nan.
Proof. reflexivity. Qed.

Lemma b32_fsqrt_nan : fsqrt S754_nan = S754_nan.
Proof. reflexivity. Qed.

Lemma b32_fsqrt_negative (x : spec_float) :
  fltb x fzero = true -> fsqrt x = S754_nan.
Proof.
  destruct x as [s|s| |s m e]; simpl; try discriminate;
    destruct s; try discriminate; reflexivity.
Qed.

Lemma b32_fsum_nan (f : nat -> spec_float) (m : nat) :
  f 0 = S754_nan -> 0 < m -> fsum f m = S754_nan.
Proof.
  intros Hf Hm. destruct m as [|m]; [lia|]. clear Hm.
  induction m as [|m IH].
  - simpl. rewrite Hf. reflexivity.
  - change (fsum f (S (S m))) with (fadd (fsum f (S m)) (f (S m))).
    rewrite IH. apply b32_fadd_nan_l.
Qed.

(** X3.  At binary32, for a dimension whose cell indices fit
    [unsigned int] (dim * dim < 2^32), when the scaled leading entry
    A[0]*mul is negative the decomposition still returns, and every cell
    of the lower triangle of L is NaN. *)
Theorem matrix_cholesky_decomp_scale_f_negative_leading_entry
    (n : nat) (L A : ptr) (k : spec_float) (h : heap spec_float) :
  0 < n ->
  (Z.of_nat n * Z.of_nat n < 2 ^ 32)%Z ->
  L <> NULL -> A <> NULL ->
  cholesky_layout n L A ->
  fltb (fmul (cell n A h 0 0) k) fzero = true ->
  exists h',
    matrix_cholesky_decomp_scale_f n L A k h = Some h'
    /\ forall i j, j <= i < n -> cell n L h' i j = S754_nan.
Proof.
  intros Hn _ HL HA Hlay Hneg.
  destruct (@cholesky_computes_values spec_float b32_ops n L A k h
              Hn Hlay HL HA) as (h' & Hrun & Hrec).
  exists h'. split; [exact Hrun|].
  assert (H00 : cell n L h' 0 0 = S754_nan).
  { rewrite Hrec by lia. unfold cholesky_value. simpl Nat.eqb. cbv iota.
    apply b32_fsqrt_negative. exact Hneg. }
  assert (Hcol0 : forall i, i < n -> cell n L h' i 0 = S754_nan).
  { intros i Hi. destruct (Nat.eq_dec i 0) as [->|Hne]; [exact H00|].
    rewrite Hrec by lia. unfold cholesky_value. simpl Nat.eqb at 1.
    cbv iota. destruct (Nat.eqb_spec i 0) as [|_]; [contradiction|].
    rewrite H00, b32_recip_nan. apply b32_fmul_nan_l. }
  intros i j Hij. destruct (Nat.eq_dec j 0) as [->|Hj0].
  - apply Hcol0. lia.
  - rewrite Hrec by lia. unfold cholesky_value.
    destruct (Nat.eqb_spec j 0) as [|_]; [contradiction|]. cbv zeta.
    rewrite b32_fsum_nan.
    + destruct (Nat.eqb i j).
      * rewrite b32_fsub_nan_r. apply b32_fsqrt_nan.
      * rewrite b32_fsub_nan_r. apply b32_fmul_nan_r.
    + rewrite !Hcol0 by lia. reflexivity.
    + lia.
Qed.
End CholeskyNaN.

(** *** Over real arithmetic: diagonal matrices *)

Section CholeskyDiagonal.
Open Scope R_scope.

Lemma cholesky_diagonal_factor
    (n : nat) (L A : ptr) (k : R) (h : heap R) :
  (0 < n)%nat ->
  L <> NULL -> A <> NULL ->
  cholesky_layout n L A ->
  0 < k ->
  (forall i, (i < n)%nat -> 0 < cell n A h i i) ->
  (forall i j, (j < i < n)%nat -> cell n A h i j = 0) ->
  exists h',
    matrix_cholesky_decomp_scale_f n L A k h = Some h'
    /\ (forall i, (i < n)%nat ->
          cell n L h' i i = sqrt (k * cell n A h i i)
          /\ 0 < cell n L h' i i)
    /\ (forall i j, (j < i < n)%nat -> cell n L h' i j = 0).
Proof.
  intros Hn HL HA Hlay Hk Hdiag Hoff.
  destruct (@cholesky_computes_recurrence n L A k h Hn Hlay HL HA)
    as (h' & Hrun & Hrec).
  exists h'. split; [exact Hrun|].
  assert (Hzero : forall i j, (j < i < n)%nat -> cell n L h' i j = 0).
  { intros i j. revert i.
    induction j as [j IH] using lt_wf_ind. intros i Hij.
    rewrite Hrec by lia. unfold cholesky_entry.
    destruct (Nat.eqb_spec i j); [lia|].
    unfold cholesky_offdiag.
    rewrite Hoff by lia.
    rewrite sumR_zero.
    - unfold Rdiv. ring.
    - intros p Hp. rewrite (IH p Hp i) by lia. ring. }
  split; [|exact Hzero].
  intros i Hi.
  assert (Hii : cell n L h' i i = sqrt (k * cell n A h i i)).
  { rewrite Hrec by lia. unfold cholesky_entry. rewrite Nat.eqb_refl.
    unfold cholesky_diag. rewrite sumR_zero.
    - f_equal. ring.
    - intros p Hp. rewrite Hzero by lia. ring. }
  split; [exact Hii|].
  rewrite Hii. apply sqrt_lt_R0. apply Rmult_lt_0_compat; [exact Hk|].
  apply Hdiag. exact Hi.
Qed.

(** X4.  Over real arithmetic, for a dimension whose cell indices fit
    [unsigned int] (dim * dim < 2^32), a scale k > 0 and an input whose
    lower triangle is diagonal with positive diagonal entries, the factor
    is diagonal: L[i,i] = sqrt(k A[i,i]) > 0 and L[i,j] = 0 below the
    diagonal. *)
Theorem matrix_cholesky_decomp_scale_f_of_diagonal
    (n : nat) (L A : ptr) (k : R) (h : heap R) :
  (0 < n)%nat ->
  (Z.of_nat n * Z.of_nat n < 2 ^ 32)%Z ->
  L <> NULL -> A <> NULL ->
  cholesky_layout n L A ->
  0 < k ->
  (forall i, (i < n)%nat -> 0 < cell n A h i i) ->
  (forall i j, (j < i < n)%nat -> cell n A h i j = 0) ->
  exists h',
    matrix_cholesky_decomp_scale_f n L A k h = Some h'
    /\ (forall i, (i < n)%nat ->
          cell n L h' i i = sqrt (k * cell n A h i i)
          /\ 0 < cell n L h' i i)
    /\ (forall i j, (j < i < n)%nat -> cell n L h' i j = 0).
Proof.
  intros Hn _. exact (@cholesky_diagonal_factor n L A k h Hn).
Qed.

Lemma TRICAL_init_covariance_cells {F : Type} {ops : FloatOps F}
    (x : TRICAL_instance_t F) (i j : nat) :
  (i < 9)%nat -> (j < 9)%nat ->
  state_covariance (TRICAL_init x) (i * 9 + j)
  = if Nat.eqb i j then lit_1em2 else fzero.
Proof.
  intros Hi Hj.
  do 9 (destruct i as [|i];
        [do 9 (destruct j as [|j]; [reflexivity|]); lia|]).
  lia.
Qed.

(** X5.  The seed of [TRICAL_init] does what its comment says: over real
    arithmetic, the decomposition of the covariance of a freshly
    initialised instance, scaled by any k > 0, returns with the positive
    pivots sqrt(k / 100) and zeros below the diagonal. *)
Theorem TRICAL_init_covariance_decomposes
    (x : TRICAL_instance_t R) (L A : ptr) (k : R) (h : heap R) :
  L <> NULL -> A <> NULL ->
  cholesky_layout 9 L A ->
  covariance_at A (TRICAL_init x) h ->
  0 < k ->
  exists h',
    matrix_cholesky_decomp_scale_f TRICAL_STATE_DIM L A k h = Some h'
    /\ (forall i, (i < 9)%nat ->
          cell 9 L h' i i = sqrt (k / 100) /\ 0 < cell 9 L h' i i)
    /\ (forall i j, (j < i < 9)%nat -> cell 9 L h' i j = 0).
Proof.
  intros HL HA Hlay Hcov Hk.
  assert (Hcell : forall i j, (i < 9)%nat -> (j < 9)%nat ->
            cell 9 A h i j = if Nat.eqb j i then / 100 else 0).
  { intros i j Hi Hj. unfold cell. rewrite Hcov by lia.
    replace (i + j * 9)%nat with (j * 9 + i)%nat by lia.
    apply (@TRICAL_init_covariance_cells R R_ops x j i Hj Hi). }
  destruct (@cholesky_diagonal_factor 9 L A k h) as (h' & Hrun & Hd & Ho);
    try assumption.
  - lia.
  - intros i Hi. rewrite Hcell by lia. rewrite Nat.eqb_refl. lra.
  - intros i j Hij. rewrite Hcell by lia.
    destruct (Nat.eqb_spec j i); [lia | reflexivity].
  - exists h'. split; [exact Hrun|]. split; [|exact Ho].
    intros i Hi. destruct (Hd i Hi) as [Hv Hp]. split; [|exact Hp].
    rewrite Hv, Hcell by lia. rewrite Nat.eqb_refl. reflexivity.
Qed.
End CholeskyDiagonal.

(** *** The statements at concrete inputs *)

Lemma matrix_cholesky_decomp_scale_f_writes_lower_triangle_only_witness :
  exists h',
    ((Z.of_nat 4 * Z.of_nat 4 < 2 ^ 32)%Z
     /\ matrix_cholesky_decomp_scale_f 4 17 1 (B32.of_Z 1)
          (CholeskyTest.m1_at 1) = Some h')
    /\ (forall q, ~ lower_cell 4 17 q -> h' q = CholeskyTest.m1_at 1 q)
    /\ (forall i j, i < j -> j < 4 ->
          cell 4 17 h' i j = cell 4 17 (CholeskyTest.m1_at 1) i j)
    /\ (disjoint 17 (4 * 4) 1 (4 * 4) ->
        forall i j, i < 4 -> j < 4 ->
          cell 4 1 h' i j = cell 4 1 (CholeskyTest.m1_at 1) i j).
Proof.
  eexists. split; [split; reflexivity|].
  apply (@matrix_cholesky_decomp_scale_f_writes_lower_triangle_only
           spec_float b32_ops 4 17 1 (B32.of_Z 1) (CholeskyTest.m1_at 1)).
  - reflexivity.
  - reflexivity.
Defined.

Lemma matrix_cholesky_decomp_scale_f_reads_lower_triangle_only_witness :
  (0 < 4 /\ (Z.of_nat 4 * Z.of_nat 4 < 2 ^ 32)%Z /\ 1 <> NULL /\ 17 <> NULL
   /\ cholesky_layout 4 1 1 /\ cholesky_layout 4 17 1)
  /\ exists r1 r2,
       matrix_cholesky_decomp_scale_f 4 1 1 (B32.of_Z 1)
         (CholeskyTest.m1_at 1) = Some r1
       /\ matrix_cholesky_decomp_scale_f 4 17 1 (B32.of_Z 1)
            (CholeskyTest.m1_at 1) = Some r2
       /\ forall i j, j <= i < 4 -> cell 4 1 r1 i j = cell 4 17 r2 i j.
Proof.
  assert (H0 : 0 < 4) by lia.
  assert (Hb : (Z.of_nat 4 * Z.of_nat 4 < 2 ^ 32)%Z) by reflexivity.
  assert (H1 : 1 <> NULL) by discriminate.
  assert (H17 : 17 <> NULL) by discriminate.
  assert (Hin : cholesky_layout 4 1 1) by (left; reflexivity).
  assert (Hout : cholesky_layout 4 17 1)
    by (right; unfold disjoint; simpl; lia).
  split; [repeat split; assumption|].
  apply (@matrix_cholesky_decomp_scale_f_reads_lower_triangle_only
           spec_float b32_ops 4 (B32.of_Z 1) 1 1 17 1
           (CholeskyTest.m1_at 1) (CholeskyTest.m1_at 1)
           H0 Hb H1 H1 H17 H1 Hin Hout).
  intros i j _. reflexivity.
Defined.

Lemma matrix_cholesky_decomp_scale_f_negative_leading_entry_witness :
  (0 < 2 /\ (Z.of_nat 2 * Z.of_nat 2 < 2 ^ 32)%Z /\ 1 <> NULL
   /\ cholesky_layout 2 1 1
   /\ fltb (fmul (cell 2 1 MoreExamples.negative_memory 0 0) (B32.of_Z 1))
           fzero = true)
  /\ exists h',
       matrix_cholesky_decomp_scale_f 2 1 1 (B32.of_Z 1)
         MoreExamples.negative_memory = Some h'
       /\ forall i j, j <= i < 2 -> cell 2 1 h' i j = S754_nan.
Proof.
  assert (H0 : 0 < 2) by lia.
  assert (Hb : (Z.of_nat 2 * Z.of_nat 2 < 2 ^ 32)%Z) by reflexivity.
  assert (H1 : 1 <> NULL) by discriminate.
  assert (Hin : cholesky_layout 2 1 1) by (left; reflexivity).
  assert (Hneg : fltb (fmul (cell 2 1 MoreExamples.negative_memory 0 0)
                            (B32.of_Z 1)) fzero = true)
    by (vm_compute; reflexivity).
  split; [repeat split; assumption|].
  exact (@matrix_cholesky_decomp_scale_f_negative_leading_entry
           2 1 1 (B32.of_Z 1) MoreExamples.negative_memory
           H0 Hb H1 H1 Hin Hneg).
Defined.

Lemma diag2_diagonal :
  (forall i, i < 2 -> Rlt 0 (cell 2 1 MoreExamples.diag2_memory i i))
  /\ (forall i j, j < i < 2 -> cell 2 1 MoreExamples.diag2_memory i j = 0%R).
Proof.
  split.
  - intros i Hi. destruct i as [|[|i]]; [| |lia]; unfold cell; simpl; lra.
  - intros i j Hij.
    assert (i = 1 /\ j = 0) as [-> ->] by lia. reflexivity.
Qed.

Lemma matrix_cholesky_decomp_scale_f_of_diagonal_witness :
  (0 < 2 /\ (Z.of_nat 2 * Z.of_nat 2 < 2 ^ 32)%Z /\ 1 <> NULL
   /\ cholesky_layout 2 1 1 /\ (0 < 1)%R
   /\ (forall i, i < 2 -> Rlt 0 (cell 2 1 MoreExamples.diag2_memory i i))
   /\ (forall i j, j < i < 2 ->
         cell 2 1 MoreExamples.diag2_memory i j = 0%R))
  /\ exists h',
       matrix_cholesky_decomp_scale_f 2 1 1 1%R MoreExamples.diag2_memory
       = Some h'
       /\ (forall i, i < 2 ->
             cell 2 1 h' i i
             = sqrt (Rmult 1 (cell 2 1 MoreExamples.diag2_memory i i))
             /\ Rlt 0 (cell 2 1 h' i i))
       /\ (forall i j, j < i < 2 -> cell 2 1 h' i j = 0%R).
Proof.
  assert (H0 : 0 < 2) by lia.
  assert (Hb : (Z.of_nat 2 * Z.of_nat 2 < 2 ^ 32)%Z) by reflexivity.
  assert (H1 : 1 <> NULL) by discriminate.
  assert (Hin : cholesky_layout 2 1 1) by (left; reflexivity).
  assert (Hk : (0 < 1)%R) by lra.
  destruct diag2_diagonal as [Hd Ho].
  split; [repeat split; assumption|].
  exact (@matrix_cholesky_decomp_scale_f_of_diagonal
           2 1 1 1%R MoreExamples.diag2_memory H0 Hb H1 H1 Hin Hk Hd Ho).
Defined.

Lemma fresh_covariance_memory_holds :
  covariance_at 1 (TRICAL_init (@instance_zero R R_ops))
    MoreExamples.fresh_covariance_memory.
Proof.
  intros q Hq. unfold MoreExamples.fresh_covariance_memory.
  destruct (Nat.leb_spec 1 (1 + q)); [|lia].
  destruct (Nat.leb_spec (1 + q) 81); [|lia].
  simpl andb. cbv iota.
  replace (1 + q - 1) with q by lia. reflexivity.
Qed.

Lemma TRICAL_init_covariance_decomposes_witness :
  (1 <> NULL /\ cholesky_layout 9 1 1
   /\ covariance_at 1 (TRICAL_init (@instance_zero R R_ops))
        MoreExamples.fresh_covariance_memory
   /\ (0 < 3)%R)
  /\ exists h',
       matrix_cholesky_decomp_scale_f TRICAL_STATE_DIM 1 1 3%R
         MoreExamples.fresh_covariance_memory = Some h'
       /\ (forall i, i < 9 ->
             cell 9 1 h' i i = sqrt (Rdiv 3 100) /\ Rlt 0 (cell 9 1 h' i i))
       /\ (forall i j, j < i < 9 -> cell 9 1 h' i j = 0%R).
Proof.
  assert (H1 : 1 <> NULL) by discriminate.
  assert (Hin : cholesky_layout 9 1 1) by (left; reflexivity).
  assert (Hk : (0 < 3)%R) by lra.
  split; [repeat split; try assumption; apply fresh_covariance_memory_holds|].
  exact (@TRICAL_init_covariance_decomposes
           (@instance_zero R R_ops) 1 1 3%R
           MoreExamples.fresh_covariance_memory
           H1 H1 Hin fresh_covariance_memory_holds Hk).
Defined.

(** ** The configuration setters and getters *)

Section SetterFacts.
Context {F : Type} {ops : FloatOps F}.

(** Every call of [TRICAL_norm_set] that returns either returned early or
    rescaled. *)
Lemma TRICAL_norm_set_cases (x y : TRICAL_instance_t F) (norm : F) :
  TRICAL_norm_set x norm = Some y ->
  fltb fzero norm = true
  /\ ((fltb (fabs (fsub norm (field_norm x))) FLT_EPSILON = true /\ y = x)
      \/ (fltb (fabs (fsub norm (field_norm x))) FLT_EPSILON = false
          /\ field_norm y = norm
          /\ measurement_noise y = measurement_noise x
          /\ measurement_count y = measurement_count x
          /\ (forall k, state y k
                        = if k <? 9
                          then fmul (state x k) (fdiv norm (field_norm x))
                          else state x k)
          /\ (forall k, state_covariance y k
                        = if k <? 81
                          then fmul (state_covariance x k)
                                    (fdiv (fmul norm norm)
                                          (fmul (field_norm x) (field_norm x)))
                          else state_covariance x k))).
Proof.
  intros Hrun.
  destruct (fltb fzero norm) eqn:Hpos.
  - split; [reflexivity|].
    destruct (fltb (fabs (fsub norm (field_norm x))) FLT_EPSILON) eqn:Heps.
    + left. split; [reflexivity|].
      rewrite (TRICAL_norm_set_returns_early x norm Hpos Heps) in Hrun.
      injection Hrun as <-. reflexivity.
    + right. split; [reflexivity|].
      destruct (TRICAL_norm_set_rescales x norm Hpos Heps)
        as (y' & Hy' & Hrest).
      rewrite Hy' in Hrun. injection Hrun as <-. exact Hrest.
  - unfold TRICAL_norm_set in Hrun. rewrite Hpos in Hrun. discriminate.
Qed.

(** X6.  Whatever the arithmetic, [TRICAL_norm_set] keeps the covariance
    symmetric: it multiplies all 81 cells by the same factor, or none. *)
Theorem TRICAL_norm_set_keeps_covariance_symmetric
    (x y : TRICAL_instance_t F) (norm : F) :
  TRICAL_norm_set x norm = Some y ->
  (forall i j, i < 9 -> j < 9 ->
     covariance_matrix x i j = covariance_matrix x j i) ->
  forall i j, i < 9 -> j < 9 ->
    covariance_matrix y i j = covariance_matrix y j i.
Proof.
  intros Hrun Hsym i j Hi Hj.
  destruct (TRICAL_norm_set_cases x norm Hrun)
    as (_ & [(_ & ->)|(_ & _ & _ & _ & _ & Hcov)]).
  - apply Hsym; assumption.
  - unfold covariance_matrix. rewrite !Hcov.
    destruct (Nat.ltb_spec (i * 9 + j) 81); [|lia].
    destruct (Nat.ltb_spec (j * 9 + i) 81); [|lia].
    f_equal. apply Hsym; assumption.
Qed.

(** X7.  Whatever the arithmetic, the two setters commute: setting the
    norm and then the noise gives, field by field and cell by cell, the
    instance that setting the noise and then the norm gives. *)
Theorem TRICAL_norm_set_noise_set_commute
    (x : TRICAL_instance_t F) (norm noise : F) :
  fltb fzero norm = true ->
  fltb fzero noise = true ->
  exists a y b z,
    TRICAL_norm_set x norm = Some a
    /\ TRICAL_noise_set a noise = Some y
    /\ TRICAL_noise_set x noise = Some b
    /\ TRICAL_norm_set b norm = Some z
    /\ field_norm y = field_norm z
    /\ measurement_noise y = measurement_noise z
    /\ measurement_noise y = noise
    /\ measurement_count y = measurement_count z
    /\ (forall k, state y k = state z k)
    /\ (forall k, state_covariance y k = state_covariance z k).
Proof.
  intros Hnorm Hnoise.
  set (b := set_measurement_noise noise x).
  assert (Hb : TRICAL_noise_set x noise = Some b)
    by (unfold TRICAL_noise_set; rewrite Hnoise; reflexivity).
  destruct (fltb (fabs (fsub norm (field_norm x))) FLT_EPSILON) eqn:Heps.
  - exists x, b, b, b.
    split; [apply TRICAL_norm_set_returns_early; assumption|].
    split; [exact Hb|]. split; [exact Hb|].
    split; [apply TRICAL_norm_set_returns_early; assumption|].
    repeat split.
  - destruct (TRICAL_norm_set_rescales x norm Hnorm Heps)
      as (a & Ha & Hfa & Hna & Hca & Hsa & Hva).
    destruct (TRICAL_norm_set_rescales b norm Hnorm Heps)
      as (z & Hz & Hfz & Hnz & Hcz & Hsz & Hvz).
    exists a, (set_measurement_noise noise a), b, z.
    split; [exact Ha|].
    split; [unfold TRICAL_noise_set; rewrite Hnoise; reflexivity|].
    split; [exact Hb|]. split; [exact Hz|].
    simpl. repeat split.
    + congruence.
    + rewrite Hnz. reflexivity.
    + rewrite Hcz, Hca. reflexivity.
    + intros k. rewrite Hsa, Hsz. reflexivity.
    + intros k. rewrite Hva, Hvz. reflexivity.
Qed.
End SetterFacts.

Section SetterReal.
Open Scope R_scope.

(** X8.  Over real arithmetic, what the getters return after a setter:
    [TRICAL_norm_set] with norm > 0 returns, and the field norm is then
    within FLT_EPSILON of the requested one, and equal to it when the
    request was at least FLT_EPSILON away from the old norm;
    [TRICAL_noise_set] with noise > 0 returns, the measurement noise is
    then the requested one and the field norm is untouched. *)
Theorem setters_then_getters (x : TRICAL_instance_t R) (v : R) :
  0 < v ->
  (exists y,
     TRICAL_norm_set x v = Some y
     /\ Rabs (TRICAL_norm_get y - v) < FLT_EPSILON
     /\ (FLT_EPSILON <= Rabs (v - field_norm x) -> TRICAL_norm_get y = v)
     /\ TRICAL_noise_get y = TRICAL_noise_get x)
  /\ (exists y,
        TRICAL_noise_set x v = Some y
        /\ TRICAL_noise_get y = v
        /\ TRICAL_norm_get y = TRICAL_norm_get x).
Proof.
  intros Hv.
  assert (Hpos : @fltb R R_ops fzero v = true)
    by (simpl; apply Rltb_true; exact Hv).
  split.
  - destruct (Rlt_dec (Rabs (v - field_norm x)) FLT_EPSILON) as [Hnear|Hfar].
    + exists x.
      split; [apply TRICAL_norm_set_returns_early;
              [exact Hpos | apply R_epsilon_test_true; exact Hnear]|].
      unfold TRICAL_norm_get, TRICAL_noise_get.
      split; [rewrite Rabs_minus_sym; exact Hnear|].
      split; [intros Hge; lra | reflexivity].
    + destruct (@TRICAL_norm_set_rescales R R_ops x v Hpos)
        as (y & Hy & Hfn & Hns & _).
      { apply R_epsilon_test_false. lra. }
      exists y. split; [exact Hy|].
      unfold TRICAL_norm_get, TRICAL_noise_get. rewrite Hfn.
      replace (v - v) with 0 by ring. rewrite Rabs_R0.
      split; [simpl; lra|]. split; [reflexivity | exact Hns].
  - exists (set_measurement_noise v x).
    split; [unfold TRICAL_noise_set; rewrite Hpos; reflexivity|].
    split; reflexivity.
Qed.

(** X9.  Over real arithmetic, two rescalings compose: when the old norm
    f0 > 0 and the norms n1, n2 > 0 are pairwise at least FLT_EPSILON
    apart, setting n1 and then n2 gives the state, the covariance and the
    field norm that setting n2 at once gives. *)
Theorem TRICAL_norm_set_twice (x : TRICAL_instance_t R) (n1 n2 : R) :
  0 < field_norm x -> 0 < n1 -> 0 < n2 ->
  FLT_EPSILON <= Rabs (n1 - field_norm x) ->
  FLT_EPSILON <= Rabs (n2 - n1) ->
  FLT_EPSILON <= Rabs (n2 - field_norm x) ->
  exists y z w,
    TRICAL_norm_set x n1 = Some y
    /\ TRICAL_norm_set y n2 = Some z
    /\ TRICAL_norm_set x n2 = Some w
    /\ field_norm z = field_norm w
    /\ (forall i, state z i = state w i)
    /\ (forall q, state_covariance z q = state_covariance w q).
Proof.
  intros Hf0 Hn1 Hn2 H10 H21 H20.
  assert (Hpos1 : @fltb R R_ops fzero n1 = true)
    by (simpl; apply Rltb_true; exact Hn1).
  assert (Hpos2 : @fltb R R_ops fzero n2 = true)
    by (simpl; apply Rltb_true; exact Hn2).
  destruct (@TRICAL_norm_set_rescales R R_ops x n1 Hpos1
              (R_epsilon_test_false _ _ H10))
    as (y & Hy & Hfy & _ & _ & Hsy & Hvy).
  destruct (@TRICAL_norm_set_rescales R R_ops y n2 Hpos2)
    as (z & Hz & Hfz & _ & _ & Hsz & Hvz).
  { apply R_epsilon_test_false. rewrite Hfy. exact H21. }
  destruct (@TRICAL_norm_set_rescales R R_ops x n2 Hpos2
              (R_epsilon_test_false _ _ H20))
    as (w & Hw & Hfw & _ & _ & Hsw & Hvw).
  exists y, z, w. repeat split; try assumption.
  - congruence.
  - intros i. rewrite Hsz, Hsy, Hsw, Hfy.
    destruct (Nat.ltb_spec i 9); [|reflexivity].
    simpl fmul. simpl fdiv. field. split; lra.
  - intros q. rewrite Hvz, Hvy, Hvw, Hfy.
    destruct (Nat.ltb_spec q 81); [|reflexivity].
    simpl fmul. simpl fdiv. field. split; lra.
Qed.

Lemma quadratic_form_scaled (n : nat) (M M' : nat -> nat -> R)
    (c : R) (v : nat -> R) :
  (forall i j, (i < n)%nat -> (j < n)%nat -> M' i j = M i j * c) ->
  quadratic_form n M' v = c * quadratic_form n M v.
Proof.
  intros HM. unfold quadratic_form.
  rewrite <- sumR_scal. apply sumR_ext. intros i Hi.
  rewrite <- sumR_scal. apply sumR_ext. intros j Hj.
  rewrite HM by assumption. ring.
Qed.

(** X10.  Over real arithmetic, [TRICAL_norm_set] keeps the covariance
    symmetric positive definite, that is, fit for the Cholesky
    decomposition of the next update. *)
Theorem TRICAL_norm_set_keeps_covariance_positive_definite
    (x y : TRICAL_instance_t R) (v : R) :
  0 < field_norm x ->
  TRICAL_norm_set x v = Some y ->
  symmetric 9 (covariance_matrix x) ->
  positive_definite 9 (covariance_matrix x) ->
  symmetric 9 (covariance_matrix y)
  /\ positive_definite 9 (covariance_matrix y).
Proof.
  intros Hf0 Hrun Hsym Hpd.
  destruct (TRICAL_norm_set_cases x v Hrun)
    as (Hpos & [(_ & ->)|(_ & _ & _ & _ & _ & Hcov)]).
  - split; assumption.
  - apply Rltb_lt in Hpos. simpl in Hpos.
    assert (Hc : 0 < v * v / (field_norm x * field_norm x)).
    { apply Rdiv_lt_0_compat; apply Rmult_lt_0_compat; assumption. }
    assert (HM : forall i j, (i < 9)%nat -> (j < 9)%nat ->
              covariance_matrix y i j
              = covariance_matrix x i j
                * (v * v / (field_norm x * field_norm x))).
    { intros i j Hi Hj. unfold covariance_matrix. rewrite Hcov.
      destruct (Nat.ltb_spec (i * 9 + j) 81); [reflexivity | lia]. }
    split.
    + intros i j Hi Hj. rewrite !HM by assumption.
      rewrite (Hsym i j Hi Hj). reflexivity.
    + intros u Hu. rewrite (quadratic_form_scaled _ _ _ HM).
      apply Rmult_lt_0_compat; [exact Hc | apply Hpd; exact Hu].
Qed.
End SetterReal.

(** *** The statements at concrete inputs *)

Lemma used_b32_covariance_symmetric :
  forall i j, i < 9 -> j < 9 ->
    covariance_matrix Examples.used_b32 i j
    = covariance_matrix Examples.used_b32 j i.
Proof.
  intros i j Hi Hj.
  do 9 (destruct i as [|i];
        [do 9 (destruct j as [|j]; [reflexivity|]); lia|]).
  lia.
Qed.

Lemma TRICAL_norm_set_keeps_covariance_symmetric_witness :
  exists y,
    TRICAL_norm_set Examples.used_b32 (B32.of_Z 3) = Some y
    /\ (forall i j, i < 9 -> j < 9 ->
          covariance_matrix Examples.used_b32 i j
          = covariance_matrix Examples.used_b32 j i)
    /\ forall i j, i < 9 -> j < 9 ->
         covariance_matrix y i j = covariance_matrix y j i.
Proof.
  eexists. split; [reflexivity|].
  split; [exact used_b32_covariance_symmetric|].
  apply (@TRICAL_norm_set_keeps_covariance_symmetric spec_float b32_ops
           Examples.used_b32 _ (B32.of_Z 3)).
  - reflexivity.
  - exact used_b32_covariance_symmetric.
Defined.

Lemma TRICAL_norm_set_noise_set_commute_witness :
  (fltb fzero (B32.of_Z 3) = true /\ fltb fzero (B32.of_Z 5) = true)
  /\ exists a y b z,
       TRICAL_norm_set Examples.used_b32 (B32.of_Z 3) = Some a
       /\ TRICAL_noise_set a (B32.of_Z 5) = Some y
       /\ TRICAL_noise_set Examples.used_b32 (B32.of_Z 5) = Some b
       /\ TRICAL_norm_set b (B32.of_Z 3) = Some z
       /\ field_norm y = field_norm z
       /\ measurement_noise y = measurement_noise z
       /\ measurement_noise y = B32.of_Z 5
       /\ measurement_count y = measurement_count z
       /\ (forall k, state y k = state z k)
       /\ (forall k, state_covariance y k = state_covariance z k).
Proof.
  assert (H3 : fltb fzero (B32.of_Z 3) = true) by reflexivity.
  assert (H5 : fltb fzero (B32.of_Z 5) = true) by reflexivity.
  split; [split; assumption|].
  exact (@TRICAL_norm_set_noise_set_commute spec_float b32_ops
           Examples.used_b32 (B32.of_Z 3) (B32.of_Z 5) H3 H5).
Defined.

Lemma setters_then_getters_witness :
  (0 < 2)%R
  /\ (exists y,
        TRICAL_norm_set Examples.used_R 2%R = Some y
        /\ (Rabs (TRICAL_norm_get y - 2) < FLT_EPSILON)%R
        /\ ((FLT_EPSILON <= Rabs (2 - field_norm Examples.used_R))%R ->
            TRICAL_norm_get y = 2%R)
        /\ TRICAL_noise_get y = TRICAL_noise_get Examples.used_R)
  /\ (exists y,
        TRICAL_noise_set Examples.used_R 2%R = Some y
        /\ TRICAL_noise_get y = 2%R
        /\ TRICAL_norm_get y = TRICAL_norm_get Examples.used_R).
Proof.
  assert (H2 : (0 < 2)%R) by lra.
  split; [exact H2|].
  exact (@setters_then_getters Examples.used_R 2%R H2).
Defined.

Lemma TRICAL_norm_set_twice_witness :
  ((0 < field_norm Examples.used_R)%R /\ (0 < 2)%R /\ (0 < 3)%R
   /\ (FLT_EPSILON <= Rabs (2 - field_norm Examples.used_R))%R
   /\ (FLT_EPSILON <= Rabs (3 - 2))%R
   /\ (FLT_EPSILON <= Rabs (3 - field_norm Examples.used_R))%R)
  /\ exists y z w,
       TRICAL_norm_set Examples.used_R 2%R = Some y
       /\ TRICAL_norm_set y 3%R = Some z
       /\ TRICAL_norm_set Examples.used_R 3%R = Some w
       /\ field_norm z = field_norm w
       /\ (forall i, state z i = state w i)
       /\ (forall q, state_covariance z q = state_covariance w q).
Proof.
  assert (H0 : (0 < field_norm Examples.used_R)%R) by (simpl; lra).
  assert (H2 : (0 < 2)%R) by lra.
  assert (H3 : (0 < 3)%R) by lra.
  assert (E1 : (FLT_EPSILON <= Rabs (2 - field_norm Examples.used_R))%R)
    by (simpl; rewrite Rabs_pos_eq; lra).
  assert (E2 : (FLT_EPSILON <= Rabs (3 - 2))%R)
    by (simpl; rewrite Rabs_pos_eq; lra).
  assert (E3 : (FLT_EPSILON <= Rabs (3 - field_norm Examples.used_R))%R)
    by (simpl; rewrite Rabs_pos_eq; lra).
  split; [repeat split; assumption|].
  exact (@TRICAL_norm_set_twice Examples.used_R 2%R 3%R H0 H2 H3 E1 E2 E3).
Defined.

Section DiagonalForms.
Open Scope R_scope.

Lemma sumR_single (f : nat -> R) (n i : nat) :
  (i < n)%nat ->
  (forall j, (j < n)%nat -> j <> i -> f j = 0) ->
  sumR f n = f i.
Proof.
  intros Hi Hz. induction n as [|n IH]; [lia|].
  simpl. destruct (Nat.eq_dec i n) as [->|Hne].
  - rewrite sumR_zero; [ring|]. intros p Hp. apply Hz; lia.
  - rewrite IH; [|lia|intros j Hj Hji; apply Hz; lia].
    rewrite (Hz n) by lia. ring.
Qed.

Lemma sumR_nonneg (f : nat -> R) (n : nat) :
  (forall i, (i < n)%nat -> 0 <= f i) -> 0 <= sumR f n.
Proof.
  induction n as [|n IH]; intros H; simpl; [lra|].
  pose proof (IH (fun i Hi => H i (Nat.lt_lt_succ_r _ _ Hi))).
  pose proof (H n (Nat.lt_succ_diag_r n)). lra.
Qed.

Lemma sumR_pos (f : nat -> R) (n i : nat) :
  (forall j, (j < n)%nat -> 0 <= f j) -> (i < n)%nat -> 0 < f i ->
  0 < sumR f n.
Proof.
  induction n as [|n IH]; intros H Hi Hfi; [lia|].
  simpl. destruct (Nat.eq_dec i n) as [->|Hne].
  - pose proof (@sumR_nonneg f n (fun j Hj => H j (Nat.lt_lt_succ_r _ _ Hj))).
    lra.
  - pose proof (IH (fun j Hj => H j (Nat.lt_lt_succ_r _ _ Hj))
                   ltac:(lia) Hfi).
    pose proof (H n (Nat.lt_succ_diag_r n)). lra.
Qed.

(** A matrix c times the identity, c > 0, is symmetric positive
    definite. *)
Lemma scaled_identity_spd (n : nat) (M : nat -> nat -> R) (c : R) :
  0 < c ->
  (forall i j, (i < n)%nat -> (j < n)%nat ->
     M i j = if Nat.eqb i j then c else 0) ->
  symmetric n M /\ positive_definite n M.
Proof.
  intros Hc HM. split.
  - intros i j Hi Hj. rewrite !HM by assumption.
    rewrite (Nat.eqb_sym j i). reflexivity.
  - intros v (i & Hi & Hv). unfold quadratic_form.
    rewrite (sumR_ext _ (fun i => c * (v i * v i))).
    + apply (@sumR_pos _ n i).
      * intros j _. pose proof (Rle_0_sqr (v j)) as H. unfold Rsqr in H.
        nra.
      * exact Hi.
      * pose proof (Rsqr_pos_lt _ Hv) as H. unfold Rsqr in H. nra.
    + intros a Ha. rewrite (@sumR_single _ n a Ha).
      * rewrite HM by assumption. rewrite Nat.eqb_refl. ring.
      * intros j Hj Hne. rewrite HM by assumption.
        destruct (Nat.eqb_spec a j); [lia | ring].
Qed.
End DiagonalForms.

Lemma used_R_covariance_spd :
  symmetric 9 (covariance_matrix Examples.used_R)
  /\ positive_definite 9 (covariance_matrix Examples.used_R).
Proof.
  apply (@scaled_identity_spd 9 (covariance_matrix Examples.used_R) 1%R).
  - lra.
  - intros i j Hi Hj.
    do 9 (destruct i as [|i];
          [do 9 (destruct j as [|j]; [reflexivity|]); lia|]).
    lia.
Qed.

Lemma TRICAL_norm_set_keeps_covariance_positive_definite_witness :
  exists y,
    ((0 < field_norm Examples.used_R)%R
     /\ TRICAL_norm_set Examples.used_R 2%R = Some y
     /\ symmetric 9 (covariance_matrix Examples.used_R)
     /\ positive_definite 9 (covariance_matrix Examples.used_R))
    /\ symmetric 9 (covariance_matrix y)
    /\ positive_definite 9 (covariance_matrix y).
Proof.
  destruct Examples_used_R_far_from_2 as (H0 & H2 & Heps).
  destruct (@TRICAL_norm_set_rescales R R_ops Examples.used_R 2%R)
    as (y & Hy & _).
  { simpl. apply Rltb_true. lra. }
  { apply R_epsilon_test_false. exact Heps. }
  exists y.
  split; [repeat split; try assumption; apply used_R_covariance_spd|].
  exact (@TRICAL_norm_set_keeps_covariance_positive_definite
           Examples.used_R y 2%R H0 Hy
           (proj1 used_R_covariance_spd) (proj2 used_R_covariance_spd)).
Defined.

(** ** The estimate getters and their buffers *)

Section GetterBounds.
Context {F : Type}.

Ltac skip_stores :=
  repeat (rewrite store_other by (unfold in_buffer in *; lia)).

Lemma TRICAL_estimate_get_frame (x : TRICAL_instance_t F)
    (b s : ptr) (h h' : heap F) :
  TRICAL_estimate_get x b s h = Some h' ->
  forall q, ~ in_buffer b 3 q -> ~ in_buffer s 9 q -> h' q = h q.
Proof.
  unfold TRICAL_estimate_get.
  destruct (nonnull b && nonnull s && negb (Nat.eqb b s)); simpl assert;
    [|discriminate].
  cbv iota zeta. rewrite memcpy_floats_3.
  intros Hrun q Hb Hs. injection Hrun as <-.
  skip_stores. reflexivity.
Qed.

(** X11.  Whatever the arithmetic and wherever the buffers are,
    [TRICAL_estimate_get] writes only the 3 cells of [bias_estimate] and
    the 9 cells of [scale_estimate], and [TRICAL_estimate_get_ext] only
    those and the 3 and 9 cells of the two variance buffers. *)
Theorem TRICAL_estimate_get_writes_buffers_only (x : TRICAL_instance_t F)
    (b s bv sv : ptr) (h : heap F) :
  (forall h', TRICAL_estimate_get x b s h = Some h' ->
     forall q, ~ in_buffer b 3 q -> ~ in_buffer s 9 q -> h' q = h q)
  /\ (forall h', TRICAL_estimate_get_ext x b s bv sv h = Some h' ->
        forall q, ~ in_buffer b 3 q -> ~ in_buffer s 9 q ->
                  ~ in_buffer bv 3 q -> ~ in_buffer sv 9 q -> h' q = h q).
Proof.
  split.
  - intros h' Hget. apply (@TRICAL_estimate_get_frame x b s h h' Hget).
  - intros h'. unfold TRICAL_estimate_get_ext.
    destruct (TRICAL_estimate_get x b s h) as [h1|] eqn:Hget;
      [|discriminate].
    match goal with
    | |- context [assert ?c] => destruct c; simpl assert; [|discriminate]
    end.
    cbv iota zeta.
    intros Hrun q Hb Hs Hbv Hsv. injection Hrun as <-.
    skip_stores. apply (@TRICAL_estimate_get_frame x b s h h1 Hget); assumption.
Qed.

(** X12.  The assertion [bias_estimate != scale_estimate] does not keep
    the buffers apart: with [scale_estimate = bias_estimate + 1] the call
    returns, and the bias entries 1 and 2 have been overwritten by the
    scale entries state[3] and state[4]. *)
Theorem TRICAL_estimate_get_overlapping_buffers (x : TRICAL_instance_t F)
    (b : ptr) (h : heap F) :
  b <> NULL ->
  exists h',
    TRICAL_estimate_get x b (b + 1) h = Some h'
    /\ h' (b + 0) = state x 0
    /\ h' (b + 1) = state x 3
    /\ h' (b + 2) = state x 4.
Proof.
  intros Hb. unfold TRICAL_estimate_get.
  rewrite (nonnull_true Hb).
  assert (Hs : b + 1 <> NULL) by (unfold NULL; lia).
  rewrite (nonnull_true Hs).
  destruct (Nat.eqb_spec b (b + 1)) as [Heq|_]; [lia|].
  simpl assert. cbv iota zeta. rewrite memcpy_floats_3.
  eexists. split; [reflexivity|].
  repeat split;
    repeat first [ rewrite store_eq by lia | rewrite store_other by lia ];
    reflexivity.
Qed.
End GetterBounds.

Lemma TRICAL_estimate_get_writes_buffers_only_witness :
  let x := Examples.used_b32 in
  let h := Examples.raw_memory in
  exists h1 h2,
    TRICAL_estimate_get x 1 4 h = Some h1
    /\ TRICAL_estimate_get_ext x 1 4 13 16 h = Some h2
    /\ (forall q, ~ in_buffer 1 3 q -> ~ in_buffer 4 9 q -> h1 q = h q)
    /\ (forall q, ~ in_buffer 1 3 q -> ~ in_buffer 4 9 q ->
                  ~ in_buffer 13 3 q -> ~ in_buffer 16 9 q -> h2 q = h q).
Proof.
  destruct (@TRICAL_estimate_get_writes_buffers_only spec_float
              Examples.used_b32 1 4 13 16 Examples.raw_memory) as [H1 H2].
  eexists. eexists.
  split; [reflexivity|]. split; [reflexivity|].
  split; [apply H1; reflexivity | apply H2; reflexivity].
Defined.

Lemma TRICAL_estimate_get_overlapping_buffers_witness :
  1 <> NULL
  /\ exists h',
       TRICAL_estimate_get Examples.used_b32 1 (1 + 1) Examples.raw_memory
       = Some h'
       /\ h' (1 + 0) = state Examples.used_b32 0
       /\ h' (1 + 1) = state Examples.used_b32 3
       /\ h' (1 + 2) = state Examples.used_b32 4.
Proof.
  assert (H1 : 1 <> NULL) by discriminate.
  split; [exact H1|].
  exact (@TRICAL_estimate_get_overlapping_buffers spec_float
           Examples.used_b32 1 Examples.raw_memory H1).
Defined.

(** ** The TI branch of the primitives, over real arithmetic *)

Section TIReal.
Open Scope R_scope.

Variable _rsqrdp : R -> R.
Variable _rcpdp : R -> R.

Lemma DBL_MAX_pos : 0 < @DBL_MAX R R_double_lits.
Proof. apply IZR_lt. reflexivity. Qed.

Lemma pow8_bound (e d : R) : Rabs e <= d -> Rabs (e ^ 8) <= d ^ 8.
Proof.
  intros H. rewrite <- RPow_abs.
  apply pow_incr. split; [apply Rabs_pos | exact H].
Qed.

(** X13.  Three Newton steps from the hardware estimate x0 of 1/b raise
    the residual to its 8th power: 1 - b recip(b) = (1 - b x0)^8, so an
    estimate with |1 - b x0| <= d gives |1 - b recip(b)| <= d^8. *)
Theorem recip_ti_residual (b : R) :
  1 - b * recip_ti _rcpdp b = (1 - b * _rcpdp b) ^ 8
  /\ forall d, Rabs (1 - b * _rcpdp b) <= d ->
               Rabs (1 - b * recip_ti _rcpdp b) <= d ^ 8.
Proof.
  assert (H : 1 - b * recip_ti _rcpdp b = (1 - b * _rcpdp b) ^ 8)
    by (unfold recip_ti; simpl; ring).
  split; [exact H|].
  intros d Hd. rewrite H. apply pow8_bound. exact Hd.
Qed.

Lemma R_feqb_zero (a : R) :
  (a = 0 -> @feqb R R_ops a fzero = true)
  /\ (a <> 0 -> @feqb R R_ops a fzero = false).
Proof.
  unfold feqb. simpl. unfold Rleb. split; intros H.
  - subst a. destruct (Rle_dec 0 0); [reflexivity | lra].
  - destruct (Rle_dec a 0); destruct (Rle_dec 0 a); try reflexivity. lra.
Qed.

(** X14.  [divide(a, b)] is a times the refined reciprocal, with the same
    residual: a - b divide(a, b) = a (1 - b x0)^8; and divide(0, b) is 0
    whatever b and its estimate are. *)
Theorem divide_ti_residual (a b : R) :
  a - b * divide_ti _rcpdp a b = a * (1 - b * _rcpdp b) ^ 8
  /\ divide_ti _rcpdp 0 b = 0.
Proof.
  split.
  - unfold divide_ti.
    destruct (Req_dec a 0) as [Ha|Ha].
    + rewrite (proj1 (R_feqb_zero a) Ha). subst a. simpl. ring.
    + rewrite (proj2 (R_feqb_zero a) Ha). simpl. ring.
  - unfold divide_ti. rewrite (proj1 (R_feqb_zero 0) eq_refl). reflexivity.
Qed.

Lemma rsqrt_residual_step_bound (e d : R) :
  Rabs e <= d -> d <= 1 -> Rabs (rsqrt_residual_step e) <= d * d.
Proof.
  intros He Hd. unfold rsqrt_residual_step.
  assert (Hd0 : 0 <= d) by (pose proof (Rabs_pos e); lra).
  assert (He2 : -d <= e <= d)
    by (split; [pose proof (Rabs_def2 e (d + 1)) | ];
        unfold Rabs in He; destruct (Rcase_abs e); lra).
  apply Rabs_le. split; nra.
Qed.

Lemma rsqrt_three_steps_bound (e d : R) :
  Rabs e <= d -> d <= 1 ->
  Rabs (rsqrt_residual_step (rsqrt_residual_step (rsqrt_residual_step e)))
  <= d ^ 8.
Proof.
  intros He Hd.
  assert (Hd0 : 0 <= d) by (pose proof (Rabs_pos e); lra).
  pose proof (rsqrt_residual_step_bound e He Hd) as H1.
  assert (Hd2 : d * d <= 1) by nra.
  pose proof (rsqrt_residual_step_bound _ H1 Hd2) as H2.
  assert (Hd4 : d * d * (d * d) <= 1) by nra.
  pose proof (rsqrt_residual_step_bound _ H2 Hd4) as H3.
  replace (d ^ 8) with (d * d * (d * d) * (d * d * (d * d))) by ring.
  exact H3.
Qed.

(** X15.  [sqrt_inv(a)] is the largest finite double for a < 0.  For
    a >= 0 each of its three Newton steps maps the residual e = 1 - a x^2
    to e^2 (3 + e) / 4, so an estimate x0 with |1 - a x0^2| <= d <= 1
    gives |1 - a sqrt_inv(a)^2| <= d^8. *)
Theorem sqrt_inv_ti_residual (a : R) :
  (a < 0 -> sqrt_inv_ti _rsqrdp a = DBL_MAX)
  /\ (0 <= a ->
      let e0 := 1 - a * (_rsqrdp a * _rsqrdp a) in
      let x := sqrt_inv_ti _rsqrdp a in
      1 - a * (x * x)
      = rsqrt_residual_step (rsqrt_residual_step (rsqrt_residual_step e0))
      /\ forall d, Rabs e0 <= d -> d <= 1 ->
                   Rabs (1 - a * (x * x)) <= d ^ 8).
Proof.
  split.
  - intros Ha. unfold sqrt_inv_ti.
    change (@fltb R R_ops a fzero) with (Rltb a 0).
    rewrite (Rltb_true Ha). reflexivity.
  - intros Ha e0 x.
    assert (H : 1 - a * (x * x)
                = rsqrt_residual_step
                    (rsqrt_residual_step (rsqrt_residual_step e0))).
    { unfold x, e0, sqrt_inv_ti.
      change (@fltb R R_ops a fzero) with (Rltb a 0).
      rewrite (Rltb_false Ha).
      unfold rsqrt_residual_step. simpl. field. }
    split; [exact H|].
    intros d Hd Hd1. rewrite H. apply rsqrt_three_steps_bound; assumption.
Qed.

(** X16.  [fsqrt(a)] is 0 for a <= 0 and the largest finite double for
    a above it.  In between, with the estimate x0 of 1/sqrt(a), its
    square misses a by a times the residual of three Newton steps, so
    |1 - a x0^2| <= d <= 1 gives |a - fsqrt(a)^2| <= a d^8. *)
Theorem fsqrt_ti_residual (a : R) :
  (a <= 0 -> fsqrt_ti _rsqrdp a = 0)
  /\ (DBL_MAX < a -> fsqrt_ti _rsqrdp a = DBL_MAX)
  /\ (0 < a <= DBL_MAX ->
      let e0 := 1 - a * (_rsqrdp a * _rsqrdp a) in
      let r := fsqrt_ti _rsqrdp a in
      a - r * r
      = a * rsqrt_residual_step
              (rsqrt_residual_step (rsqrt_residual_step e0))
      /\ forall d, Rabs e0 <= d -> d <= 1 ->
                   Rabs (a - r * r) <= a * d ^ 8).
Proof.
  pose proof DBL_MAX_pos as Hmax.
  split; [|split].
  - intros Ha. unfold fsqrt_ti. cbv zeta.
    change (@fleb R R_ops a fzero) with (Rleb a 0).
    change (@fltb R R_ops DBL_MAX a) with (Rltb DBL_MAX a).
    rewrite (Rleb_true Ha).
    rewrite Rltb_false by lra. reflexivity.
  - intros Ha. unfold fsqrt_ti. cbv zeta.
    change (@fltb R R_ops DBL_MAX a) with (Rltb DBL_MAX a).
    rewrite (Rltb_true Ha). reflexivity.
  - intros [Ha0 Ha1] e0 r.
    assert (H : a - r * r
                = a * rsqrt_residual_step
                        (rsqrt_residual_step (rsqrt_residual_step e0))).
    { unfold r, e0, fsqrt_ti. cbv zeta.
      change (@fleb R R_ops a fzero) with (Rleb a 0).
      change (@fltb R R_ops DBL_MAX a) with (Rltb DBL_MAX a).
      rewrite Rltb_false by lra.
      unfold Rleb. destruct (Rle_dec a 0) as [Hle|_]; [lra|].
      change (@fabs R R_ops a) with (Rabs a).
      rewrite (Rabs_pos_eq a) by lra.
      unfold rsqrt_residual_step.
      cbn [fmul fsub R_ops lit_0_5 lit_1_5 R_double_lits]. field. }
    split; [exact H|].
    intros d Hd Hd1. rewrite H.
    rewrite Rabs_mult, (Rabs_pos_eq a) by lra.
    apply Rmult_le_compat_l; [lra|].
    apply rsqrt_three_steps_bound; assumption.
Qed.
End TIReal.

Lemma rcp_estimate_residual :
  (Rabs (1 - 2 * MoreExamples.rcp_estimate 2) <= 1 / 100)%R.
Proof.
  unfold MoreExamples.rcp_estimate.
  replace (1 - 2 * (101 / 200))%R with (- (1 / 100))%R by field.
  rewrite Rabs_Ropp, Rabs_pos_eq; lra.
Qed.

Lemma rsqrt_estimate_residual :
  (Rabs (1 - 4 * (MoreExamples.rsqrt_estimate 4
                  * MoreExamples.rsqrt_estimate 4)) <= 1 / 40)%R.
Proof.
  unfold MoreExamples.rsqrt_estimate.
  replace (1 - 4 * (101 / 200 * (101 / 200)))%R
    with (- (201 / 10000))%R by field.
  rewrite Rabs_Ropp, Rabs_pos_eq; lra.
Qed.

Lemma four_below_DBL_MAX : (0 < 4 <= @DBL_MAX R R_double_lits)%R.
Proof.
  split; [lra|].
  change 4%R with (IZR 4). apply IZR_le. apply Zle_bool_imp_le. reflexivity.
Qed.

Lemma recip_ti_residual_witness :
  (Rabs (1 - 2 * MoreExamples.rcp_estimate 2) <= 1 / 100)%R
  /\ (Rabs (1 - 2 * recip_ti MoreExamples.rcp_estimate 2)
      <= (1 / 100) ^ 8)%R.
Proof.
  split; [exact rcp_estimate_residual|].
  exact (proj2 (@recip_ti_residual MoreExamples.rcp_estimate 2%R)
               (1 / 100)%R rcp_estimate_residual).
Defined.

Lemma sqrt_inv_ti_residual_witness :
  ((0 <= 4)%R
   /\ (Rabs (1 - 4 * (MoreExamples.rsqrt_estimate 4
                      * MoreExamples.rsqrt_estimate 4)) <= 1 / 40)%R
   /\ (1 / 40 <= 1)%R)
  /\ (Rabs (1 - 4 * (sqrt_inv_ti MoreExamples.rsqrt_estimate 4
                     * sqrt_inv_ti MoreExamples.rsqrt_estimate 4))
      <= (1 / 40) ^ 8)%R.
Proof.
  assert (H0 : (0 <= 4)%R) by lra.
  assert (H1 : (1 / 40 <= 1)%R) by lra.
  split; [repeat split; [exact H0 | exact rsqrt_estimate_residual | exact H1]|].
  exact (proj2 (proj2 (@sqrt_inv_ti_residual MoreExamples.rsqrt_estimate 4%R)
                      H0)
               (1 / 40)%R rsqrt_estimate_residual H1).
Defined.

Lemma fsqrt_ti_residual_witness :
  ((0 < 4 <= DBL_MAX)%R
   /\ (Rabs (1 - 4 * (MoreExamples.rsqrt_estimate 4
                      * MoreExamples.rsqrt_estimate 4)) <= 1 / 40)%R
   /\ (1 / 40 <= 1)%R)
  /\ (Rabs (4 - fsqrt_ti MoreExamples.rsqrt_estimate 4
                * fsqrt_ti MoreExamples.rsqrt_estimate 4)
      <= 4 * (1 / 40) ^ 8)%R.
Proof.
  assert (H1 : (1 / 40 <= 1)%R) by lra.
  split; [repeat split;
          [apply four_below_DBL_MAX | apply four_below_DBL_MAX
           | exact rsqrt_estimate_residual | exact H1]|].
  exact (proj2 (proj2 (proj2 (@fsqrt_ti_residual
                                MoreExamples.rsqrt_estimate 4%R))
                      four_below_DBL_MAX)
               (1 / 40)%R rsqrt_estimate_residual H1).
Defined.

(** ** The helper macros *)

Section MacroFacts.
Lemma minus_before_multiplicative_value (m : multiplicative_expr R) :
  eval_multiplicative (minus_before_multiplicative m)
  = (- eval_multiplicative m)%R.
Proof.
  induction m as [u | op a IH b]; simpl.
  - reflexivity.
  - destruct op; rewrite IH; unfold Rdiv; ring.
Qed.

Lemma minus_before_value (e : additive_expr R) :
  eval_additive (minus_before e)
  = (eval_additive e - 2 * leading_term e)%R.
Proof.
  induction e as [m | op a IH b]; simpl.
  - rewrite minus_before_multiplicative_value. ring.
  - destruct op; rewrite IH; ring.
Qed.

(** X17.  Over real arithmetic [min] and [max] are the minimum and the
    maximum.  [absval] negates its argument without parentheses, so on
    the negative branch only the leading term of the argument is negated:
    [absval] of an arithmetic expression is its absolute value exactly
    when the expression is non-negative or equals its leading term.  It
    is the absolute value of an operand and of a product or quotient;
    [absval(a - b)] with a - b < 0 is -a - b. *)
Theorem macros_over_reals :
  (forall a b : R, min a b = Rmin a b /\ max a b = Rmax a b)
  /\ (forall e : additive_expr R,
        absval_expansion e = Rabs (eval_additive e)
        <-> (0 <= eval_additive e)%R \/ eval_additive e = leading_term e)
  /\ (forall m : multiplicative_expr R,
        absval_expansion (Multiplicative m) = Rabs (eval_multiplicative m))
  /\ (forall v : R,
        absval v = absval_expansion (Multiplicative (Unary (Operand v)))
        /\ absval v = Rabs v)
  /\ (forall a b : R,
        (a - b < 0)%R ->
        eval_additive (difference a b) = (a - b)%R
        /\ absval_expansion (difference a b) = (- a - b)%R
        /\ (b <> 0%R ->
            absval_expansion (difference a b) <> Rabs (a - b))).
Proof.
  assert (Hchar : forall e : additive_expr R,
            absval_expansion e = Rabs (eval_additive e)
            <-> (0 <= eval_additive e)%R
                \/ eval_additive e = leading_term e).
  { intros e. unfold absval_expansion. simpl fltb. simpl fzero.
    unfold Rltb. destruct (Rlt_dec (eval_additive e) 0) as [Hneg|Hpos].
    - rewrite minus_before_value, Rabs_left by exact Hneg.
      split; [intros H; right; lra | intros [H|H]; lra].
    - rewrite Rabs_pos_eq by lra.
      split; [intros _; left; lra | reflexivity]. }
  assert (Hmul : forall m : multiplicative_expr R,
            absval_expansion (Multiplicative m)
            = Rabs (eval_multiplicative m)).
  { intros m. apply (proj2 (Hchar (Multiplicative m))).
    right. reflexivity. }
  split; [|split; [exact Hchar|split; [exact Hmul|split]]].
  - intros a b. unfold min, max. simpl. unfold Rltb. split.
    + unfold Rmin. destruct (Rlt_dec a b); destruct (Rle_dec a b);
        try reflexivity; lra.
    + unfold Rmax. destruct (Rlt_dec b a); destruct (Rle_dec a b);
        try reflexivity; lra.
  - intros v. split; [reflexivity|].
    exact (Hmul (Unary (Operand v))).
  - intros a b Hneg.
    assert (Hexp : absval_expansion (difference a b) = (- a - b)%R).
    { unfold absval_expansion, difference. simpl. unfold Rltb.
      destruct (Rlt_dec (a - b) 0); [reflexivity | contradiction]. }
    split; [reflexivity|]. split; [exact Hexp|].
    intros Hb. rewrite Hexp, Rabs_left by exact Hneg. lra.
Qed.

Lemma macros_over_reals_witness :
  (1 - 3 < 0)%R
  /\ eval_additive (difference 1%R 3%R) = (1 - 3)%R
  /\ absval_expansion (difference 1%R 3%R) = (- 1 - 3)%R
  /\ (3%R <> 0%R ->
      absval_expansion (difference 1%R 3%R) <> Rabs (1 - 3)).
Proof.
  assert (H : (1 - 3 < 0)%R) by lra.
  split; [exact H|].
  exact (proj2 (proj2 (proj2 (proj2 macros_over_reals))) 1%R 3%R H).
Defined.

(** X18.  At binary32 the macros treat a NaN by position: [min] and
    [max] drop a NaN first operand and return a NaN second operand, and
    [absval] returns NaN for NaN and keeps the sign of -0.0f. *)
Theorem macros_with_nan (v : spec_float) :
  min S754_nan v = v /\ min v S754_nan = S754_nan
  /\ max S754_nan v = v /\ max v S754_nan = S754_nan
  /\ absval S754_nan = S754_nan
  /\ absval (S754_zero true) = S754_zero true.
Proof.
  unfold min, max, absval.
  repeat split; try reflexivity; destruct v; reflexivity.
Qed.
End MacroFacts.
